(** * Resumable chunked transcription: a shallow embedding

    The development follows the TypeScript sources file by file:

    - the type declarations ([./types])       : [ProcessingStage], [Version],
                                                [MediaItem];
    - [services/geminiService.ts]             : module [Gemini]
                                                ([convertBufferToMp3],
                                                 [sliceAudioBuffer],
                                                 [blobToBase64],
                                                 [cleanResponse],
                                                 [transcribeSegment],
                                                 [processTextStage]);
    - [services/supabaseClient.ts]            : module [Supabase]
                                                ([serializeItem],
                                                 [saveProjectToSupabase],
                                                 [deleteProjectFromSupabase]);
    - the components                          : modules [FileManager]
                                                ([handleLoad], [performDelete]),
                                                [RichTextEditor], [MediaPlayer]
                                                ([formatTime], [changeRate]) and
                                                [StageManager];
    - the [App] component                     : module [App]
                                                ([updateItem], [addVersionToItem],
                                                 [startTranscription], [runStage],
                                                 the reconnection listener, the
                                                 buttons that start a run, the
                                                 handlers of the queue, of the
                                                 selection and of the text).
      Line numbers in the comments of module [App] are those of the
      component's source file.

    Modelling conventions.
    - JavaScript numbers that hold durations are exact rationals ([Q]), so
      floating-point rounding is not modelled; chunk counters are natural
      numbers (a duration is never negative).
    - An [await]ed call that may reject is a value of [Exc]; a thrown
      JavaScript [Error] is a [JsError] carrying its [message] (the empty
      message stands for a missing one).
    - React state ([mediaQueue]) is an explicit list threaded through the
      code; every [setMediaQueue(prev => ...)] is a function on that list,
      applied at once.
    - Other handlers may change the queue while a run awaits; what they did
      by the time iteration [i] of the chunk loop polls is the [interleave]
      component of the environment.
    - [mediaQueueRef.current] is written by an effect after a render
      (line 47), so the poll of the chunk loop reads the queue as React
      last rendered it: the chunk loop carries what the ref holds from
      one poll to the next. Whether React has rendered between the
      previous poll and the poll of iteration [i], after what other
      handlers did, is the [rendered] component of the environment. The
      updates the loop itself makes between the awaited call and the
      poll are never in the ref; they change neither [id], [status] nor
      [error], which is all the poll reads. When the loop is entered
      the ref holds the queue: React is taken to have rendered while
      the source was decoded.
    - What the code does to the outside world (remote calls, sleeps, saves,
      dialogs) is recorded, in order, in a list of events. A save is
      recorded when it is requested; the sync indicator ([syncStatus]) and
      the periodic auto-save are not modelled.
    - One invocation draws at most one [uuidv4()]; it and [Date.now()] are
      values the environment supplies. *)

From Stdlib Require Import String Ascii List Bool Arith ZArith QArith Qround Qminmax.
From Stdlib Require Import DecimalString Permutation Lia Lqa.
From Stdlib Require DecimalZ DecimalPos.
Import ListNotations.

Close Scope Q_scope.
Open Scope string_scope.

(** ** JavaScript values shared by all files *)

Record JsError : Type := mkError { message : string }.

Inductive Exc (A : Type) : Type :=
| Return (a : A)
| Throw (e : JsError).
Arguments Return {A} a.
Arguments Throw {A} e.

(** [s || d] on strings: the empty string is falsy. *)
Definition strOr (s d : string) : string :=
  if String.eqb s "" then d else s.

(** [o || d] where [o] may be [undefined]. *)
Definition optStrOr (o : option string) (d : string) : string :=
  match o with
  | Some s => strOr s d
  | None => d
  end.

(** Truthiness of an optional string ([undefined] and [""] are falsy). *)
Definition truthy (o : option string) : bool :=
  match o with
  | Some s => negb (String.eqb s "")
  | None => false
  end.

(** ** types.ts *)

Inductive ProcessingStage : Type := RAW | ARABIC | TITLES | FORMAL | CUSTOM.

Definition stage_eqb (a b : ProcessingStage) : bool :=
  match a, b with
  | RAW, RAW | ARABIC, ARABIC | TITLES, TITLES
  | FORMAL, FORMAL | CUSTOM, CUSTOM => true
  | _, _ => false
  end.

Record Version : Type := mkVersion {
  vid : string;
  stage : ProcessingStage;
  name : string;
  content : string;
  parentId : option string;
  timestamp : Z;
  promptUsed : option string
}.

Inductive Status : Type :=
| idle | uploading | processing | paused | completed | error.

Definition status_eqb (a b : Status) : bool :=
  match a, b with
  | idle, idle | uploading, uploading | processing, processing
  | paused, paused | completed, completed | error, error => true
  | _, _ => false
  end.

(** The browser [File] handle; only what the code reads from it. *)
Record File : Type := mkFile { fileName : string }.

Record MediaItem : Type := mkItem {
  id : string;
  file : option File;
  duration : Q;
  status : Status;
  progress : Z;
  currentVersionId : option string;
  versions : list Version;
  lastError : option string;          (* the [error?] field *)
  processedChunks : nat;
  totalChunks : nat
}.

(** Object spread with one field replaced: [{...v, f: x}]. *)
Definition v_content (c : string) (v : Version) : Version :=
  mkVersion (vid v) (stage v) (name v) c (parentId v) (timestamp v) (promptUsed v).
Definition v_name (n : string) (v : Version) : Version :=
  mkVersion (vid v) (stage v) n (content v) (parentId v) (timestamp v) (promptUsed v).

Definition i_duration (d : Q) (i : MediaItem) : MediaItem :=
  mkItem (id i) (file i) d (status i) (progress i) (currentVersionId i)
         (versions i) (lastError i) (processedChunks i) (totalChunks i).
Definition i_status (s : Status) (i : MediaItem) : MediaItem :=
  mkItem (id i) (file i) (duration i) s (progress i) (currentVersionId i)
         (versions i) (lastError i) (processedChunks i) (totalChunks i).
Definition i_progress (p : Z) (i : MediaItem) : MediaItem :=
  mkItem (id i) (file i) (duration i) (status i) p (currentVersionId i)
         (versions i) (lastError i) (processedChunks i) (totalChunks i).
Definition i_currentVersionId (c : option string) (i : MediaItem) : MediaItem :=
  mkItem (id i) (file i) (duration i) (status i) (progress i) c
         (versions i) (lastError i) (processedChunks i) (totalChunks i).
Definition i_versions (vs : list Version) (i : MediaItem) : MediaItem :=
  mkItem (id i) (file i) (duration i) (status i) (progress i) (currentVersionId i)
         vs (lastError i) (processedChunks i) (totalChunks i).
Definition i_error (e : option string) (i : MediaItem) : MediaItem :=
  mkItem (id i) (file i) (duration i) (status i) (progress i) (currentVersionId i)
         (versions i) e (processedChunks i) (totalChunks i).
Definition i_processedChunks (n : nat) (i : MediaItem) : MediaItem :=
  mkItem (id i) (file i) (duration i) (status i) (progress i) (currentVersionId i)
         (versions i) (lastError i) n (totalChunks i).
Definition i_totalChunks (n : nat) (i : MediaItem) : MediaItem :=
  mkItem (id i) (file i) (duration i) (status i) (progress i) (currentVersionId i)
         (versions i) (lastError i) (processedChunks i) n.

(** [CHUNK_DURATION = 240] (the [App] component), also the [duration]
    argument every call of [sliceAudioBuffer] receives. *)
Definition CHUNK_DURATION : Q := 240%Q.

(** [Math.ceil] and [Math.round] on exact rationals. *)
Definition Math_ceil (x : Q) : Z := Qceiling x.
Definition Math_round (x : Q) : Z := Qfloor (x + (1 # 2))%Q.

(** ** JavaScript strings and numbers

    A string is modelled by the bytes of its UTF-8 encoding; a string
    with an unpaired surrogate has no encoding and is left out. Equality,
    concatenation, and searching for or splitting at an ASCII character
    act on the encoding as they act on the string. White space is the
    class [\s] of regular expressions, which is also what [trim] removes:
    U+0009 to U+000D, U+0020, U+00A0, U+1680, U+2000 to U+200A, U+2028,
    U+2029, U+202F, U+205F, U+3000 and U+FEFF, each recognised by the
    bytes that encode it. *)

Module JsString.

(** U+0009 .. U+000D and U+0020, of one byte. *)
Definition space1 (c : ascii) : bool :=
  let n := nat_of_ascii c in
  ((9 <=? n)%nat && (n <=? 13)%nat) || (n =? 32)%nat.

(** U+00A0, encoded as C2 A0. *)
Definition space2 (c1 c2 : ascii) : bool :=
  (nat_of_ascii c1 =? 194)%nat && (nat_of_ascii c2 =? 160)%nat.

(** U+1680 (E1 9A 80); U+2000 .. U+200A, U+2028, U+2029, U+202F
    (E2 80 80 .. E2 80 8A, E2 80 A8, E2 80 A9, E2 80 AF); U+205F
    (E2 81 9F); U+3000 (E3 80 80); U+FEFF (EF BB BF). *)
Definition space3 (c1 c2 c3 : ascii) : bool :=
  let n1 := nat_of_ascii c1 in
  let n2 := nat_of_ascii c2 in
  let n3 := nat_of_ascii c3 in
  ((n1 =? 225)%nat && (n2 =? 154)%nat && (n3 =? 128)%nat)
  || ((n1 =? 226)%nat && (n2 =? 128)%nat
      && (((128 <=? n3)%nat && (n3 <=? 138)%nat)
          || (n3 =? 168)%nat || (n3 =? 169)%nat || (n3 =? 175)%nat))
  || ((n1 =? 226)%nat && (n2 =? 129)%nat && (n3 =? 159)%nat)
  || ((n1 =? 227)%nat && (n2 =? 128)%nat && (n3 =? 128)%nat)
  || ((n1 =? 239)%nat && (n2 =? 187)%nat && (n3 =? 191)%nat).

(** One [\s] at the head of [s]: [Some rest] is what follows the
    white-space character [s] starts with. *)
Definition headSpace (s : string) : option string :=
  match s with
  | String c1 r1 =>
      if space1 c1 then Some r1
      else
        match r1 with
        | String c2 r2 =>
            if space2 c1 c2 then Some r2
            else
              match r2 with
              | String c3 r3 => if space3 c1 c2 c3 then Some r3 else None
              | EmptyString => None
              end
        | EmptyString => None
        end
  | EmptyString => None
  end.

(** A greedy [\s*] at the head of [s]: what is left after it. *)
Fixpoint dropSpaces (s : string) : string :=
  match s with
  | String c1 r1 =>
      if space1 c1 then dropSpaces r1
      else
        match r1 with
        | String c2 r2 =>
            if space2 c1 c2 then dropSpaces r2
            else
              match r2 with
              | String c3 r3 => if space3 c1 c2 c3 then dropSpaces r3 else s
              | EmptyString => s
              end
        | EmptyString => s
        end
  | EmptyString => EmptyString
  end.

(** White space only: [/^\s*$/]. *)
Definition allSpaces (s : string) : bool :=
  match dropSpaces s with
  | EmptyString => true
  | String _ _ => false
  end.

(** [s.trimEnd()]: [s] up to the first place from which only white
    space follows. *)
Fixpoint trimEnd (s : string) : string :=
  match s with
  | EmptyString => EmptyString
  | String c r => if allSpaces s then EmptyString else String c (trimEnd r)
  end.

(** [s.trim()] *)
Definition trim (s : string) : string := trimEnd (dropSpaces s).

(** Case folding of the [i] flag: only ASCII letters fold onto ASCII
    letters. *)
Definition lower (c : ascii) : ascii :=
  let n := nat_of_ascii c in
  if (65 <=? n)%nat && (n <=? 90)%nat then ascii_of_nat (n + 32) else c.

(** A literal [word] matched at the head of [s] under the [i] flag:
    [Some rest] is what follows the match. *)
Fixpoint matchWord (word s : string) : option string :=
  match word with
  | EmptyString => Some s
  | String w word' =>
      match s with
      | String c s' =>
          if Ascii.eqb (lower c) (lower w) then matchWord word' s' else None
      | EmptyString => None
      end
  end.

(** [s.includes(needle)] *)
Fixpoint includes (needle s : string) : bool :=
  String.prefix needle s
  || match s with
     | String _ r => includes needle r
     | EmptyString => false
     end.

(** [s.split(sep)] for a separator of one character. *)
Fixpoint split (sep : ascii) (s : string) : list string :=
  match s with
  | EmptyString => [EmptyString]
  | String c r =>
      if Ascii.eqb c sep then EmptyString :: split sep r
      else
        match split sep r with
        | piece :: pieces => String c piece :: pieces
        | [] => [String c EmptyString]
        end
  end.

(** [s.padStart(2, '0')] *)
Definition padStart2 (s : string) : string :=
  match String.length s with
  | 0%nat => "00"
  | 1%nat => "0" ++ s
  | _ => s
  end.

(** A JavaScript number; the finite ones are exact rationals. *)
Inductive JsNumber : Type :=
| Finite (q : Q)
| PlusInfinity
| MinusInfinity
| NaN.

(** The decimal numeral of an integer. *)
Definition decimal (n : Z) : string := NilZero.string_of_int (Z.to_int n).

(** [n.toString()] of an integral number: below 1e21 in absolute value
    it is the decimal numeral. From 1e21 on JavaScript prints exponent
    notation with the digits of the double, which is not modelled:
    [None]. *)
Definition Number_toString (n : Z) : option string :=
  if (Z.abs n <? 10 ^ 21)%Z then Some (decimal n) else None.

(** The integer a decimal numeral denotes (leading zeros allowed). *)
Definition readInt (s : string) : option Z :=
  option_map Z.of_int (NilZero.int_of_string s).

(** The JavaScript remainder [a % b]: the quotient is truncated towards
    zero, so the result has the sign of [a]. *)
Definition truncate (x : Q) : Z := Z.quot (Qnum x) (Zpos (Qden x)).

Definition remainder (a b : Q) : Q :=
  (a - b * inject_Z (truncate (a / b)))%Q.

(** [s.endsWith(suffix)] *)
Fixpoint endsWith (suffix s : string) : bool :=
  String.eqb s suffix
  || match s with
     | String _ r => endsWith suffix r
     | EmptyString => false
     end.

End JsString.

(** * services/geminiService.ts *)

Module Gemini.

(** ** sliceAudioBuffer: the time window that is rendered and encoded

    [None] is the early return of an empty blob ([startTime] at or past
    the end); otherwise the window has [actualDuration] seconds. *)
Definition actualDuration (sourceTotalDuration startTime duration : Q) : Q :=
  Qmin duration (sourceTotalDuration - startTime)%Q.

Definition sliceAudioBuffer (sourceTotalDuration startTime duration : Q)
  : option Q :=
  if Qle_bool sourceTotalDuration startTime then None
  else Some (actualDuration sourceTotalDuration startTime duration).

(** [Math.ceil(actualDuration * TARGET_SAMPLE_RATE)]: the length of the
    buffer a window is rendered into, at 16000 samples a second. *)
Definition lengthInSamples (actualDuration : Q) : Z :=
  Math_ceil (actualDuration * 16000)%Q.

(** ** The candidate models *)

Definition FALLBACKS : list string :=
  [ "gemini-3-flash-preview"; "gemini-2.5-pro-preview";
    "gemini-2.5-flash-preview"; "gemini-2.0-flash-exp";
    "gemini-1.5-flash" ].

Definition MODELS_TO_TRY (selectedModel : string) : list string :=
  selectedModel :: FALLBACKS.

Definition mem (x : string) (l : list string) : bool :=
  existsb (String.eqb x) l.

(** [[...new Set(xs)]]: insertion order, first occurrence kept. *)
Fixpoint spreadSet (seen xs : list string) : list string :=
  match xs with
  | [] => []
  | x :: rest =>
      if mem x seen then spreadSet seen rest
      else x :: spreadSet (x :: seen) rest
  end.

Definition uniqueModels (selectedModel : string) : list string :=
  spreadSet [] (MODELS_TO_TRY selectedModel).

(** ** The remote call and what the wrappers do around it *)

Inductive Event : Type :=
| Call (model : string)       (* ai.models.generateContent({model, ...}) *)
| Sleep (ms : Z).             (* await new Promise(r => setTimeout(r, ms)) *)

Record Response : Type := mkResponse { text : option string }.

Record Retry : Type := mkRetry {
  calls : nat;                       (* remote calls issued so far *)
  lastErr : option JsError;          (* [let lastError: any = null] *)
  trace : list Event
}.

Definition start : Retry := mkRetry 0 None [].

Section Wrappers.

(** The remote service: the outcome of the [n]-th call issued by one
    invocation of a wrapper (counted from 0), made with [model]. *)
Variable generateContent : nat -> string -> Exc Response.

(** [cleanResponse] strips code fences with two regular expressions and
    trims; it only runs on a successful response. *)
Variable cleanResponse : string -> string.

(** The inner loop [for (attempt = 1; attempt <= 3; attempt++)];
    [remaining] counts the iterations still to run. [None] means the
    loop ran to its end, [Some t] is the [return] inside [try]. *)
Fixpoint attemptLoop (model : string) (remaining attempt : nat) (st : Retry)
  : option string * Retry :=
  match remaining with
  | O => (None, st)
  | S remaining' =>
      match generateContent (calls st) model with
      | Return response =>
          (Some (cleanResponse (optStrOr (text response) "")),
           mkRetry (S (calls st)) (lastErr st) (trace st ++ [Call model]))
      | Throw e =>
          attemptLoop model remaining' (S attempt)
            (mkRetry (S (calls st)) (Some e)
               (trace st ++ [Call model;
                             Sleep (1000 * 2 ^ (Z.of_nat attempt - 1))]))
      end
  end.

(** The outer loop [for (const model of uniqueModels)]. *)
Fixpoint modelLoop (models : list string) (st : Retry)
  : option string * Retry :=
  match models with
  | [] => (None, st)
  | model :: rest =>
      match attemptLoop model 3 1 st with
      | (Some t, st') => (Some t, st')
      | (None, st') => modelLoop rest st'
      end
  end.

Definition transcribeSegment (selectedModel : string)
  : Exc string * list Event :=
  match modelLoop (uniqueModels selectedModel) start with
  | (Some t, st) => (Return t, trace st)
  | (None, st) =>
      (Throw (match lastErr st with
              | Some e => e
              | None => mkError "Transcription failed after multiple attempts."
              end),
       trace st)
  end.

(** [uniqueModels[uniqueModels.length - 1]] *)
Definition lastModel (models : list string) : option string :=
  nth_error models (length models - 1).

Definition isLastModel (model : string) (models : list string) : bool :=
  match lastModel models with
  | Some m => String.eqb model m
  | None => false
  end.

(** The loop of [processTextStage]: one call per model, no sleep; a
    failure is rethrown only when the model is the last of the list. *)
Fixpoint textLoop (all models : list string) (st : Retry)
  : Exc string * Retry :=
  match models with
  | [] => (Return "", st)                       (* [return ""] after the loop *)
  | model :: rest =>
      let st' := mkRetry (S (calls st)) (lastErr st)
                         (trace st ++ [Call model]) in
      match generateContent (calls st) model with
      | Return response =>
          (Return (cleanResponse (optStrOr (text response) "")), st')
      | Throw e =>
          if isLastModel model all then (Throw e, st')
          else textLoop all rest st'
      end
  end.

(** The [switch] builds a prompt for the four derived stages and throws
    for any other stage before a call is made. *)
Definition hasPrompt (s : ProcessingStage) : bool :=
  match s with
  | ARABIC | TITLES | FORMAL | CUSTOM => true
  | RAW => false
  end.

Definition processTextStage (s : ProcessingStage) (selectedModel : string)
  : Exc string * list Event :=
  if hasPrompt s then
    let models := uniqueModels selectedModel in
    let '(r, st) := textLoop models models start in
    (r, trace st)
  else (Throw (mkError "Invalid stage"), []).

End Wrappers.

(** What one candidate costs when all of its attempts fail: three calls,
    each followed by its sleep. *)
Definition threeAttempts (model : string) : list Event :=
  [Call model; Sleep 1000; Call model; Sleep 2000; Call model; Sleep 4000].

(** Remote calls in a trace, in order. *)
Fixpoint callsOf (tr : list Event) : list string :=
  match tr with
  | [] => []
  | Call m :: rest => m :: callsOf rest
  | Sleep _ :: rest => callsOf rest
  end.

(** Sleeps in a trace, in order. *)
Fixpoint sleepsOf (tr : list Event) : list Z :=
  match tr with
  | [] => []
  | Call _ :: rest => sleepsOf rest
  | Sleep ms :: rest => ms :: sleepsOf rest
  end.

(** What the first [r] attempts with one candidate leave in the trace
    when they fail: each call followed by its sleep. *)
Definition failedAttempts (r : nat) (model : string) : list Event :=
  flat_map (fun a => [Call model; Sleep (1000 * 2 ^ Z.of_nat a)]) (seq 0 r).

(** ** cleanResponse *)

Definition FENCE : string := "```".

(** [.replace(/^```(markdown|html)?\s*/i, '')]: the fence, then one of
    the two words if it is there, then all the white space. *)
Definition stripOpening (s : string) : string :=
  match JsString.matchWord FENCE s with
  | None => s
  | Some r =>
      JsString.dropSpaces
        match JsString.matchWord "markdown" r with
        | Some r1 => r1
        | None =>
            match JsString.matchWord "html" r with
            | Some r2 => r2
            | None => r
            end
        end
  end.

(** [/\s*```$/] tried at the head of [s]: white space, the fence, and
    nothing after it. *)
Definition closingAt (s : string) : bool :=
  String.eqb (JsString.dropSpaces s) FENCE.

(** [.replace(/\s*```$/, '')]: the match is removed at the leftmost
    position where it succeeds; it extends to the end of the string. *)
Fixpoint stripClosing (s : string) : string :=
  if closingAt s then EmptyString
  else
    match s with
    | EmptyString => EmptyString
    | String c r => String c (stripClosing r)
    end.

Definition cleanResponse (text : string) : string :=
  JsString.trim (stripClosing (stripOpening text)).

(** ** blobToBase64

    [readAsDataURL] is what the [FileReader] ends with: its [result], or
    the error event that rejects the promise. The value resolved is
    [None] where the code would resolve [undefined]. *)
Definition blobToBase64 (readAsDataURL : Exc string) : Exc (option string) :=
  match readAsDataURL with
  | Throw e => Throw e
  | Return result =>
      if JsString.includes "," result
      then Return (nth_error (JsString.split "," result) 1)
      else Return (Some result)
  end.

(** ** convertBufferToMp3 *)

(** [Math.max(-1, Math.min(1, samples[i]))] *)
Definition clamp (x : Q) : Q := Qmax (-1) (Qmin 1 x).

(** [s < 0 ? s * 0x8000 : s * 0x7FFF] on the clamped sample. *)
Definition scale (x : Q) : Q :=
  let s := clamp x in
  if Qle_bool 0 s then (s * 32767)%Q else (s * 32768)%Q.

(** Storing a number in an [Int16Array]: the fraction is dropped
    (towards zero) and the integer is reduced modulo 2^16 into
    [-32768 .. 32767]. *)
Definition toInt16 (x : Q) : Z :=
  let n := (JsString.truncate x mod 65536)%Z in
  if (n <? 32768)%Z then n else (n - 65536)%Z.

Definition blockSize : nat := 1152.

Record Blob : Type := mkBlob { bytes : list Byte.byte; mime : string }.

Section Encoder.

(** [window.lamejs.Mp3Encoder]: an object with a state of its own. *)
Variable Encoder : Type.
Variable Mp3Encoder : Z -> Z -> Z -> Encoder.
Variable encodeBuffer : Encoder -> list Z -> list Byte.byte * Encoder.
Variable flush : Encoder -> list Byte.byte.

(** [if (mp3buf.length > 0) mp3Data.push(mp3buf)] *)
Definition push (mp3Data : list (list Byte.byte)) (mp3buf : list Byte.byte)
  : list (list Byte.byte) :=
  if (0 <? length mp3buf)%nat then (mp3Data ++ [mp3buf])%list else mp3Data.

(** [for (let i = 0; i < sampleData.length; i += blockSize)]; [fuel]
    bounds the iterations, [fed] records what [encodeBuffer] was given. *)
Fixpoint encodeLoop (fuel i : nat) (sampleData : list Z) (enc : Encoder)
  (mp3Data : list (list Byte.byte)) (fed : list (list Z))
  : Encoder * list (list Byte.byte) * list (list Z) :=
  match fuel with
  | O => (enc, mp3Data, fed)
  | S fuel' =>
      if (i <? length sampleData)%nat then
        let sampleChunk := firstn blockSize (skipn i sampleData) in
        let '(mp3buf, enc') := encodeBuffer enc sampleChunk in
        encodeLoop fuel' (i + blockSize)%nat sampleData enc'
          (push mp3Data mp3buf) (fed ++ [sampleChunk])%list
      else (enc, mp3Data, fed)
  end.

(** [lamejs] tells whether [window.lamejs] is there; the second
    component is the sequence of blocks handed to the encoder. *)
Definition convertBufferToMp3 (lamejs : bool) (sampleRate : Z)
  (samples : list Q) : Exc Blob * list (list Z) :=
  if lamejs then
    let mp3encoder := Mp3Encoder 1 sampleRate 64 in
    let sampleData := map (fun x => toInt16 (scale x)) samples in
    let '(enc, mp3Data, fed) :=
      encodeLoop (length sampleData) 0 sampleData mp3encoder [] [] in
    (Return (mkBlob (concat (push mp3Data (flush enc))) "audio/mp3"), fed)
  else (Throw (mkError "Lamejs library not loaded"), []).

(** The bytes an encoder produces for a sequence of blocks, and the
    state it is left in. *)
Fixpoint encoded (enc : Encoder) (blocks : list (list Z))
  : list Byte.byte * Encoder :=
  match blocks with
  | [] => ([], enc)
  | b :: rest =>
      let '(out, enc') := encodeBuffer enc b in
      let '(outs, enc'') := encoded enc' rest in
      ((out ++ outs)%list, enc'')
  end.

End Encoder.

End Gemini.

(** * services/supabaseClient.ts *)

Module Supabase.

(** The two requests [deleteProjectFromSupabase] can issue. *)
Inductive Request : Type :=
| SelectId (rowId : string)       (* .select('id').eq('id', id).single() *)
| DeleteId (rowId : string).      (* .delete({count: 'exact'}).eq('id', id) *)

(** What the storage service answers. *)
Record CheckResult : Type := mkCheck { check_error : option JsError }.
Record DeleteResult : Type := mkDelete {
  delete_error : option JsError;
  count : option N                (* [number | null] *)
}.

Definition NOT_FOUND : string :=
  "فایل مورد نظر در دیتابیس یافت نشد یا دسترسی خواندن ندارید.".

Definition quote : string := String (Ascii.ascii_of_nat 34) "".

Definition POLICY_BLOCKED : string :=
  "دیتابیس عملیات حذف را مسدود کرد! (RLS Error). لطفاً دستور SQL "
  ++ quote ++ "DISABLE ROW LEVEL SECURITY" ++ quote
  ++ " را در سوپابیس اجرا کنید.".

Section Delete.

Variable selectSingle : string -> CheckResult.
Variable deleteExact : string -> DeleteResult.

Definition deleteProjectFromSupabase (rowId : string)
  : Exc bool * list Request :=
  let check := selectSingle rowId in
  match check_error check with
  | Some _ => (Throw (mkError NOT_FOUND), [SelectId rowId])
  | None =>
      let res := deleteExact rowId in
      let reqs := [SelectId rowId; DeleteId rowId] in
      match delete_error res with
      | Some e => (Throw (mkError (message e)), reqs)
      | None =>
          match count res with
          | None => (Throw (mkError POLICY_BLOCKED), reqs)
          | Some c =>
              if N.eqb c 0 then (Throw (mkError POLICY_BLOCKED), reqs)
              else (Return true, reqs)
          end
      end
  end.

End Delete.

(** ** serializeItem, saveProjectToSupabase *)

(** Fields an item only has once it went through [serializeItem] or came
    back from the library; the code reads them through [as any]. *)
Record Extras : Type := mkExtras {
  x_fileName : option string;
  x_fileSize : option Z;
  x_fileType : option string;
  x_savedAt : option string;
  x_isCloudRestored : bool
}.

(** An item that was never stored. *)
Definition noExtras : Extras := mkExtras None None None None false.

(** The serializable part of an item, as stored in the [content]
    column: [rest] is the item without its [file] (which [None] stands
    for here). *)
Record Content : Type := mkContent {
  rest : MediaItem;
  c_fileName : string;
  c_fileSize : Z;
  c_fileType : string;
  c_savedAt : string;
  c_isCloudRestored : bool
}.

Record SavedProject : Type := mkProject {
  sp_id : string;
  sp_content : Content;
  sp_updated_at : string
}.

(** [const { file, ...rest } = item] *)
Definition withoutFile (item : MediaItem) : MediaItem :=
  mkItem (id item) None (duration item) (status item) (progress item)
    (currentVersionId item) (versions item) (lastError item)
    (processedChunks item) (totalChunks item).

Definition NO_NAME : string := "بدون نام".

Section Projects.

(** [file.size] and [file.type] of a browser [File]. *)
Variable size : File -> Z.
Variable type : File -> string.

(** [savedAt] is [new Date().toISOString()]. *)
Definition serializeItem (savedAt : string) (item : MediaItem) (x : Extras)
  : Content :=
  mkContent (withoutFile item)
    (match file item with
     | Some f => fileName f
     | None => optStrOr (x_fileName x) NO_NAME
     end)
    (match file item with
     | Some f => size f
     | None => match x_fileSize x with Some n => n | None => 0%Z end
     end)
    (match file item with
     | Some f => type f
     | None => optStrOr (x_fileType x) "audio/mp3"
     end)
    savedAt
    (x_isCloudRestored x).

(** What the store answers to [.upsert(row).select()]. *)
Record UpsertResult : Type := mkUpsert {
  upsert_data : option (list SavedProject);
  upsert_error : option JsError
}.

Variable upsert : SavedProject -> UpsertResult.

(** [savedAt] and [updatedAt] are the two readings of the clock. The
    second component is the row sent to the store. *)
Definition saveProjectToSupabase (savedAt updatedAt : string)
  (item : MediaItem) (x : Extras)
  : Exc (option (list SavedProject)) * SavedProject :=
  let serialized := serializeItem savedAt item x in
  let row := mkProject (id item) serialized updatedAt in
  let res := upsert row in
  match upsert_error res with
  | Some e => (Throw e, row)
  | None => (Return (upsert_data res), row)
  end.

End Projects.

End Supabase.

(** * components/FileManager *)

Module FileManager.

Local Open Scope list_scope.

(** The state the statements are about: the list shown, the error
    banner, the row being deleted and the confirmation dialog. *)
Record Confirmation : Type := mkConfirmation {
  isOpen : bool;
  target : option string
}.

Record State : Type := mkState {
  projects : list Supabase.SavedProject;
  errorText : option string;               (* the [error] state *)
  deletingId : option string;
  deleteConfirmation : Confirmation
}.

Definition RESTORED_NAME : string := "پروژه ذخیره شده".
Definition DELETE_FAILED : string := "خطا در حذف پروژه: ".
Definition SOMETHING_WRONG : string := "مشکلی پیش آمد".

(** [handleLoad]: the item handed to [onLoadProject], with the fields it
    carries besides those of a [MediaItem]. *)
Definition handleLoad (project : Supabase.SavedProject)
  : MediaItem * Supabase.Extras :=
  let content := Supabase.sp_content project in
  let item := Supabase.rest content in
  (mkItem (Supabase.sp_id project) None (duration item) (status item)
     (progress item) (currentVersionId item) (versions item)
     (lastError item) (processedChunks item) (totalChunks item),
   Supabase.mkExtras
     (Some (strOr (Supabase.c_fileName content) RESTORED_NAME))
     (Some (Supabase.c_fileSize content))
     (Some (Supabase.c_fileType content))
     (Some (Supabase.c_savedAt content))
     true).

(** [promptDelete] opens the confirmation dialog for one row. *)
Definition promptDelete (rowId : string) (st : State) : State :=
  mkState (projects st) (errorText st) (deletingId st)
    (mkConfirmation true (Some rowId)).

Section Delete.

Variable selectSingle : string -> Supabase.CheckResult.
Variable deleteExact : string -> Supabase.DeleteResult.

(** [performDelete], from the click to the end of [finally]; the
    second component lists the requests sent to the store.
    [deletingId] holds the row while the call is awaited and is reset
    at the end. *)
Definition performDelete (st : State) : State * list Supabase.Request :=
  match target (deleteConfirmation st) with
  | None => (st, [])
  | Some rowId =>
      if String.eqb rowId "" then (st, [])
      else
        let closed := mkConfirmation false None in
        match Supabase.deleteProjectFromSupabase selectSingle deleteExact
                rowId
        with
        | (Return _, reqs) =>
            (mkState
               (filter (fun p => negb (String.eqb (Supabase.sp_id p) rowId))
                  (projects st))
               (errorText st) None closed,
             reqs)
        | (Throw err, reqs) =>
            (mkState (projects st)
               (Some (DELETE_FAILED ++ strOr (message err) SOMETHING_WRONG)%string)
               None closed,
             reqs)
        end
  end.

End Delete.

End FileManager.

(** * components/RichTextEditor *)

Module RichTextEditor.

(** What the user does in the editor; [innerHTML] is what the editor
    holds when the handler reads it. *)
Inductive Event : Type :=
| Input (innerHTML : string)                          (* typing *)
| Command (command : string) (value : option string)  (* a toolbar button *)
          (innerHTML : string).

(** [Some html] is the call [onContentChange(html)]. *)
Definition handleInput (isReadOnly : bool) (innerHTML : string)
  : option string :=
  if isReadOnly then None else Some innerHTML.

Definition execCmd (isReadOnly : bool) (command : string)
  (value : option string) (innerHTML : string) : option string :=
  if isReadOnly then None else Some innerHTML.

Definition handle (isReadOnly : bool) (e : Event) : option string :=
  match e with
  | Input innerHTML => handleInput isReadOnly innerHTML
  | Command command value innerHTML =>
      execCmd isReadOnly command value innerHTML
  end.

End RichTextEditor.

(** * components/MediaPlayer *)

Module MediaPlayer.

Local Open Scope list_scope.

Definition rates : list Q := [1; 5 # 4; 3 # 2; 2; 1 # 2; 3 # 4]%Q.

(** [rates.indexOf(rate)]; [None] is [-1]. *)
Fixpoint indexOf (rate : Q) (l : list Q) : option nat :=
  match l with
  | [] => None
  | x :: r => if Qeq_bool x rate then Some 0%nat
              else option_map S (indexOf rate r)
  end.

(** [changeRate]: the next value of the [rate] state. *)
Definition changeRate (rate : Q) : Q :=
  let next :=
    match indexOf rate rates with
    | Some currentIndex => ((currentIndex + 1) mod length rates)%nat
    | None => 0%nat                            (* (-1 + 1) % 6 *)
    end in
  nth next rates 1%Q.

(** [formatTime]. [!seconds] holds of 0 and of [NaN]. For an infinite
    argument [Math.floor(seconds / 60)] is infinite and
    [Math.floor(seconds % 60)] is [NaN], whose [toString()] are longer
    than the padding. The result is [None] where a number is printed in
    exponent notation (see [Number_toString]). *)
Definition formatTime (seconds : JsString.JsNumber) : option string :=
  match seconds with
  | JsString.NaN => Some "00:00"
  | JsString.PlusInfinity => Some "Infinity:NaN"
  | JsString.MinusInfinity => Some "-Infinity:NaN"
  | JsString.Finite q =>
      if Qeq_bool q 0 then Some "00:00"
      else
        let m := Qfloor (q / 60)%Q in
        let s := Qfloor (JsString.remainder q 60) in
        match JsString.Number_toString m, JsString.Number_toString s with
        | Some mm, Some ss =>
            Some (JsString.padStart2 mm ++ ":" ++ JsString.padStart2 ss)%string
        | _, _ => None
        end
  end.

(** What the component renders. *)
Inductive View : Type :=
| Nothing                                  (* return null *)
| CloudNotice (fileName : string)          (* a restored item: no audio *)
| Player (title src : string).

Definition render (file : option File) (fileName objectUrl : option string)
  : View :=
  match file with
  | None => if truthy fileName then CloudNotice (optStrOr fileName "")
            else Nothing
  | Some (mkFile name) =>
      if truthy objectUrl
      then Player (optStrOr fileName name) (optStrOr objectUrl "")
      else Nothing
  end.

End MediaPlayer.

(** * components/StageManager *)

Module StageManager.

Local Open Scope list_scope.

Record State : Type := mkState {
  expandedStage : option ProcessingStage;
  selectedParentId : string;
  customPrompt : string
}.

(** The three [useState] initial values. *)
Definition init (item : MediaItem) : State :=
  mkState None (optStrOr (currentVersionId item) "") "".

Definition getVersionsByStage (item : MediaItem) (s : ProcessingStage)
  : list Version :=
  filter (fun v => stage_eqb (stage v) s) (versions item).

(** The [id]s of the [stages] table, in order. *)
Definition stages : list ProcessingStage :=
  [RAW; ARABIC; TITLES; FORMAL; CUSTOM].

(** A call [onRunStage(stage, parentVersionId, customPrompt)]. *)
Record RunRequest : Type := mkRequest {
  r_stage : ProcessingStage;
  r_parent : string;
  r_prompt : option string
}.

Definition handleRunClick (item : MediaItem) (stageId : ProcessingStage)
  (st : State) : State :=
  if stage_eqb stageId RAW then st
  else
    mkState
      (match expandedStage st with
       | Some e => if stage_eqb e stageId then None else Some stageId
       | None => Some stageId
       end)
      (if truthy (currentVersionId item)
       then optStrOr (currentVersionId item) ""
       else selectedParentId st)
      (customPrompt st).

Definition executeRun (stageId : ProcessingStage) (st : State)
  : State * option RunRequest :=
  if String.eqb (selectedParentId st) "" then (st, None)
  else
    (mkState None (selectedParentId st) (customPrompt st),
     Some (mkRequest stageId (selectedParentId st)
             (if stage_eqb stageId CUSTOM then Some (customPrompt st)
              else None))).

(** [item.versions && item.versions.length > 0] *)
Definition canRunStages (item : MediaItem) : bool :=
  (0 <? length (versions item))%nat.

(** What the user can do to the panel. *)
Inductive Event : Type :=
| ClickRun (s : ProcessingStage)       (* the round arrow of a stage *)
| ClickExecute (s : ProcessingStage)   (* the start button of its panel *)
| SelectParent (versionId : string)    (* the source [select] *)
| TypePrompt (prompt : string).        (* the prompt [textarea] *)

(** Whether the control is rendered and enabled: a stage other than RAW
    has an arrow, disabled while the item has no version; a panel is
    rendered for the expanded stage only, its start button disabled
    while no source is selected, its [select] offering the versions of
    the item, its [textarea] shown for the CUSTOM stage. *)
Definition available (item : MediaItem) (st : State) (e : Event) : bool :=
  match e with
  | ClickRun s => negb (stage_eqb s RAW) && canRunStages item
  | ClickExecute s =>
      match expandedStage st with
      | Some e => stage_eqb e s && negb (String.eqb (selectedParentId st) "")
      | None => false
      end
  | SelectParent versionId =>
      match expandedStage st with
      | Some _ => existsb (fun v => String.eqb (vid v) versionId) (versions item)
      | None => false
      end
  | TypePrompt _ =>
      match expandedStage st with
      | Some e => stage_eqb e CUSTOM
      | None => false
      end
  end.

(** One event on the panel rendered for [item]. *)
Definition dispatch (item : MediaItem) (e : Event) (st : State)
  : State * option RunRequest :=
  if available item st e then
    match e with
    | ClickRun s => (handleRunClick item s st, None)
    | ClickExecute s => executeRun s st
    | SelectParent versionId =>
        (mkState (expandedStage st) versionId (customPrompt st), None)
    | TypePrompt prompt =>
        (mkState (expandedStage st) (selectedParentId st) prompt, None)
    end
  else (st, None).

(** A session: each event comes with the item the panel shows at that
    moment. The requests made are listed in order. *)
Fixpoint session (events : list (MediaItem * Event)) (st : State)
  : State * list RunRequest :=
  match events with
  | [] => (st, [])
  | (item, e) :: rest =>
      let '(st1, req) := dispatch item e st in
      let '(st2, reqs) := session rest st1 in
      (st2, match req with Some r => r :: reqs | None => reqs end)
  end.

End StageManager.

(** * The App component *)

Module App.

Local Open Scope list_scope.
Local Open Scope nat_scope.

(** [mediaQueue]. *)
Definition Queue : Type := list MediaItem.

Inductive Effect : Type :=
| ShowKeyModal                          (* setShowKeyModal(true) *)
| Alert                                 (* alert(...) *)
| Confirm                               (* confirm(...) *)
| Decode                                (* decodeAudioFile(item.file) *)
| Transcribe (index : nat) (startTime : Q) (window : option Q)
                                        (* slice, encode and send one chunk *)
| ProcessText (s : ProcessingStage) (source : string)
                                        (* processTextStage(...) *)
| SaveToCloud (item : MediaItem).       (* handleSaveToCloud(item, true) *)

Record Run : Type := mkRun { queue : Queue; effects : list Effect }.

(** Everything a call reads from outside the queue. *)
Record Env : Type := mkEnv {
  apiKey : string;
  uuidv4 : string;                      (* the identifier the call draws *)
  now : Z;                              (* Date.now() *)
  confirm : bool;                       (* the user's answer to confirm() *)
  decodeAudioFile : File -> Exc Q;      (* duration of the decoded buffer *)
  transcribe : nat -> Exc string;       (* outcome of lines 271-280 for chunk i *)
  interleave : nat -> Queue -> Queue;   (* what other handlers did to the
                                           queue before iteration i reads it *)
  rendered : nat -> bool;               (* whether React has rendered since
                                           the previous poll when iteration
                                           i reads the ref *)
  processText : string -> ProcessingStage -> option string -> Exc string;
  ticks : nat                           (* firings of the progress interval *)
}.

(** An item as [handleFileUpload] creates it (lines 90-100). *)
Definition uploaded (itemId : string) (f : File) : MediaItem :=
  mkItem itemId (Some f) 0%Q idle 0 None [] None 0 0.

(** ** Queue helpers *)

(** [prev.map(item => item.id === id ? f(item) : item)] *)
Definition mapItem (itemId : string) (f : MediaItem -> MediaItem) (q : Queue)
  : Queue :=
  map (fun item => if String.eqb (id item) itemId then f item else item) q.

(** [updateItem(id, updates)]: [updates] is the spread [{...item, ...updates}]. *)
Definition updateItem (itemId : string) (updates : MediaItem -> MediaItem)
  (q : Queue) : Queue :=
  mapItem itemId updates q.

Definition addVersionToItem (itemId : string) (version : Version)
  (setAsCurrent : bool) (q : Queue) : Queue :=
  mapItem itemId
    (fun item =>
       i_currentVersionId
         (if setAsCurrent then Some (vid version) else currentVersionId item)
         (i_versions (versions item ++ [version]) item))
    q.

(** [queue.find(x => x.id === id)] *)
Definition findItem (itemId : string) (q : Queue) : option MediaItem :=
  find (fun x => String.eqb (id x) itemId) q.

(** [versions.find(v => v.id === id)] *)
Definition findVersion (versionId : string) (vs : list Version)
  : option Version :=
  find (fun v => String.eqb (vid v) versionId) vs.

(** [versions.find(v => v.stage === ProcessingStage.RAW)] *)
Definition findRaw (vs : list Version) : option Version :=
  find (fun v => stage_eqb (stage v) RAW) vs.

(** [versions.map(v => v.id === id ? f(v) : v)] *)
Definition patchVersion (versionId : string) (f : Version -> Version)
  (vs : list Version) : list Version :=
  map (fun v => if String.eqb (vid v) versionId then f v else v) vs.

(** ** Labels *)

Definition NAME_CONTINUING : string := "متن خام (ادامه...)".
Definition NAME_GENERATING : string := "متن خام (در حال تولید...)".
Definition NAME_COMPLETING : string := "متن خام (در حال تکمیل)".
Definition NAME_COMPLETE : string := "متن خام (کامل)".
Definition DEFAULT_ERROR : string := "خطا در برقراری ارتباط".
Definition PLEASE_WAIT : string := "لطفاً صبر کنید...".
Definition STAGE_FAILED : string := "خطا در پردازش. لطفا مجدد تلاش کنید.".

(** ** startTranscription *)

Definition chunkCount (d : Q) : nat :=
  Z.to_nat (Math_ceil (d / CHUNK_DURATION)%Q).

Definition chunkStart (i : nat) : Q :=
  (inject_Z (Z.of_nat i) * CHUNK_DURATION)%Q.

(** [Math.round((i / total) * 100)] *)
Definition percent (i total : nat) : Z :=
  Math_round (inject_Z (Z.of_nat i) / inject_Z (Z.of_nat total) * 100)%Q.

(** [currentItemState?.status === 'paused' && !currentItemState.error] *)
Definition manuallyPaused (currentItemState : option MediaItem) : bool :=
  match currentItemState with
  | Some st => status_eqb (status st) paused && negb (truthy (lastError st))
  | None => false
  end.

Inductive LoopExit : Type :=
| Exhausted                   (* i reached currentTotalChunks *)
| ManualPause                 (* completedSuccessfully = false; break *)
| Failed (e : JsError).       (* an awaited call rejected *)

(** The [for (let i = startIndex; i < currentTotalChunks; i++)] loop;
    [remaining] is [currentTotalChunks - i], and [mediaQueueRef] is
    what the ref held at the previous poll. If React has rendered
    since, the effect of line 47 has put [live] into the ref, the
    queue with what other handlers did meanwhile. *)
Fixpoint chunkLoop (env : Env) (itemId baseVersionId : string)
  (audioDuration : Q) (total remaining i : nat) (fullTranscript : string)
  (mediaQueueRef : Queue) (w : Run) : LoopExit * string * Run :=
  match remaining with
  | O => (Exhausted, fullTranscript, w)
  | S remaining' =>
      let live := interleave env i (queue w) in
      let current :=                           (* mediaQueueRef.current *)
        if rendered env i then live else mediaQueueRef in
      let currentItemState := findItem itemId current in
      if manuallyPaused currentItemState
      then (ManualPause, fullTranscript, mkRun live (effects w))
      else
        let q1 := updateItem itemId (i_progress (percent i total)) live in
        let startTime := chunkStart i in
        let sent : list Effect :=
          effects w ++
            [Transcribe i startTime
               (Gemini.sliceAudioBuffer audioDuration startTime CHUNK_DURATION)] in
        match transcribe env i with
        | Throw e => (Failed e, fullTranscript, mkRun q1 sent)
        | Return chunkText =>
            let fullTranscript' := (fullTranscript ++ (chunkText ++ " "))%string in
            let q2 :=
              updateItem itemId
                (fun it => i_progress (percent (S i) total)
                             (i_processedChunks (S i) it)) q1 in
            let q3 :=
              mapItem itemId
                (fun qItem =>
                   i_versions
                     (patchVersion baseVersionId
                        (fun v => v_name NAME_COMPLETING
                                    (v_content fullTranscript' v))
                        (versions qItem))
                     qItem) q2 in
            chunkLoop env itemId baseVersionId audioDuration total
              remaining' (S i) fullTranscript' current (mkRun q3 sent)
        end
  end.

(** Outcome of the "Handle Versioning" block. *)
Inductive Versioning : Type :=
| Restart
| Proceed (baseVersionId fullTranscript : string)
          (initialVersions : list Version) (q : Queue).

Definition newRaw (env : Env) (label : string) : Version :=
  mkVersion (uuidv4 env) RAW label "" None (now env) None.

Definition resolveVersion (env : Env) (item : MediaItem) (isResuming : bool)
  (q : Queue) : Versioning * list Effect :=
  let startIndex := processedChunks item in
  if isResuming && (0 <? length (versions item)) then
    match findRaw (versions item) with
    | Some existingRaw =>
        (Proceed (vid existingRaw) (content existingRaw) (versions item) q, [])
    | None =>
        let newVer := newRaw env NAME_CONTINUING in
        (Proceed (uuidv4 env) "" (versions item ++ [newVer])
           (addVersionToItem (id item) newVer true q), [])
    end
  else
    let asked : list Effect :=
      if 0 <? processedChunks item then [Confirm] else [] in
    if (0 <? processedChunks item) && negb (confirm env) then (Restart, asked)
    else if startIndex =? 0 then
      let newVer := newRaw env NAME_GENERATING in
      (Proceed (uuidv4 env) "" (versions item ++ [newVer])
         (addVersionToItem (id item) newVer true q), asked)
    else
      let existingRaw := findRaw (versions item) in
      (Proceed (optStrOr (option_map vid existingRaw) (uuidv4 env))
         (optStrOr (option_map content existingRaw) "")
         (versions item) q, asked).

(** The item handed to [handleSaveToCloud] on completion. *)
Definition finalItemToSave (env : Env) (item : MediaItem)
  (baseVersionId fullTranscript : string) (initialVersions : list Version)
  (currentDuration : Q) (currentTotalChunks : nat) : MediaItem :=
  let patched :=
    patchVersion baseVersionId
      (fun v => v_name NAME_COMPLETE (v_content fullTranscript v))
      initialVersions in
  let finalVersions : list Version :=
    match findVersion baseVersionId patched with
    | Some _ => patched
    | None =>
        patched ++ [mkVersion baseVersionId RAW NAME_COMPLETE fullTranscript
                      None (now env) None]
    end in
  mkItem (id item) (file item) currentDuration completed 100
    (Some baseVersionId) finalVersions (lastError item)
    currentTotalChunks currentTotalChunks.

(** First part of [try] (lines 233-250): decode, and settle the duration
    and the number of chunks. On success the result is
    [(currentDuration, audioBuffer.duration, currentTotalChunks)]. *)
Definition decodeStep (env : Env) (item : MediaItem) (f : File)
  (startIndex : nat) (w : Run) : Exc (Q * Q * nat) * Run :=
  let redecode := (startIndex =? 0) || Qeq_bool (duration item) 0 in
  let first :=
    if redecode then
      match decodeAudioFile env f with
      | Throw e => Throw e
      | Return d =>
          Return (d, chunkCount d,
                  updateItem (id item)
                    (fun it => i_totalChunks (chunkCount d) (i_duration d it))
                    (queue w))
      end
    else Return (duration item, totalChunks item, queue w) in
  let decoded : list Effect :=
    effects w ++ (if redecode then [Decode] else []) in
  match first with
  | Throw e => (Throw e, mkRun (queue w) decoded)
  | Return (currentDuration, total0, q1) =>
      match decodeAudioFile env f with
      | Throw e => (Throw e, mkRun q1 (decoded ++ [Decode]))
      | Return audioDuration =>
          let currentTotalChunks :=
            if total0 =? 0 then chunkCount audioDuration else total0 in
          (Return (currentDuration, audioDuration, currentTotalChunks),
           mkRun q1 (decoded ++ [Decode]))
      end
  end.

(** Last part of [try] (lines 301-342): what follows the loop. [Some e]
    is the exception that reaches [catch]. *)
Definition afterLoop (env : Env) (item : MediaItem) (baseVersionId : string)
  (initialVersions : list Version) (currentDuration : Q)
  (currentTotalChunks : nat) (out : LoopExit * string * Run)
  : option JsError * Run :=
  match out with
  | (Failed e, _, w') => (Some e, w')
  | (ManualPause, _, w') => (None, w')
  | (Exhausted, fullTranscript', w') =>
      let q2 :=
        updateItem (id item)
          (fun it => i_progress 100 (i_status completed it)) (queue w') in
      let q3 :=
        mapItem (id item)
          (fun qItem =>
             i_versions
               (patchVersion baseVersionId (v_name NAME_COMPLETE)
                  (versions qItem)) qItem) q2 in
      (None,
       mkRun q3
         (effects w' ++
            [SaveToCloud (finalItemToSave env item baseVersionId fullTranscript'
                     initialVersions currentDuration currentTotalChunks)]))
  end.

(** The body of [try]. The loop is entered with the queue in the ref. *)
Definition tryBlock (env : Env) (item : MediaItem) (f : File)
  (startIndex : nat) (baseVersionId fullTranscript : string)
  (initialVersions : list Version) (w : Run) : option JsError * Run :=
  match decodeStep env item f startIndex w with
  | (Throw e, w1) => (Some e, w1)
  | (Return (currentDuration, audioDuration, currentTotalChunks), w1) =>
      afterLoop env item baseVersionId initialVersions currentDuration
        currentTotalChunks
        (chunkLoop env (id item) baseVersionId audioDuration
           currentTotalChunks (currentTotalChunks - startIndex)
           startIndex fullTranscript (queue w1) w1)
  end.

(** The [catch] block. *)
Definition catchBlock (item : MediaItem) (err : JsError) (w : Run) : Run :=
  let errorMessage := strOr (message err) DEFAULT_ERROR in
  mkRun
    (updateItem (id item)
       (fun it => i_progress (progress item)
                    (i_error (Some errorMessage) (i_status paused it)))
       (queue w))
    (effects w).

(** The [try ... catch] statement (lines 231-358). *)
Definition tryCatch (env : Env) (item : MediaItem) (f : File)
  (startIndex : nat) (baseVersionId fullTranscript : string)
  (initialVersions : list Version) (w : Run) : Run :=
  match tryBlock env item f startIndex baseVersionId fullTranscript
          initialVersions w
  with
  | (Some err, w') => catchBlock item err w'
  | (None, w') => w'
  end.

(** One unfolding of [startTranscription]; [self] is the function called
    at the recursive call site. *)
Definition startTranscription_step (self : MediaItem -> bool -> Run -> Run)
  (env : Env) (item : MediaItem) (isResuming : bool) (w : Run) : Run :=
  if String.eqb (apiKey env) "" then mkRun (queue w) (effects w ++ [ShowKeyModal])
  else
    match file item with
    | None => mkRun (queue w) (effects w ++ [Alert])
    | Some f =>
        let startIndex := processedChunks item in
        let q0 :=
          updateItem (id item)
            (fun it => i_error None (i_status processing it)) (queue w) in
        match resolveVersion env item isResuming q0 with
        | (Restart, asked) =>
            self (i_processedChunks 0 item) false
              (mkRun
                 (updateItem (id item)
                    (fun it => i_totalChunks 0 (i_processedChunks 0 it)) q0)
                 (effects w ++ asked))
        | (Proceed baseVersionId fullTranscript initialVersions q1, asked) =>
            tryCatch env item f startIndex baseVersionId fullTranscript
              initialVersions (mkRun q1 (effects w ++ asked))
        end
    end.

(** The recursive call is made with [processedChunks = 0] and
    [isResuming = false], where the body does not call itself again; two
    unfoldings therefore give the whole function (see
    [startTranscription_unfold]). *)
Definition startTranscription_restarted (env : Env)
  : MediaItem -> bool -> Run -> Run :=
  startTranscription_step (fun _ _ w => w) env.

Definition startTranscription (env : Env)
  : MediaItem -> bool -> Run -> Run :=
  startTranscription_step (startTranscription_restarted env) env.

(** ** Call sites of startTranscription *)

(** The [online] listener. It runs in a task of its own and reads
    [mediaQueueRef.current], which is taken to hold the queue: React
    has rendered what came before the event. *)
Definition handleOnline (env : Env) (w : Run) : Run :=
  match find (fun i => status_eqb (status i) paused) (queue w) with
  | Some pausedItem =>
      if String.eqb (apiKey env) "" then w
      else startTranscription env pausedItem true w
  | None => w
  end.

Definition currentVersion (item : MediaItem) : option Version :=
  match currentVersionId item with
  | Some c => findVersion c (versions item)
  | None => None
  end.

(** The three buttons: [Some (item, isResuming)] is the call the button
    makes when clicked, [None] means the button is not rendered. *)
Definition rowPlayButton (item : MediaItem) : option (MediaItem * bool) :=
  if (status_eqb (status item) idle || status_eqb (status item) paused)
     && (match file item with Some _ => true | None => false end)
  then Some (item, status_eqb (status item) paused)
  else None.

Definition startOverlayButton (active : option MediaItem)
  : option (MediaItem * bool) :=
  match active with
  | Some item =>
      if status_eqb (status item) idle
         && negb (truthy (option_map content (currentVersion item)))
         && (match file item with Some _ => true | None => false end)
      then Some (item, false)
      else None
  | None => None
  end.

Definition retryOverlayButton (active : option MediaItem)
  : option (MediaItem * bool) :=
  match active with
  | Some item =>
      if status_eqb (status item) paused then Some (item, true) else None
  | None => None
  end.

(** ** runStage *)

Definition stageName (s : ProcessingStage) : string :=
  match s with
  | ARABIC => "اعراب‌گذاری شده"
  | TITLES => "عنوان‌بندی شده"
  | FORMAL => "رسمی شده"
  | CUSTOM => "ویرایش سفارشی"
  | RAW => ""
  end.

(** [mediaQueue.find(i => i.id === activeItemId) || null] *)
Definition activeItem (activeItemId : option string) (q : Queue)
  : option MediaItem :=
  match activeItemId with
  | Some a => findItem a q
  | None => None
  end.

Definition newStageVersion (env : Env) (s : ProcessingStage)
  (parentVersionId : string) (customPrompt : option string) : Version :=
  mkVersion (uuidv4 env) s (stageName s ++ " (در حال پردازش...)")%string PLEASE_WAIT
    (Some parentVersionId) (now env) customPrompt.

(** The synchronous prefix, up to the [await]. *)
Definition stageStart (env : Env) (active : MediaItem) (s : ProcessingStage)
  (parentVersionId : string) (customPrompt : option string) (q : Queue)
  : Queue :=
  let newVersion := newStageVersion env s parentVersionId customPrompt in
  let q1 := addVersionToItem (id active) newVersion true q in
  updateItem (id active) (fun it => i_progress 0 (i_status processing it)) q1.

(** One firing of [progressInterval]. *)
Definition progressTick (itemId : string) (prev : Queue) : Queue :=
  match findItem itemId prev with
  | Some item =>
      if status_eqb (status item) processing
      then mapItem itemId (i_progress (Z.min (progress item + 5) 95)) prev
      else prev
  | None => prev
  end.

(** What happens once the remote call settles. *)
Definition stageSettle (env : Env) (active : MediaItem) (s : ProcessingStage)
  (parentVersionId : string) (customPrompt : option string)
  (outcome : Exc string) (w : Run) : Run :=
  let newVersion := newStageVersion env s parentVersionId customPrompt in
  let newVersionId := vid newVersion in
  match outcome with
  | Return result =>
      let q1 :=
        mapItem (id active)
          (fun qItem =>
             i_versions
               (patchVersion newVersionId
                  (fun v => v_name (stageName s) (v_content result v))
                  (versions qItem))
               (i_progress 100 (i_status completed qItem)))
          (queue w) in
      let finalVersions : list Version :=
        versions active ++ [v_name (stageName s) (v_content result newVersion)] in
      mkRun q1
        (effects w ++
           [SaveToCloud (i_versions finalVersions
                    (i_progress 100 (i_status completed active)))])
  | Throw _ =>
      let q1 :=
        updateItem (id active) (fun it => i_progress 0 (i_status error it))
          (queue w) in
      let q2 :=
        mapItem (id active)
          (fun qItem =>
             i_versions
               (patchVersion newVersionId
                  (fun v => v_name (stageName s ++ " (ناموفق)")%string
                              (v_content STAGE_FAILED v))
                  (versions qItem))
               qItem) q1 in
      mkRun q2 (effects w)
  end.

Definition runStage (env : Env) (activeItemId : option string)
  (s : ProcessingStage) (parentVersionId : string)
  (customPrompt : option string) (w : Run) : Run :=
  match activeItem activeItemId (queue w) with
  | None => w
  | Some active =>
      if String.eqb (apiKey env) "" then w
      else
        match findVersion parentVersionId (versions active) with
        | None => w
        | Some parentVersion =>
            let q1 := stageStart env active s parentVersionId customPrompt
                        (queue w) in
            let q2 := Nat.iter (ticks env) (progressTick (id active)) q1 in
            stageSettle env active s parentVersionId customPrompt
              (processText env (content parentVersion) s customPrompt)
              (mkRun q2
                 (effects w ++ [ProcessText s (content parentVersion)]))
        end
  end.

(** ** The queue and the selection *)

(** [handleFileUpload]: one idle item per file, appended in order;
    [uuid k] is the identifier drawn for the [k]-th file. The selection
    moves to the first new item when nothing was selected. *)
Definition newItems (uuid : nat -> string) (files : list File)
  : list MediaItem :=
  map (fun kf => uploaded (uuid (fst kf)) (snd kf))
      (combine (seq 0 (length files)) files).

Definition handleFileUpload (uuid : nat -> string) (files : list File)
  (q : Queue) (activeItemId : option string) : Queue * option string :=
  let items := newItems uuid files in
  (q ++ items,
   if truthy activeItemId then activeItemId
   else
     match items with
     | first :: _ => Some (id first)
     | [] => activeItemId
     end).

(** [handleLoadProject]: an item whose identifier is already in the
    queue is not added again. *)
Definition handleLoadProject (item : MediaItem) (q : Queue)
  : Queue * option string :=
  (match findItem (id item) q with
   | Some _ => q
   | None => q ++ [item]
   end,
   Some (id item)).

(** [onLoadProject] as the library calls it. *)
Definition openFromLibrary (project : Supabase.SavedProject) (q : Queue)
  : Queue * option string :=
  handleLoadProject (fst (FileManager.handleLoad project)) q.

(** [queue.findIndex(p)]; [None] is [-1]. *)
Fixpoint findIndex (p : MediaItem -> bool) (q : Queue) : option nat :=
  match q with
  | [] => None
  | x :: r => if p x then Some 0 else option_map S (findIndex p r)
  end.

(** [handlePlaybackEnded]: the next value of [activeItemId]. *)
Definition handlePlaybackEnded (q : Queue) (activeItemId : option string)
  : option string :=
  match activeItemId with
  | None => activeItemId
  | Some a =>
      match findIndex (fun i => String.eqb (id i) a) q with
      | Some currentIndex =>
          if currentIndex <? length q - 1 then
            match nth_error q (currentIndex + 1) with
            | Some next => Some (id next)
            | None => activeItemId
            end
          else activeItemId
      | None => activeItemId
      end
  end.

(** ** Text management *)

Definition handleContentUpdate (activeItemId : option string)
  (newContent : string) (q : Queue) : Queue :=
  match activeItem activeItemId q with
  | Some active =>
      if truthy (currentVersionId active) then
        mapItem (id active)
          (fun qItem =>
             i_versions
               (patchVersion (optStrOr (currentVersionId active) "")
                  (v_content newContent) (versions qItem))
               qItem) q
      else q
  | None => q
  end.

(** The editor as the component renders it: only for an active item,
    read-only while that item is processing, its changes handed to
    [handleContentUpdate]. *)
Definition editorEvent (activeItemId : option string)
  (e : RichTextEditor.Event) (q : Queue) : Queue :=
  match activeItem activeItemId q with
  | Some active =>
      match RichTextEditor.handle (status_eqb (status active) processing) e
      with
      | Some html => handleContentUpdate activeItemId html q
      | None => q
      end
  | None => q
  end.

(** [onViewVersion] as the component passes it to the stage panel. *)
Definition viewVersion (active : MediaItem) (v : Version) (q : Queue)
  : Queue :=
  updateItem (id active) (i_currentVersionId (Some (vid v))) q.

(** The player as the component renders it; [x] holds the fields of the
    active item that are read through [as any]. *)
Definition playerView (active : option (MediaItem * Supabase.Extras))
  (objectUrl : option string) : MediaPlayer.View :=
  match active with
  | Some (item, x) =>
      MediaPlayer.render (file item) (Supabase.x_fileName x) objectUrl
  | None => MediaPlayer.render None None objectUrl
  end.

(** ** exportToWord: the name of the exported file *)

Definition stagePrefix (s : ProcessingStage) : string :=
  match s with
  | RAW => "متن خام"
  | ARABIC => "اعراب شده ی"
  | TITLES => "عنوان بندی شده ی"
  | FORMAL => "رسمی شده ی"
  | CUSTOM => "ویرایش شده ی"
  end.

(** [[^/.]+$] tried at the head of [s]: one character or more, none of
    them a slash or a dot, up to the end. *)
Fixpoint plainTail (s : string) : bool :=
  match s with
  | EmptyString => true
  | String c r =>
      negb (Ascii.eqb c "/") && negb (Ascii.eqb c ".") && plainTail r
  end.

Definition extensionAt (s : string) : bool :=
  match s with
  | EmptyString => false
  | String c r => Ascii.eqb c "." && negb (String.eqb r "") && plainTail r
  end.

(** [name.replace(/\.[^/.]+$/, "")]: the match is removed at the
    leftmost position where it succeeds. *)
Fixpoint stripExtension (s : string) : string :=
  if extensionAt s then EmptyString
  else
    match s with
    | EmptyString => EmptyString
    | String c r => String c (stripExtension r)
    end.

(** [timeStr.replace(/:/g, '-')] *)
Fixpoint dashes (s : string) : string :=
  match s with
  | EmptyString => EmptyString
  | String c r =>
      String (if Ascii.eqb c ":" then "-"%char else c) (dashes r)
  end.

(** [localTime] is [new Date().toLocaleTimeString('fa-IR')]. *)
Definition exportFileName (version : Version) (active : MediaItem)
  (x : Supabase.Extras) (localTime : string) : string :=
  let itemName :=
    optStrOr (Supabase.x_fileName x)
      (optStrOr (option_map fileName (file active)) "فایل") in
  (strOr (stagePrefix (stage version)) "خروجی" ++ " "
   ++ stripExtension itemName
   ++ " ساعت " ++ dashes localTime ++ ".doc")%string.

(** ** Vocabulary of the statements *)

(** The item after the checkpoint of chunk [j - 1] (lines 286-298):
    [processedChunks = j], the progress that goes with it, and the base
    version patched with the transcript so far. *)
Definition checkpoint (baseVersionId : string) (total j : nat)
  (fullTranscript : string) (it : MediaItem) : MediaItem :=
  i_versions
    (patchVersion baseVersionId
       (fun v => v_name NAME_COMPLETING (v_content fullTranscript v))
       (versions it))
    (i_progress (percent j total) (i_processedChunks j it)).

(** The event of sending chunk [j] of a buffer of [d] seconds. *)
Definition sendChunk (d : Q) (j : nat) : Effect :=
  Transcribe j (chunkStart j)
    (Gemini.sliceAudioBuffer d (chunkStart j) CHUNK_DURATION).

(** Chunk indices sent to the remote service, in order. *)
Fixpoint sentChunks (effs : list Effect) : list nat :=
  match effs with
  | [] => []
  | Transcribe i _ _ :: rest => i :: sentChunks rest
  | _ :: rest => sentChunks rest
  end.

(** The time windows handed to [sliceAudioBuffer], in order. *)
Fixpoint slicedWindows (effs : list Effect) : list (nat * Q * option Q) :=
  match effs with
  | [] => []
  | Transcribe i t len :: rest => (i, t, len) :: slicedWindows rest
  | _ :: rest => slicedWindows rest
  end.

(** Items handed to [handleSaveToCloud], in order. *)
Fixpoint saves (effs : list Effect) : list MediaItem :=
  match effs with
  | [] => []
  | SaveToCloud it :: rest => it :: saves rest
  | _ :: rest => saves rest
  end.

(** How often [confirm] was shown. *)
Fixpoint confirms (effs : list Effect) : nat :=
  match effs with
  | [] => 0
  | Confirm :: rest => S (confirms rest)
  | _ :: rest => confirms rest
  end.

(** Content of the RAW version the code looks up with [find]. *)
Definition rawContent (item : MediaItem) : option string :=
  option_map content (findRaw (versions item)).

(** The windows one pass over a source of [d] seconds slices: the loop
    bounds of [startTranscription] with the arguments it gives
    [sliceAudioBuffer]. *)
Definition windows (d : Q) : list (nat * Q * option Q) :=
  map (fun i => (i, chunkStart i,
                 Gemini.sliceAudioBuffer d (chunkStart i) CHUNK_DURATION))
      (seq 0 (chunkCount d)).

(** Seconds of audio in a window (the empty blob holds none). *)
Definition windowLength (w : nat * Q * option Q) : Q :=
  match snd w with
  | Some len => len
  | None => 0%Q
  end.

Definition totalLength (ws : list (nat * Q * option Q)) : Q :=
  fold_right Qplus 0%Q (map windowLength ws).

(** The transcript of chunks [i .. i+m-1] as the specification words it:
    every chunk text followed by one space, concatenated in order. *)
Definition transcriptOf (r : nat -> string) (i m : nat) : string :=
  String.concat "" (map (fun j => (r j ++ " ")%string) (seq i m)).

(** [currentTotalChunks] at loop entry when decoding succeeds with a
    buffer of [d] seconds (lines 233-250). *)
Definition resolveTotal (item : MediaItem) (startIndex : nat) (d : Q) : nat :=
  let total0 :=
    if (startIndex =? 0) || Qeq_bool (duration item) 0
    then chunkCount d else totalChunks item in
  if total0 =? 0 then chunkCount d else total0.

(** The branch that asks the caller (line 204 is reached). *)
Definition asks (item : MediaItem) (isResuming : bool) : bool :=
  negb (isResuming && (0 <? length (versions item)))
  && (0 <? processedChunks item).

(** The branch that resets and recurses (lines 206-207). *)
Definition restarts (env : Env) (item : MediaItem) (isResuming : bool) : bool :=
  asks item isResuming && negb (confirm env).

(** The starting index as the specification words it. *)
Definition spec_startIndex (resume : bool) (item : MediaItem) : nat :=
  if resume then processedChunks item else 0.

(** The ways into the loop in which the version the run patches is the
    RAW version [find] returns; [seed] is the transcript the accumulator
    starts from.
    - [entry_resume]: a resume that finds a RAW version (lines 184-187);
    - [entry_resume_anew]: a resume of an item that has versions but no
      RAW one (lines 189-200);
    - [entry_first]: a start at checkpoint 0 that creates the RAW version
      (lines 211-222);
    - [entry_continue]: a start at a later checkpoint that is not taken
      as a resume, the user choosing to continue (lines 224-227). *)
Inductive Entry (env : Env) (item : MediaItem) : bool -> string -> Prop :=
| entry_resume raw :
    findRaw (versions item) = Some raw ->
    Entry env item true (content raw)
| entry_resume_anew :
    versions item <> [] ->
    findRaw (versions item) = None ->
    Entry env item true ""
| entry_first isResuming :
    isResuming = false \/ versions item = [] ->
    processedChunks item = 0 ->
    findRaw (versions item) = None ->
    Entry env item isResuming ""
| entry_continue raw :
    0 < processedChunks item ->
    confirm env = true ->
    findRaw (versions item) = Some raw ->
    vid raw <> "" ->
    Entry env item false (content raw).

(** The store at the top of the [try] statement of a run on [itemId]:
    the item is marked as processing with no error, its checkpoint is
    [k], and its RAW version is the version [base] the run patches, with
    content [seed]. *)
Inductive Entered (itemId : string) (k : nat) (base seed : string)
  (q : Queue) : Prop :=
| entered (cur : MediaItem) (raw : Version) :
    findItem itemId q = Some cur ->
    status cur = processing ->
    lastError cur = None ->
    processedChunks cur = k ->
    findRaw (versions cur) = Some raw ->
    vid raw = base ->
    content raw = seed ->
    Entered itemId k base seed q.

(** Every item with identifier [a] has status [s]. *)
Definition allStatus (a : string) (s : Status) (q : Queue) : Prop :=
  Forall (fun x => id x = a -> status x = s) q.

(** The queue and the item at the recursive call site (lines 206-207). *)
Definition restartQueue (item : MediaItem) (q : Queue) : Queue :=
  updateItem (id item) (fun it => i_totalChunks 0 (i_processedChunks 0 it))
    (updateItem (id item) (fun it => i_error None (i_status processing it)) q).

Definition restartItem (item : MediaItem) : MediaItem :=
  i_processedChunks 0 item.

(** What settling a stage run does to the new version, and the status it
    leaves (lines 412-447). *)
Definition settled (s : ProcessingStage) (outcome : Exc string)
  : (Version -> Version) * Status :=
  match outcome with
  | Return result =>
      (fun v => v_name (stageName s) (v_content result v), completed)
  | Throw _ =>
      (fun v => v_name (stageName s ++ " (ناموفق)")%string
                  (v_content STAGE_FAILED v), error)
  end.

(** What a stage run whose new version starts as [placeholder] may do to
    one item: keep its versions, or append the placeholder with its
    content and name replaced. Either way the versions that were there
    stay where they were, unchanged. *)
Definition stageFrame (placeholder : Version) (old new : MediaItem) : Prop :=
  id new = id old
  /\ (versions new = versions old
      \/ exists c n,
          versions new
          = versions old ++ [v_name n (v_content c placeholder)])
  /\ (forall n v,
        nth_error (versions old) n = Some v ->
        nth_error (versions new) n = Some v)
  /\ (forall raw,
        findRaw (versions old) = Some raw ->
        findRaw (versions new) = Some raw).

(** Every parent named by a version of the item is a version of the
    item. *)
Definition lineageOk (item : MediaItem) : Prop :=
  forall v p,
    In v (versions item) -> parentId v = Some p ->
    exists u, In u (versions item) /\ vid u = p.

(** Outside the items identified by [a] the queue [q'] is the queue
    [q]: the same identifiers at the same places, and every item with
    another identifier unchanged at its place. *)
Definition sameElsewhere (a : string) (q q' : Queue) : Prop :=
  map id q' = map id q
  /\ forall k x, nth_error q k = Some x -> id x <> a ->
                 nth_error q' k = Some x.


End App.

(** * Sample data

    A 500 second recording (three chunks) whose chunks transcribe to "a",
    "b" and "c". *)

Module Sample.

Import App.
Local Open Scope list_scope.
Local Open Scope nat_scope.

Definition audio : File := mkFile "lecture.mp3".

Definition answers (j : nat) : string :=
  match j with
  | 0 => "a"
  | 1 => "b"
  | _ => "c"
  end.

Definition undisturbed (j : nat) (q : Queue) : Queue := q.

Definition service (answer : bool) (remote : nat -> Exc string)
  (others : nat -> Queue -> Queue) (stageOutcome : Exc string) : Env :=
  mkEnv "key" "v2" 7 answer (fun _ => Return 500%Q) remote others
    (fun _ => true) (fun _ _ _ => stageOutcome) 2.

(** Every call succeeds. *)
Definition healthy : Env :=
  service true (fun j => Return (answers j)) undisturbed (Return "formal text").

(** The call for chunk 1 is rejected. *)
Definition failingAt1 : Env :=
  service true
    (fun j => if j =? 1 then Throw (mkError "network down")
              else Return (answers j))
    undisturbed (Return "formal text").



(** The text stage is rejected. *)
Definition stageDown : Env :=
  service true (fun j => Return (answers j)) undisturbed
    (Throw (mkError "overloaded")).

(** The item after chunk 0 was committed and chunk 1 failed. *)
Definition checkpointed : MediaItem :=
  mkItem "m1" (Some audio) 500%Q paused 33 (Some "v1")
    [mkVersion "v1" RAW NAME_COMPLETING "a " None 7 None]
    (Some "network down") 1 3.

(** The same item while a run is working on it. *)
Definition running : MediaItem :=
  i_error None (i_status processing checkpointed).

(** The item once transcription is complete. *)
Definition transcribed : MediaItem :=
  mkItem "m1" (Some audio) 500%Q completed 100 (Some "v1")
    [mkVersion "v1" RAW NAME_COMPLETE "a b c " None 7 None]
    None 3 3.

End Sample.

(** * Theorems *)

Open Scope list_scope.
Open Scope nat_scope.

(** * Chunk windows *)

Section ChunkWindows.

Import App.
Local Open Scope Q_scope.

Variable d : Q.
Hypothesis d_positive : 0 < d.

Local Abbreviation n := (chunkCount d).

Lemma chunkCount_ceiling : Z.of_nat n = Math_ceil (d / CHUNK_DURATION).
Proof.
  unfold chunkCount. apply Z2Nat.id. unfold Math_ceil.
  assert (H : 0 <= d / CHUNK_DURATION).
  { unfold CHUNK_DURATION. apply Qle_shift_div_l; lra. }
  apply Qceiling_resp_le in H. exact H.
Qed.

Lemma chunkCount_bounds :
  chunkStart n - CHUNK_DURATION < d /\ d <= chunkStart n.
Proof.
  unfold chunkStart. rewrite chunkCount_ceiling. unfold Math_ceil, CHUNK_DURATION.
  pose proof (Qceiling_lt (d / 240)) as Hlt.
  pose proof (Qle_ceiling (d / 240)) as Hle.
  unfold Z.sub in Hlt. rewrite inject_Z_plus in Hlt.
  change (inject_Z (- (1))) with (- (1)) in Hlt.
  assert (Hd : d == d / 240 * 240) by field.
  split; lra.
Qed.

Lemma chunkCount_positive : (0 < n)%nat.
Proof.
  destruct chunkCount_bounds as [_ Hle].
  destruct n as [|k]; [| lia].
  unfold chunkStart in Hle. change (inject_Z (Z.of_nat 0)) with 0 in Hle.
  unfold CHUNK_DURATION in Hle. lra.
Qed.

Lemma chunkStart_succ (i : nat) :
  chunkStart (S i) == chunkStart i + CHUNK_DURATION.
Proof.
  unfold chunkStart. rewrite Nat2Z.inj_succ. unfold Z.succ.
  rewrite inject_Z_plus. change (inject_Z 1) with 1. ring.
Qed.

Lemma chunkStart_le (i j : nat) : (i <= j)%nat -> chunkStart i <= chunkStart j.
Proof.
  intros H. unfold chunkStart, CHUNK_DURATION.
  apply Qmult_le_compat_r; [| lra].
  rewrite <- Zle_Qle. lia.
Qed.

(** A window that is not the last one is full. *)
Lemma inner_window (i : nat) :
  (S i < n)%nat ->
  exists len,
    Gemini.sliceAudioBuffer d (chunkStart i) CHUNK_DURATION = Some len
    /\ len == CHUNK_DURATION.
Proof.
  intros Hi.
  destruct chunkCount_bounds as [Hlt _].
  assert (Hs : chunkStart (S i) + CHUNK_DURATION <= chunkStart n).
  { rewrite <- chunkStart_succ. apply chunkStart_le. lia. }
  rewrite chunkStart_succ in Hs.
  unfold Gemini.sliceAudioBuffer.
  destruct (Qle_bool d (chunkStart i)) eqn:Hb.
  - apply Qle_bool_iff in Hb. unfold CHUNK_DURATION in *. lra.
  - eexists. split; [reflexivity|].
    unfold Gemini.actualDuration. apply Q.min_l.
    unfold CHUNK_DURATION in *. lra.
Qed.

(** The last window holds what is left. *)
Lemma last_window :
  exists len,
    Gemini.sliceAudioBuffer d (chunkStart (n - 1)) CHUNK_DURATION = Some len
    /\ len == d - chunkStart (n - 1)
    /\ 0 < len /\ len <= CHUNK_DURATION.
Proof.
  destruct chunkCount_bounds as [Hlt Hle].
  pose proof chunkCount_positive as Hpos.
  assert (Hs : chunkStart n == chunkStart (n - 1) + CHUNK_DURATION).
  { rewrite <- chunkStart_succ. replace (S (n - 1)) with n by lia. reflexivity. }
  unfold Gemini.sliceAudioBuffer.
  destruct (Qle_bool d (chunkStart (n - 1))) eqn:Hb.
  - apply Qle_bool_iff in Hb. unfold CHUNK_DURATION in *. lra.
  - assert (Hnb : ~ d <= chunkStart (n - 1)).
    { intros H. apply Qle_bool_iff in H. congruence. }
    eexists. split; [reflexivity|].
    unfold Gemini.actualDuration.
    assert (Hmin : Qmin CHUNK_DURATION (d - chunkStart (n - 1))
                   == d - chunkStart (n - 1)).
    { apply Q.min_r. unfold CHUNK_DURATION in *. lra. }
    rewrite Hmin. unfold CHUNK_DURATION in *. repeat split; lra.
Qed.

Lemma totalLength_app (a b : list (nat * Q * option Q)) :
  totalLength (a ++ b) == totalLength a + totalLength b.
Proof.
  unfold totalLength. induction a as [|x a IH]; cbn.
  - ring.
  - rewrite IH. ring.
Qed.

Lemma inner_windows_total (k : nat) :
  (k < n)%nat ->
  totalLength
    (map (fun i => (i, chunkStart i,
                    Gemini.sliceAudioBuffer d (chunkStart i) CHUNK_DURATION))
         (seq 0 k))
  == chunkStart k.
Proof.
  induction k as [|k IH]; intros Hk.
  - unfold totalLength, chunkStart. cbn. ring.
  - rewrite seq_S, map_app, totalLength_app, IH by lia. cbn [map Nat.add].
    destruct (inner_window k Hk) as (len & -> & Hlen).
    unfold totalLength. cbn. rewrite Hlen, chunkStart_succ. ring.
Qed.

(** The loop bounds and the arguments of [sliceAudioBuffer] cut a
    source of [d > 0] seconds into [ceil(d / 240)] windows; window [i]
    starts at [i * 240] and is [min(240, d - i * 240)] seconds long. *)
Lemma windows_geometry :
  Z.of_nat (length (windows d)) = Math_ceil (d / CHUNK_DURATION)
  /\ (forall i, (i < length (windows d))%nat ->
        exists len,
          nth_error (windows d) i
          = Some (i, inject_Z (Z.of_nat i) * CHUNK_DURATION, Some len)
          /\ len == Qmin CHUNK_DURATION
                      (d - inject_Z (Z.of_nat i) * CHUNK_DURATION)
          /\ ((S i < length (windows d))%nat -> len == CHUNK_DURATION)
          /\ (S i = length (windows d) ->
              len == d - inject_Z (Z.of_nat i) * CHUNK_DURATION))
  /\ totalLength (windows d) == d.
Proof.
  assert (Hlen : length (windows d) = n).
  { unfold windows. now rewrite length_map, length_seq. }
  rewrite Hlen. split; [apply chunkCount_ceiling|]. split.
  - intros i Hi. unfold windows.
    rewrite nth_error_map, nth_error_seq.
    assert (Hltb : (i <? n)%nat = true) by (apply Nat.ltb_lt; exact Hi).
    rewrite Hltb. cbn [option_map Nat.add].
    fold (chunkStart i).
    destruct (Nat.eq_dec (S i) n) as [Heq | Hne].
    + destruct last_window as (len & Hs & Hl & _ & _).
      replace (n - 1)%nat with i in * by lia.
      exists len. rewrite Hs. split; [reflexivity|].
      split; [| split; [lia | intros _; exact Hl]].
      unfold Gemini.sliceAudioBuffer in Hs.
      destruct (Qle_bool d (chunkStart i)); [discriminate|].
      injection Hs as <-. reflexivity.
    + assert (Hin : (S i < n)%nat) by lia.
      destruct (inner_window i Hin) as (len & Hs & Hl).
      exists len. rewrite Hs. split; [reflexivity|].
      split; [| split; [intros _; exact Hl | lia]].
      unfold Gemini.sliceAudioBuffer in Hs.
      destruct (Qle_bool d (chunkStart i)); [discriminate|].
      injection Hs as <-. reflexivity.
  - pose proof chunkCount_positive as Hpos.
    unfold windows. replace n with (S (n - 1)) at 1 by lia.
    rewrite seq_S, map_app, totalLength_app.
    rewrite inner_windows_total by lia. cbn [map Nat.add].
    destruct last_window as (len & -> & Hl & _).
    unfold totalLength. cbn. rewrite Hl. ring.
Qed.

End ChunkWindows.

(** * The retry and fallback policy of the remote calls *)

Section RetryPolicy.

Import Gemini.

(** ** Candidates *)

Lemma uniqueModels_order (selectedModel : string) :
  uniqueModels selectedModel
  = selectedModel
      :: filter (fun m => negb (String.eqb m selectedModel)) FALLBACKS.
Proof.
  unfold uniqueModels, MODELS_TO_TRY, FALLBACKS.
  cbn [spreadSet mem existsb filter].
  repeat match goal with
         | |- context [String.eqb ?a selectedModel] =>
             let E := fresh "E" in
             destruct (String.eqb a selectedModel) eqn:E;
             [apply String.eqb_eq in E; subst selectedModel; reflexivity |]
         end.
  reflexivity.
Qed.

Lemma spreadSet_sound (xs seen : list string) (x : string) :
  In x (spreadSet seen xs) -> In x xs /\ ~ In x seen.
Proof.
  revert seen. induction xs as [|y ys IH]; intros seen; cbn; [tauto|].
  destruct (mem y seen) eqn:Hm.
  - intros H. apply IH in H. tauto.
  - intros [<- | H].
    + split; [now left|]. intros Hin.
      unfold mem in Hm. apply Bool.not_true_iff_false in Hm. apply Hm.
      apply existsb_exists. exists y. split; [exact Hin | apply String.eqb_refl].
    + apply IH in H. cbn in H. tauto.
Qed.

Lemma spreadSet_NoDup (xs seen : list string) : NoDup (spreadSet seen xs).
Proof.
  revert seen. induction xs as [|y ys IH]; intros seen; cbn; [constructor|].
  destruct (mem y seen); [apply IH|].
  constructor; [| apply IH].
  intros H. apply spreadSet_sound in H. cbn in H. tauto.
Qed.

Lemma spreadSet_complete (xs seen : list string) (x : string) :
  In x xs -> ~ In x seen -> In x (spreadSet seen xs).
Proof.
  revert seen. induction xs as [|y ys IH]; intros seen; cbn; [tauto|].
  intros [-> | Hin] Hseen.
  - destruct (mem x seen) eqn:Hm; [| now left].
    unfold mem in Hm. apply existsb_exists in Hm as (z & Hz & Heq).
    apply String.eqb_eq in Heq. subst z. contradiction.
  - destruct (mem y seen) eqn:Hm; [now apply IH|].
    destruct (String.eqb_spec x y) as [-> | Hne]; [now left|].
    right. apply IH; [exact Hin|]. cbn. intros [Heq | H]; [congruence | contradiction].
Qed.

(** ** Every attempt fails *)

Variable generateContent : nat -> string -> Exc Response.
Variable cleanResponse : string -> string.

(** [failure n m] is the error thrown by call number [n], made with
    model [m]. *)
Variable failure : nat -> string -> JsError.
Hypothesis always_fails :
  forall n m, generateContent n m = Throw (failure n m).

Lemma attemptLoop_fails (model : string) (st : Retry) :
  attemptLoop generateContent cleanResponse model 3 1 st
  = (None,
     mkRetry (3 + calls st) (Some (failure (2 + calls st) model))
             (trace st ++ threeAttempts model)).
Proof.
  cbn [attemptLoop]. rewrite !always_fails. cbn [calls lastErr trace].
  rewrite <- !app_assoc. reflexivity.
Qed.

Lemma modelLoop_fails (models : list string) (st : Retry) :
  modelLoop generateContent cleanResponse models st
  = (None,
     mkRetry (3 * length models + calls st)
             (match models with
              | [] => lastErr st
              | _ => Some (failure (3 * length models + calls st - 1)
                             (last models ""))
              end)
             (trace st ++ flat_map threeAttempts models)).
Proof.
  revert st. induction models as [|m ms IH]; intros st.
  - cbn. rewrite app_nil_r. destruct st; reflexivity.
  - cbn [modelLoop]. rewrite attemptLoop_fails, IH.
    cbn [calls lastErr trace flat_map length].
    rewrite <- app_assoc.
    replace (3 * length ms + (3 + calls st)) with (3 * S (length ms) + calls st)
      by lia.
    destruct ms as [|m' ms']; reflexivity.
Qed.

Lemma textLoop_fails (all models : list string) (st : Retry) (pre : list string) :
  all = pre ++ models -> NoDup all -> models <> [] ->
  textLoop generateContent cleanResponse all models st
  = (Throw (failure (length models + calls st - 1) (last models "")),
     mkRetry (length models + calls st) (lastErr st)
             (trace st ++ map Call models)).
Proof.
  revert st pre. induction models as [|m ms IH]; intros st pre Hall Hnd Hne;
    [congruence|].
  cbn [textLoop]. rewrite always_fails.
  destruct ms as [|m' ms'].
  - assert (Hlast : isLastModel m all = true).
    { unfold isLastModel, lastModel. subst all.
      rewrite length_app. cbn [length].
      replace (length pre + 1 - 1) with (length pre) by lia.
      rewrite nth_error_app2 by lia. rewrite Nat.sub_diag. cbn.
      apply String.eqb_refl. }
    rewrite Hlast. cbn. rewrite Nat.sub_0_r. reflexivity.
  - assert (Hlast : isLastModel m all = false).
    { unfold isLastModel, lastModel.
      destruct (nth_error all (length all - 1)) as [z|] eqn:Hz; [| reflexivity].
      apply String.eqb_neq. intros <-.
      subst all. rewrite length_app in Hz. cbn [length] in Hz.
      rewrite nth_error_app2 in Hz by lia.
      replace (length pre + S (S (length ms')) - 1 - length pre)
        with (S (length ms')) in Hz by lia.
      cbn [nth_error] in Hz. apply nth_error_In in Hz.
      apply NoDup_remove_2 in Hnd. apply Hnd.
      apply in_or_app. right. exact Hz. }
    rewrite Hlast.
    rewrite (IH _ (pre ++ [m])); [| rewrite <- app_assoc; exact Hall
                                   | exact Hnd | discriminate].
    cbn [calls lastErr trace length map].
    rewrite <- app_assoc. f_equal; [| f_equal; lia].
    f_equal. f_equal. lia.
Qed.

(** C2, as the code has it. When every remote attempt fails:
    - the candidates are the selected model followed by the fallbacks
      that differ from it, in declared order and without duplicates;
    - [transcribeSegment] calls each candidate exactly three times,
      sleeping 1000, 2000 and 4000 ms after the first, second and third
      failure, and turns to the next candidate only after the third; it
      makes [3 * number of candidates] calls and throws the error of the
      last call;
    - [processTextStage] (for a stage that has a prompt) calls each
      candidate exactly once and never sleeps; it makes
      [number of candidates] calls and throws the error of the last call. *)
Theorem retry_ceiling (selectedModel : string) (s : ProcessingStage) :
  hasPrompt s = true ->
  let models := uniqueModels selectedModel in
  NoDup models
  /\ models
     = selectedModel
         :: filter (fun m => negb (String.eqb m selectedModel)) FALLBACKS
  /\ transcribeSegment generateContent cleanResponse selectedModel
     = (Throw (failure (3 * length models - 1) (last models "")),
        flat_map threeAttempts models)
  /\ length (callsOf (snd (transcribeSegment generateContent cleanResponse
                             selectedModel)))
     = 3 * length models
  /\ processTextStage generateContent cleanResponse s selectedModel
     = (Throw (failure (length models - 1) (last models "")),
        map Call models).
Proof.
  intros Hs models.
  assert (Hnd : NoDup models) by apply spreadSet_NoDup.
  assert (Hne : models <> []).
  { unfold models. rewrite uniqueModels_order. discriminate. }
  assert (Htr : transcribeSegment generateContent cleanResponse selectedModel
                = (Throw (failure (3 * length models - 1) (last models "")),
                   flat_map threeAttempts models)).
  { unfold transcribeSegment. fold models. rewrite modelLoop_fails.
    cbn [lastErr trace calls start app].
    destruct models as [|m ms]; [congruence|].
    rewrite Nat.add_0_r. reflexivity. }
  split; [exact Hnd|]. split; [apply uniqueModels_order|].
  split; [exact Htr|]. split.
  - rewrite Htr. cbn [snd]. clear. induction models as [|m ms IH]; [reflexivity|].
    cbn [flat_map threeAttempts app callsOf length]. rewrite IH. lia.
  - unfold processTextStage. rewrite Hs. fold models.
    rewrite (textLoop_fails models models start []); try assumption; try reflexivity.
    cbn [calls trace start app]. rewrite Nat.add_0_r. reflexivity.
Qed.

End RetryPolicy.

(** A service that is down, with the default model selected: five
    candidates, fifteen transcription calls, five text-stage calls. *)
Example retry_ceiling_witness :
  let down := fun (n : nat) (m : string) => @Throw Gemini.Response (mkError m) in
  length (Gemini.callsOf
            (snd (Gemini.transcribeSegment down (fun t => t)
                    "gemini-2.5-pro-preview"))) = 15
  /\ fst (Gemini.processTextStage down (fun t => t) FORMAL
            "gemini-2.5-pro-preview")
     = Throw (mkError "gemini-1.5-flash").
Proof.
  intros down.
  destruct (retry_ceiling down (fun t => t) (fun _ m => mkError m)
              (fun _ _ => eq_refl) "gemini-2.5-pro-preview" FORMAL eq_refl)
    as (_ & _ & _ & Hcalls & Htext).
  split.
  - rewrite Hcalls. reflexivity.
  - rewrite Htext. reflexivity.
Defined.

(** C2 as stated fails for the text-stage wrapper: with every attempt
    failing and a selected model outside the fallback list there are six
    candidates, and [processTextStage] makes six calls, not eighteen, and
    no sleep separates them. *)
Example text_stage_single_attempt :
  let down := fun (n : nat) (m : string) => @Throw Gemini.Response (mkError "unavailable") in
  let run := Gemini.processTextStage down (fun t => t) FORMAL "gemini-1.5-pro" in
  length (Gemini.uniqueModels "gemini-1.5-pro") = 6
  /\ length (Gemini.callsOf (snd run)) = 6
  /\ length (Gemini.callsOf (snd run))
     <> 3 * length (Gemini.uniqueModels "gemini-1.5-pro")
  /\ Gemini.sleepsOf (snd run) = [].
Proof.
  cbv zeta. repeat split; try reflexivity. vm_compute. discriminate.
Qed.

(** * Deleting a saved project *)

Section DeleteProject.

Import Supabase.

Variable selectSingle : string -> CheckResult.
Variable deleteExact : string -> DeleteResult.

Lemma policy_message_distinct : POLICY_BLOCKED <> NOT_FOUND.
Proof. intro H. vm_compute in H. discriminate H. Qed.

(** C9. [deleteProjectFromSupabase] first asks whether the row exists;
    when that check reports an error it throws the not-found error and
    issues no delete. When the check passes and the delete reports no
    error but a count of zero or null, it throws the policy-blocked
    error, whose message differs from the not-found one. It returns
    [true] exactly when the check passes, the delete reports no error and
    the count is positive. *)
Theorem delete_policy_surfacing (rowId : string) :
  (check_error (selectSingle rowId) <> None ->
     deleteProjectFromSupabase selectSingle deleteExact rowId
     = (Throw (mkError NOT_FOUND), [SelectId rowId]))
  /\ (check_error (selectSingle rowId) = None ->
      delete_error (deleteExact rowId) = None ->
      count (deleteExact rowId) = None \/ count (deleteExact rowId) = Some 0%N ->
      deleteProjectFromSupabase selectSingle deleteExact rowId
      = (Throw (mkError POLICY_BLOCKED), [SelectId rowId; DeleteId rowId]))
  /\ (fst (deleteProjectFromSupabase selectSingle deleteExact rowId)
      = Return true <->
      check_error (selectSingle rowId) = None
      /\ delete_error (deleteExact rowId) = None
      /\ exists c, count (deleteExact rowId) = Some c /\ (0 < c)%N)
  /\ mkError POLICY_BLOCKED <> mkError NOT_FOUND.
Proof.
  unfold deleteProjectFromSupabase.
  split; [| split; [| split; [split |]]].
  - intros Hc.
    destruct (check_error (selectSingle rowId)); [reflexivity | congruence].
  - intros Hc Hd Hn. rewrite Hc, Hd.
    destruct Hn as [-> | ->]; reflexivity.
  - destruct (check_error (selectSingle rowId)); [discriminate |].
    destruct (delete_error (deleteExact rowId)); [discriminate |].
    destruct (count (deleteExact rowId)) as [c|]; [| discriminate].
    destruct (N.eqb_spec c 0); [discriminate |].
    intros _. repeat split. exists c. split; [reflexivity | lia].
  - intros (Hc & Hd & c & Hn & Hpos). rewrite Hc, Hd, Hn. cbn.
    destruct (N.eqb_spec c 0); [lia | reflexivity].
  - intro H. apply policy_message_distinct. exact (f_equal message H).
Qed.

End DeleteProject.

(** A backend that finds the row and then deletes nothing. *)
Example delete_policy_surfacing_witness :
  let sel := fun _ : string => Supabase.mkCheck None in
  let del := fun _ : string => Supabase.mkDelete None (Some 0%N) in
  Supabase.deleteProjectFromSupabase sel del "p1"
  = (Throw (mkError Supabase.POLICY_BLOCKED),
     [Supabase.SelectId "p1"; Supabase.DeleteId "p1"]).
Proof.
  intros sel del.
  destruct (delete_policy_surfacing sel del "p1") as (_ & Hblocked & _).
  apply Hblocked; [reflexivity | reflexivity | right; reflexivity].
Defined.

(** * The queue and its updates *)

Section QueueFacts.

Import App.

Lemma append_nil_r (s : string) : (s ++ "")%string = s.
Proof. induction s as [|c s IH]; cbn; [reflexivity | now rewrite IH]. Qed.

Lemma append_assoc (a b c : string) :
  ((a ++ b) ++ c)%string = (a ++ (b ++ c))%string.
Proof. induction a as [|x a IH]; cbn; [reflexivity | now rewrite IH]. Qed.

Lemma transcriptOf_nil (r : nat -> string) (i : nat) : transcriptOf r i 0 = "".
Proof. reflexivity. Qed.

Lemma transcriptOf_cons (r : nat -> string) (i m : nat) :
  transcriptOf r i (S m) = ((r i ++ " ") ++ transcriptOf r (S i) m)%string.
Proof.
  unfold transcriptOf. cbn [seq map].
  destruct m as [|m]; cbn; [now rewrite append_nil_r | reflexivity].
Qed.


Lemma mapItem_ext (a : string) (f g : MediaItem -> MediaItem) (q : Queue) :
  (forall x, f x = g x) -> mapItem a f q = mapItem a g q.
Proof.
  intros H. unfold mapItem. apply map_ext. intros x. now rewrite H.
Qed.

Lemma mapItem_compose (a : string) (f g : MediaItem -> MediaItem) (q : Queue) :
  (forall x, id (g x) = id x) ->
  mapItem a f (mapItem a g q) = mapItem a (fun x => f (g x)) q.
Proof.
  intros Hg. unfold mapItem. rewrite map_map. apply map_ext. intros x.
  destruct (String.eqb (id x) a) eqn:E.
  - now rewrite Hg, E.
  - now rewrite E.
Qed.

Lemma findItem_mapItem (a : string) (f : MediaItem -> MediaItem) (q : Queue) :
  (forall x, id (f x) = id x) ->
  findItem a (mapItem a f q) = option_map f (findItem a q).
Proof.
  intros Hf. unfold findItem, mapItem.
  induction q as [|x q IH]; [reflexivity|]. cbn [map find].
  destruct (String.eqb (id x) a) eqn:E.
  - now rewrite Hf, E.
  - now rewrite E, IH.
Qed.

Lemma findItem_id (a : string) (q : Queue) (it : MediaItem) :
  findItem a q = Some it -> id it = a.
Proof.
  unfold findItem. intros H. apply find_some in H as [_ H].
  now apply String.eqb_eq.
Qed.

Lemma find_map_stable {A : Type} (p : A -> bool) (g : A -> A) (l : list A) :
  (forall x, p (g x) = p x) ->
  find p (map g l) = option_map g (find p l).
Proof.
  intros Hp. induction l as [|x l IH]; [reflexivity|]. cbn.
  rewrite Hp. destruct (p x); [reflexivity | exact IH].
Qed.

Lemma patchVersion_compose (b : string) (f g : Version -> Version)
  (vs : list Version) :
  (forall v, vid (g v) = vid v) ->
  patchVersion b f (patchVersion b g vs)
  = patchVersion b (fun v => f (g v)) vs.
Proof.
  intros Hg. unfold patchVersion. rewrite map_map. apply map_ext. intros v.
  destruct (String.eqb (vid v) b) eqn:E.
  - now rewrite Hg, E.
  - now rewrite E.
Qed.

Lemma findRaw_patch (b : string) (f : Version -> Version) (vs : list Version) :
  (forall v, stage (f v) = stage v) ->
  findRaw (patchVersion b f vs)
  = option_map (fun v => if String.eqb (vid v) b then f v else v) (findRaw vs).
Proof.
  intros Hf. unfold findRaw, patchVersion. apply find_map_stable.
  intros v. destruct (String.eqb (vid v) b); [now rewrite Hf | reflexivity].
Qed.

Lemma checkpoint_id b total j full it : id (checkpoint b total j full it) = id it.
Proof. reflexivity. Qed.

Lemma checkpoint_again b total j j' full full' it :
  checkpoint b total j' full' (checkpoint b total j full it)
  = checkpoint b total j' full' it.
Proof.
  unfold checkpoint. cbn -[patchVersion percent].
  rewrite patchVersion_compose by reflexivity. reflexivity.
Qed.

Lemma manuallyPaused_mapItem (a : string) (f : MediaItem -> MediaItem)
  (q : Queue) :
  (forall x, id (f x) = id x) ->
  (forall x, status (f x) = status x) ->
  (forall x, lastError (f x) = lastError x) ->
  manuallyPaused (findItem a (mapItem a f q)) = manuallyPaused (findItem a q).
Proof.
  intros Hi Hs He. rewrite findItem_mapItem by exact Hi.
  destruct (findItem a q) as [x|]; [| reflexivity].
  cbn. now rewrite Hs, He.
Qed.

Lemma sentChunks_app (a b : list Effect) :
  sentChunks (a ++ b) = sentChunks a ++ sentChunks b.
Proof.
  induction a as [|e a IH]; [reflexivity|].
  destruct e; cbn; now rewrite IH.
Qed.

Lemma saves_app (a b : list Effect) : saves (a ++ b) = saves a ++ saves b.
Proof.
  induction a as [|e a IH]; [reflexivity|].
  destruct e; cbn; now rewrite IH.
Qed.

Lemma confirms_app (a b : list Effect) :
  confirms (a ++ b) = confirms a + confirms b.
Proof.
  induction a as [|e a IH]; [reflexivity|].
  destruct e; cbn; now rewrite IH.
Qed.

Lemma slicedWindows_app (a b : list Effect) :
  slicedWindows (a ++ b) = slicedWindows a ++ slicedWindows b.
Proof.
  induction a as [|e a IH]; [reflexivity|].
  destruct e; cbn; now rewrite IH.
Qed.

Lemma sentChunks_send (d : Q) (l : list nat) :
  sentChunks (map (sendChunk d) l) = l.
Proof. induction l as [|x l IH]; cbn; [reflexivity | now rewrite IH]. Qed.

Lemma saves_send (d : Q) (l : list nat) : saves (map (sendChunk d) l) = [].
Proof. induction l as [|x l IH]; cbn; [reflexivity | exact IH]. Qed.

Lemma if_same {A : Type} (b : bool) (x : A) : (if b then x else x) = x.
Proof. now destruct b. Qed.

(** What the ref held at the previous poll matters only through the
    poll: two refs in which the item is not paused give the same
    loop. *)
Lemma chunkLoop_ref (env : Env) (a base : string) (d : Q) (total : nat) :
  forall remaining i full ref1 ref2 w,
    manuallyPaused (findItem a ref1) = false ->
    manuallyPaused (findItem a ref2) = false ->
    chunkLoop env a base d total remaining i full ref1 w
    = chunkLoop env a base d total remaining i full ref2 w.
Proof.
  induction remaining as [|rem IH]; intros i full ref1 ref2 w H1 H2;
    [reflexivity|].
  cbn [chunkLoop]. destruct (rendered env i); [reflexivity|].
  rewrite H1, H2. destruct (transcribe env i); [|reflexivity].
  now apply IH.
Qed.

(** ** The chunk loop while nothing goes wrong *)

Section Loop.

Variable env : Env.
Variables itemId base : string.
Variable d : Q.
Variable total : nat.
Variable r : nat -> string.

(** [m] iterations that succeed and are not disturbed commit [m]
    chunks and leave the rest of the loop to run from there. *)
Lemma chunkLoop_prefix (m : nat) :
  forall rest i full q e,
    (forall j q, i <= j < i + m -> interleave env j q = q) ->
    (forall j, i <= j < i + m -> transcribe env j = Return (r j)) ->
    manuallyPaused (findItem itemId q) = false ->
    chunkLoop env itemId base d total (m + rest) i full q (mkRun q e)
    = chunkLoop env itemId base d total rest (i + m)
        (full ++ transcriptOf r i m)%string
        (match m with
         | O => q
         | S _ =>
             mapItem itemId
               (checkpoint base total (i + m)
                  (full ++ transcriptOf r i m)%string)
               q
         end)
        (mkRun
           (match m with
            | O => q
            | S _ =>
                mapItem itemId
                  (checkpoint base total (i + m)
                     (full ++ transcriptOf r i m)%string)
                  q
            end)
           (e ++ map (sendChunk d) (seq i m))).
Proof.
  induction m as [|m IH]; intros rest i full q e Hq Hr Hp.
  - cbn [Nat.add seq map]. rewrite Nat.add_0_r, transcriptOf_nil.
    rewrite append_nil_r, app_nil_r. reflexivity.
  - cbn [Nat.add chunkLoop queue effects].
    rewrite Hq by lia. rewrite if_same, Hp. rewrite Hr by lia.
    set (full1 := (full ++ (r i ++ " "))%string).
    match goal with
    | |- chunkLoop _ _ _ _ _ _ _ _ _ (mkRun ?q3 ?e3) = _ =>
        assert (Hq3 : q3 = mapItem itemId (checkpoint base total (S i) full1)
                             q)
    end.
    { unfold updateItem. rewrite !mapItem_compose by reflexivity.
      apply mapItem_ext. intros x. reflexivity. }
    rewrite Hq3.
    assert (Hp1 : manuallyPaused
                    (findItem itemId
                       (mapItem itemId (checkpoint base total (S i) full1) q))
                  = false)
      by (rewrite manuallyPaused_mapItem by reflexivity; exact Hp).
    rewrite (chunkLoop_ref env itemId base d total _ _ _ q _ _ Hp Hp1).
    rewrite IH.
    + replace (S i + m) with (i + S m) by lia.
      match goal with
      | |- chunkLoop _ _ _ _ _ _ _ ?F1 ?Q1 (mkRun ?Q1 ?E1)
           = chunkLoop _ _ _ _ _ _ _ ?F2 ?Q2 (mkRun ?Q2 ?E2) =>
          assert (HF : F1 = F2);
          [| assert (HQ : Q1 = Q2);
             [| assert (HE : E1 = E2); [| now rewrite HQ, HF, HE]]]
      end.
      * rewrite transcriptOf_cons. unfold full1.
        now rewrite <- !append_assoc.
      * rewrite <- HF. destruct m as [|m'].
        -- rewrite transcriptOf_nil, append_nil_r.
           replace (i + 1) with (S i) by lia. reflexivity.
        -- rewrite mapItem_compose by reflexivity.
           apply mapItem_ext. intros x. apply checkpoint_again.
      * cbn [seq map]. rewrite <- app_assoc. reflexivity.
    + intros j q0 Hj. apply Hq. lia.
    + intros j Hj. apply Hr. lia.
    + exact Hp1.
Qed.

End Loop.

End QueueFacts.

(** * startTranscription on a readable source *)

Section Transcription.

Import App.

Variable env : Env.
Variable item : MediaItem.
Variable f : File.
Variable d : Q.

Hypothesis has_key : apiKey env <> "".
Hypothesis has_file : file item = Some f.
Hypothesis decodes : decodeAudioFile env f = Return d.

Lemma key_check : String.eqb (apiKey env) "" = false.
Proof. now apply String.eqb_neq. Qed.

Lemma mapItem_same (a : string) (q : Queue) : mapItem a (fun x => x) q = q.
Proof.
  unfold mapItem. induction q as [|x q IH]; [reflexivity|]. cbn.
  rewrite IH. now destruct (String.eqb (id x) a).
Qed.

(** Decoding settles the number of chunks and touches neither the
    checkpoint nor the versions of the item. *)
Lemma decodeStep_ok (k : nat) (w : Run) :
  exists cd g ds,
    decodeStep env item f k w
    = (Return (cd, d, resolveTotal item k d),
       mkRun (mapItem (id item) g (queue w)) (effects w ++ ds))
    /\ (forall x, id (g x) = id x)
    /\ (forall x, status (g x) = status x)
    /\ (forall x, lastError (g x) = lastError x)
    /\ (forall x, processedChunks (g x) = processedChunks x)
    /\ (forall x, versions (g x) = versions x)
    /\ sentChunks ds = [] /\ saves ds = [] /\ confirms ds = 0
    /\ slicedWindows ds = [].
Proof.
  unfold decodeStep, resolveTotal. rewrite decodes.
  destruct ((k =? 0) || Qeq_bool (duration item) 0).
  - eexists d, _, [Decode; Decode]. rewrite <- app_assoc.
    split; [reflexivity|]. repeat split; reflexivity.
  - exists (duration item), (fun x => x), [Decode].
    rewrite mapItem_same, app_nil_r.
    split; [reflexivity|]. repeat split; reflexivity.
Qed.

Lemma findRaw_app_new (vs : list Version) (v : Version) :
  findRaw vs = None -> stage v = RAW -> findRaw (vs ++ [v]) = Some v.
Proof.
  unfold findRaw. intros Hn Hv. induction vs as [|x vs IH]; cbn in *.
  - now rewrite Hv.
  - destruct (stage_eqb (stage x) RAW); [discriminate | now apply IH].
Qed.

(** Every such entry reaches the [try] statement with the item marked as
    processing, its error cleared, its checkpoint as it was, and the
    accumulator seeded from the RAW version the run will patch. *)
Lemma start_enters (isResuming : bool) (seed : string) (w : Run) :
  Entry env item isResuming seed ->
  findItem (id item) (queue w) = Some item ->
  exists base iv q1 asked,
    startTranscription env item isResuming w
    = tryCatch env item f (processedChunks item) base seed iv
        (mkRun q1 (effects w ++ asked))
    /\ Entered (id item) (processedChunks item) base seed q1
    /\ sentChunks asked = [] /\ saves asked = [].
Proof.
  intros Hentry Hlive.
  unfold startTranscription, startTranscription_step.
  rewrite key_check, has_file. unfold resolveVersion, updateItem.
  destruct Hentry
    as [raw Hraw | Hsome Hnone | isResuming Hnew Hzero Hnone
        | raw Hpos Hyes Hraw Hvid].
  - assert (Hlen : (0 <? length (versions item)) = true).
    { apply Nat.ltb_lt. destruct (versions item); [discriminate | cbn; lia]. }
    rewrite Hraw, Hlen. cbn [andb].
    exists (vid raw), (versions item). do 2 eexists.
    split; [reflexivity|]. split; [| split; reflexivity].
    econstructor.
    + rewrite findItem_mapItem by reflexivity. rewrite Hlive. reflexivity.
    + reflexivity.
    + reflexivity.
    + reflexivity.
    + exact Hraw.
    + reflexivity.
    + reflexivity.
  - assert (Hlen : (0 <? length (versions item)) = true).
    { apply Nat.ltb_lt. destruct (versions item); [congruence | cbn; lia]. }
    rewrite Hnone, Hlen. cbn [andb].
    do 4 eexists. split; [reflexivity|]. split; [| split; reflexivity].
    unfold addVersionToItem.
    econstructor.
    + rewrite !findItem_mapItem by reflexivity. rewrite Hlive. reflexivity.
    + reflexivity.
    + reflexivity.
    + reflexivity.
    + cbn [versions i_error i_status i_versions i_currentVersionId].
      apply findRaw_app_new; [exact Hnone | reflexivity].
    + reflexivity.
    + reflexivity.
  - assert (Hbranch : isResuming && (0 <? length (versions item)) = false).
    { destruct Hnew as [-> | ->]; [reflexivity | apply andb_false_r]. }
    rewrite Hbranch, Hzero. cbn [Nat.ltb Nat.leb andb Nat.eqb].
    do 4 eexists. split; [reflexivity|]. split; [| split; reflexivity].
    unfold addVersionToItem.
    econstructor.
    + rewrite !findItem_mapItem by reflexivity. rewrite Hlive. reflexivity.
    + reflexivity.
    + reflexivity.
    + cbn. exact Hzero.
    + cbn [versions i_error i_status i_versions i_currentVersionId].
      apply findRaw_app_new; [exact Hnone | reflexivity].
    + reflexivity.
    + reflexivity.
  - cbn [andb].
    assert (Hlt : (0 <? processedChunks item) = true) by now apply Nat.ltb_lt.
    assert (Hne : (processedChunks item =? 0) = false)
      by (apply Nat.eqb_neq; lia).
    rewrite Hlt, Hyes, Hne, Hraw. cbn [negb andb option_map optStrOr].
    assert (Hbase : strOr (vid raw) (uuidv4 env) = vid raw).
    { unfold strOr. now rewrite (proj2 (String.eqb_neq _ _) Hvid). }
    assert (Hseed : strOr (content raw) "" = content raw).
    { unfold strOr. destruct (String.eqb_spec (content raw) "") as [-> | _];
        reflexivity. }
    rewrite Hbase, Hseed.
    do 4 eexists. split; [reflexivity|]. split; [| split; reflexivity].
    econstructor.
    + rewrite findItem_mapItem by reflexivity. rewrite Hlive. reflexivity.
    + reflexivity.
    + reflexivity.
    + reflexivity.
    + exact Hraw.
    + reflexivity.
    + reflexivity.
Qed.

Lemma findRaw_patched (base : string) (F : Version -> Version)
  (vs : list Version) (raw : Version) :
  findRaw vs = Some raw -> vid raw = base ->
  (forall v, stage (F v) = stage v) ->
  findRaw (patchVersion base F vs) = Some (F raw).
Proof.
  intros H Hb HF. rewrite findRaw_patch by exact HF. rewrite H. cbn.
  now rewrite Hb, String.eqb_refl.
Qed.

Ltac item_fields :=
  cbn [versions status lastError processedChunks id progress
       currentVersionId totalChunks duration file
       i_versions i_progress i_status i_error i_processedChunks
       i_totalChunks i_duration i_currentVersionId checkpoint].

Section FromEntry.

Variable k : nat.
Variables base seed : string.
Variable iv : list Version.
Variable w : Run.
Variable r : nat -> string.

Hypothesis at_entry : Entered (id item) k base seed (queue w).

Local Abbreviation total := (resolveTotal item k d).
Local Abbreviation final := (tryCatch env item f k base seed iv w).

(** Chunks [k .. i-1] are committed and the loop stands at the top of
    iteration [i]. *)
Lemma loop_reaches (i rest : nat) (g : MediaItem -> MediaItem)
  (ds : list Effect) :
  k <= i ->
  (forall x, id (g x) = id x) ->
  (forall x, status (g x) = status x) ->
  (forall x, lastError (g x) = lastError x) ->
  (forall j q, k <= j < i -> interleave env j q = q) ->
  (forall j, k <= j < i -> transcribe env j = Return (r j)) ->
  chunkLoop env (id item) base d total (i - k + rest) k seed
    (mapItem (id item) g (queue w))
    (mkRun (mapItem (id item) g (queue w)) (effects w ++ ds))
  = chunkLoop env (id item) base d total rest i
      (seed ++ transcriptOf r k (i - k))%string
      (mapItem (id item)
         (fun x =>
            match i - k with
            | O => g x
            | S _ =>
                checkpoint base total i
                  (seed ++ transcriptOf r k (i - k))%string (g x)
            end)
         (queue w))
      (mkRun
         (mapItem (id item)
            (fun x =>
               match i - k with
               | O => g x
               | S _ =>
                   checkpoint base total i
                     (seed ++ transcriptOf r k (i - k))%string (g x)
               end)
            (queue w))
         (effects w ++ ds ++ map (sendChunk d) (seq k (i - k)))).
Proof.
  intros Hki Gid Gst Gerr Hq Hr.
  destruct at_entry as [cur raw Hfound Hst Herr Hpc Hraw Hbase Hseed].
  rewrite (chunkLoop_prefix env (id item) base d total r).
  - replace (k + (i - k)) with i by lia.
    rewrite <- app_assoc.
    assert (Hqueue :
              match i - k with
              | O => mapItem (id item) g (queue w)
              | S _ =>
                  mapItem (id item)
                    (checkpoint base total i
                       (seed ++ transcriptOf r k (i - k))%string)
                    (mapItem (id item) g (queue w))
              end
              = mapItem (id item)
                  (fun x =>
                     match i - k with
                     | O => g x
                     | S _ =>
                         checkpoint base total i
                           (seed ++ transcriptOf r k (i - k))%string (g x)
                     end)
                  (queue w)).
    { destruct (i - k); [reflexivity|].
      rewrite mapItem_compose by exact Gid. reflexivity. }
    now rewrite Hqueue.
  - intros j q Hj. apply Hq. lia.
  - intros j Hj. apply Hr. lia.
  - rewrite manuallyPaused_mapItem by assumption.
    rewrite Hfound. cbn. now rewrite Hst.
Qed.

(** Every remaining chunk succeeds: the run completes. *)
Lemma tryCatch_completes :
  k <= total ->
  (forall j q, k <= j < total -> interleave env j q = q) ->
  (forall j, k <= j < total -> transcribe env j = Return (r j)) ->
  exists fin saved,
    findItem (id item) (queue final) = Some fin
    /\ status fin = completed
    /\ lastError fin = None
    /\ processedChunks fin = total
    /\ rawContent fin = Some (seed ++ transcriptOf r k (total - k))%string
    /\ sentChunks (effects final) = sentChunks (effects w) ++ seq k (total - k)
    /\ slicedWindows (effects final)
       = slicedWindows (effects w)
           ++ slicedWindows (map (sendChunk d) (seq k (total - k)))
    /\ saves (effects final) = saves (effects w) ++ [saved]
    /\ status saved = completed.
Proof.
  intros Hk Hq Hr.
  pose proof at_entry as [cur raw Hfound Hst Herr Hpc Hraw Hbase Hseed].
  unfold tryCatch, tryBlock.
  destruct (decodeStep_ok k w)
    as (cd & g & ds & -> & Gid & Gst & Gerr & Gpc & Gvs & Dsent & Dsaves & _ & Dwin).
  cbn [queue].
  pose proof (loop_reaches total 0 g ds Hk Gid Gst Gerr Hq Hr) as Hloop.
  rewrite Nat.add_0_r in Hloop. rewrite Hloop. clear Hloop.
  cbn [chunkLoop afterLoop queue effects].
  unfold updateItem, rawContent.
  rewrite !findItem_mapItem, Hfound;
    try (intros x; destruct (total - k); reflexivity || apply Gid).
  cbn [option_map].
  rewrite !sentChunks_app, !slicedWindows_app, !saves_app, sentChunks_send,
    saves_send, Dsent, Dsaves, Dwin.
  destruct (total - k) eqn:Hm; do 2 eexists;
    (split; [reflexivity|]); item_fields.
  - rewrite Gerr, Gpc, Gvs, Herr.
    rewrite (findRaw_patched base _ _ raw Hraw Hbase) by reflexivity.
    cbn. rewrite Hseed, append_nil_r, !app_nil_r.
    repeat split; try reflexivity. lia.
  - rewrite Gerr, Gvs, Herr.
    rewrite patchVersion_compose by reflexivity.
    rewrite (findRaw_patched base _ _ raw Hraw Hbase) by reflexivity.
    cbn. rewrite !app_nil_r.
    repeat split; reflexivity.
Qed.

(** Chunk [i] is rejected: the run stops there, paused. *)
Lemma tryCatch_fails (i : nat) (e : JsError) :
  k <= i < total ->
  (forall j q, k <= j <= i -> interleave env j q = q) ->
  (forall j, k <= j < i -> transcribe env j = Return (r j)) ->
  transcribe env i = Throw e ->
  exists fin,
    findItem (id item) (queue final) = Some fin
    /\ status fin = paused
    /\ lastError fin = Some (strOr (message e) DEFAULT_ERROR)
    /\ processedChunks fin = i
    /\ rawContent fin = Some (seed ++ transcriptOf r k (i - k))%string
    /\ sentChunks (effects final)
       = sentChunks (effects w) ++ seq k (i - k) ++ [i]
    /\ saves (effects final) = saves (effects w).
Proof.
  intros Hi Hq Hr He.
  pose proof at_entry as [cur raw Hfound Hst Herr Hpc Hraw Hbase Hseed].
  unfold tryCatch, tryBlock.
  destruct (decodeStep_ok k w)
    as (cd & g & ds & -> & Gid & Gst & Gerr & Gpc & Gvs & Dsent & Dsaves & _ & Dwin).
  cbn [queue].
  replace (total - k) with (i - k + S (total - S i)) by lia.
  rewrite (loop_reaches i (S (total - S i)) g ds); try assumption; try lia.
  2: { intros j q Hj. apply Hq. lia. }
  cbn [chunkLoop queue effects].
  rewrite Hq by lia. rewrite if_same.
  assert (Hp : manuallyPaused
                 (findItem (id item)
                    (mapItem (id item)
                       (fun x =>
                          match i - k with
                          | O => g x
                          | S _ =>
                              checkpoint base total i
                                (seed ++ transcriptOf r k (i - k))%string (g x)
                          end) (queue w))) = false).
  { rewrite manuallyPaused_mapItem;
      try (intros x; destruct (i - k); item_fields; auto).
    rewrite Hfound. cbn. now rewrite Hst. }
  rewrite Hp, He. cbn [afterLoop catchBlock queue effects].
  unfold updateItem, rawContent.
  rewrite !findItem_mapItem, Hfound;
    try (intros x; destruct (i - k); reflexivity || apply Gid).
  cbn [option_map].
  rewrite !sentChunks_app, !saves_app, sentChunks_send, saves_send,
    Dsent, Dsaves.
  cbn [sentChunks saves sendChunk]. rewrite <- ?app_assoc, ?app_nil_r.
  cbn [app].
  destruct (i - k) eqn:Hm; eexists; (split; [reflexivity|]); item_fields.
  - rewrite Gpc, Gvs, Hraw. cbn. rewrite Hseed, append_nil_r.
    repeat split; try reflexivity. lia.
  - rewrite Gvs.
    rewrite (findRaw_patched base _ _ raw Hraw Hbase) by reflexivity.
    cbn. repeat split; reflexivity.
Qed.



End FromEntry.

End Transcription.

(** * Facts that hold for every run *)

Section AnyRun.

Import App.

Variable env : Env.

Lemma allStatus_set (a : string) (s : Status) (f : MediaItem -> MediaItem)
  (q : Queue) :
  (forall x, id (f x) = id x) -> (forall x, status (f x) = s) ->
  allStatus a s (mapItem a f q).
Proof.
  intros Hi Hs. unfold allStatus, mapItem. apply Forall_map, Forall_forall.
  intros x _. destruct (String.eqb_spec (id x) a) as [E | E].
  - intros _. apply Hs.
  - intros H. contradiction.
Qed.

Lemma allStatus_keep (a : string) (s : Status) (f : MediaItem -> MediaItem)
  (q : Queue) :
  (forall x, id (f x) = id x) -> (forall x, status (f x) = status x) ->
  allStatus a s q -> allStatus a s (mapItem a f q).
Proof.
  intros Hi Hs H. unfold allStatus, mapItem in *. apply Forall_map.
  eapply Forall_impl; [| exact H]. intros x Hx.
  destruct (String.eqb (id x) a); [| exact Hx].
  rewrite Hi, Hs. exact Hx.
Qed.

Lemma allStatus_found (a : string) (s : Status) (q : Queue) (x : MediaItem) :
  allStatus a s q -> findItem a q = Some x -> status x = s.
Proof.
  intros H Hf. unfold allStatus in H. rewrite Forall_forall in H.
  pose proof (findItem_id _ _ _ Hf) as Hid.
  apply find_some in Hf as [Hin _]. now apply H.
Qed.

Lemma processing_not_paused (a : string) (q : Queue) :
  allStatus a processing q -> manuallyPaused (findItem a q) = false.
Proof.
  intros H. destruct (findItem a q) as [x|] eqn:Hf; [| reflexivity].
  cbn. now rewrite (allStatus_found _ _ _ _ H Hf).
Qed.

(** The loop sends consecutive chunks starting at [i], and does nothing
    else to the outside world. *)
Lemma chunkLoop_sends (a base : string) (d : Q) (total : nat) :
  forall remaining i full ref w,
  exists m,
    m <= remaining
    /\ effects (snd (chunkLoop env a base d total remaining i full ref w))
       = effects w ++ map (sendChunk d) (seq i m).
Proof.
  induction remaining as [|rem IH]; intros i full ref w.
  - exists 0. cbn. now rewrite app_nil_r.
  - cbn [chunkLoop].
    destruct (manuallyPaused _).
    + exists 0. cbn. split; [lia | now rewrite app_nil_r].
    + destruct (transcribe env i) as [t | e].
      * match goal with
        | |- context [chunkLoop _ _ _ _ _ rem (S i) ?fl ?rf ?w'] =>
            destruct (IH (S i) fl rf w') as (m & Hm & Heq)
        end.
        exists (S m). split; [lia|]. rewrite Heq. cbn [effects seq map].
        now rewrite <- app_assoc.
      * exists 1. cbn. split; [lia | reflexivity].
Qed.

(** If the first iteration is not paused, chunk [i] is sent. *)
Lemma chunkLoop_sends_first (a base : string) (d : Q) (total : nat)
  (rem i : nat) (full : string) (ref : Queue) (w : Run) :
  manuallyPaused
    (findItem a
       (if rendered env i then interleave env i (queue w) else ref))
  = false ->
  exists m,
    effects (snd (chunkLoop env a base d total (S rem) i full ref w))
    = effects w ++ map (sendChunk d) (seq i (S m)).
Proof.
  intros Hp. cbn [chunkLoop]. rewrite Hp.
  destruct (transcribe env i) as [t | e].
  - match goal with
    | |- context [chunkLoop _ _ _ _ _ rem (S i) ?fl ?rf ?w'] =>
        destruct (chunkLoop_sends a base d total rem (S i) fl rf w')
          as (m & Hm & Heq)
    end.
    exists m. rewrite Heq. cbn [effects seq map]. now rewrite <- app_assoc.
  - exists 0. reflexivity.
Qed.

Lemma decodeStep_effects (item : MediaItem) (f : File) (k : nat) (w : Run) :
  exists g ds,
    queue (snd (decodeStep env item f k w)) = mapItem (id item) g (queue w)
    /\ effects (snd (decodeStep env item f k w)) = effects w ++ ds
    /\ (forall x, id (g x) = id x)
    /\ (forall x, status (g x) = status x)
    /\ sentChunks ds = [] /\ saves ds = [] /\ confirms ds = 0.
Proof.
  unfold decodeStep.
  destruct ((k =? 0) || Qeq_bool (duration item) 0);
    destruct (decodeAudioFile env f) as [dd | e]; cbn [snd queue effects].
  - eexists _, [Decode; Decode]. rewrite <- app_assoc.
    repeat split; reflexivity.
  - exists (fun x => x), [Decode]. rewrite mapItem_same.
    repeat split; reflexivity.
  - exists (fun x => x), [Decode]. rewrite mapItem_same, app_nil_r.
    repeat split; reflexivity.
  - exists (fun x => x), [Decode]. rewrite mapItem_same, app_nil_r.
    repeat split; reflexivity.
Qed.

(** What a [try ... catch] does to the outside world: it sends
    consecutive chunks from [k] on, asks nothing, and saves at most once,
    and then only after marking the item completed. *)
Lemma tryCatch_effects (item : MediaItem) (f : File) (k : nat)
  (base full : string) (iv : list Version) (w : Run) :
  let final := tryCatch env item f k base full iv w in
  (exists m,
     sentChunks (effects final) = sentChunks (effects w) ++ seq k m)
  /\ confirms (effects final) = confirms (effects w)
  /\ (saves (effects final) = saves (effects w)
      \/ exists saved,
          saves (effects final) = saves (effects w) ++ [saved]
          /\ status saved = completed
          /\ allStatus (id item) completed (queue final)).
Proof.
  cbv zeta. unfold tryCatch, tryBlock.
  destruct (decodeStep_effects item f k w)
    as (g & ds & Hq & He & Gid & Gst & Dsent & Dsaves & Dconf).
  destruct (decodeStep env item f k w) as [[[[cd ad] total] | e] w1].
  - cbn [snd] in Hq, He.
    destruct (chunkLoop_sends (id item) base ad total (total - k) k full
                (queue w1) w1)
      as (m & _ & Hm).
    destruct (chunkLoop env (id item) base ad total (total - k) k full
                (queue w1) w1)
      as [[exit full'] w'].
    cbn [snd] in Hm.
    assert (Hsent : sentChunks (effects w') = sentChunks (effects w) ++ seq k m).
    { rewrite Hm, He, !sentChunks_app, sentChunks_send, Dsent, app_nil_r.
      reflexivity. }
    assert (Hsaves : saves (effects w') = saves (effects w)).
    { rewrite Hm, He, !saves_app, saves_send, Dsaves, !app_nil_r.
      reflexivity. }
    assert (Hconf : confirms (effects w') = confirms (effects w)).
    { rewrite Hm, He, !confirms_app, Dconf.
      assert (Hc : forall l, confirms (map (sendChunk ad) l) = 0)
        by (induction l; cbn; auto).
      rewrite Hc. lia. }
    destruct exit as [| | e]; cbn [afterLoop catchBlock effects queue].
    + split; [| split].
      * exists m. rewrite sentChunks_app, Hsent. cbn. now rewrite app_nil_r.
      * rewrite confirms_app, Hconf. cbn. lia.
      * right. eexists. rewrite saves_app, Hsaves. cbn [saves].
        split; [reflexivity|]. split; [reflexivity|].
        apply allStatus_keep; [reflexivity | reflexivity |].
        apply allStatus_set; reflexivity.
    + split; [exists m; exact Hsent | split; [exact Hconf | left; exact Hsaves]].
    + split; [exists m; exact Hsent | split; [exact Hconf | left; exact Hsaves]].
  - cbn [snd] in He. cbn [catchBlock effects]. rewrite He.
    rewrite sentChunks_app, saves_app, confirms_app, Dsent, Dsaves, Dconf.
    rewrite !app_nil_r, Nat.add_0_r.
    split; [exists 0; cbn; now rewrite app_nil_r | split; [reflexivity | now left]].
Qed.

(** With a decodable source, a chunk left to process and nobody pausing,
    chunk [k] is sent. *)
Lemma tryCatch_sends_first (item : MediaItem) (f : File) (d : Q) (k : nat)
  (base full : string) (iv : list Version) (w : Run) :
  decodeAudioFile env f = Return d ->
  k < resolveTotal item k d ->
  allStatus (id item) processing (queue w) ->
  (forall q, interleave env k q = q) ->
  exists m,
    sentChunks (effects (tryCatch env item f k base full iv w))
    = sentChunks (effects w) ++ seq k (S m).
Proof.
  intros Hdec Hk Hproc Hquiet.
  unfold tryCatch, tryBlock.
  destruct (decodeStep_ok env item f d Hdec k w)
    as (cd & g & ds & -> & Gid & Gst & Gerr & Gpc & Gvs & Dsent & Dsaves & _).
  set (total := resolveTotal item k d) in *.
  replace (total - k) with (S (total - S k)) by lia.
  match goal with
  | |- context [chunkLoop env ?a ?b ?dd ?t (S ?rem) k ?fl ?rf ?w1] =>
      destruct (chunkLoop_sends_first a b dd t rem k fl rf w1) as (m & Hm);
      [ rewrite Hquiet; cbn [queue]; rewrite if_same;
        apply processing_not_paused; apply allStatus_keep; assumption
      | destruct (chunkLoop env a b dd t (S rem) k fl rf w1)
          as [[exit full'] w'] ]
  end.
  cbn [snd effects] in Hm.
  assert (Hsent : sentChunks (effects w') = sentChunks (effects w) ++ seq k (S m)).
  { rewrite Hm, !sentChunks_app, sentChunks_send, Dsent, app_nil_r.
    reflexivity. }
  exists m. destruct exit; cbn [afterLoop catchBlock effects]; try exact Hsent.
  rewrite sentChunks_app, Hsent. cbn [sentChunks]. now rewrite app_nil_r.
Qed.

(** ** The versioning block *)

Lemma restarts_restartItem (item : MediaItem) :
  restarts env (restartItem item) false = false.
Proof. reflexivity. Qed.

Lemma resolveVersion_cases (item : MediaItem) (isResuming : bool) (q : Queue) :
  (restarts env item isResuming = true
   /\ resolveVersion env item isResuming q = (Restart, [Confirm]))
  \/ (restarts env item isResuming = false
      /\ exists base full iv g,
          resolveVersion env item isResuming q
          = (Proceed base full iv (mapItem (id item) g q),
             if asks item isResuming then [Confirm] else [])
          /\ (forall x, id (g x) = id x)
          /\ (forall x, status (g x) = status x)).
Proof.
  unfold resolveVersion, restarts, asks.
  destruct (isResuming && (0 <? length (versions item))); cbn [negb andb].
  - right. split; [reflexivity|].
    destruct (findRaw (versions item)) as [raw|].
    + exists (vid raw), (content raw), (versions item), (fun x => x).
      rewrite mapItem_same. repeat split; reflexivity.
    + do 4 eexists. unfold addVersionToItem.
      repeat split; reflexivity.
  - destruct (0 <? processedChunks item) eqn:Hpc; cbn [andb].
    + destruct (confirm env); cbn [negb].
      * right. split; [reflexivity|].
        destruct (processedChunks item =? 0).
        -- do 4 eexists. unfold addVersionToItem. repeat split; reflexivity.
        -- do 3 eexists. exists (fun x => x). rewrite mapItem_same.
           repeat split; reflexivity.
      * left. split; reflexivity.
    + right. split; [reflexivity|].
      destruct (processedChunks item =? 0).
      * do 4 eexists. unfold addVersionToItem. repeat split; reflexivity.
      * do 3 eexists. exists (fun x => x). rewrite mapItem_same.
        repeat split; reflexivity.
Qed.

(** Without a restart the body goes straight to [try] and never calls
    itself. *)
Lemma step_proceeds (self : MediaItem -> bool -> Run -> Run)
  (item : MediaItem) (isResuming : bool) (f : File) (w : Run) :
  apiKey env <> "" -> file item = Some f ->
  restarts env item isResuming = false ->
  exists base full iv g,
    startTranscription_step self env item isResuming w
    = tryCatch env item f (processedChunks item) base full iv
        (mkRun (mapItem (id item) g (queue w))
               (effects w ++ if asks item isResuming then [Confirm] else []))
    /\ (forall x, id (g x) = id x)
    /\ (forall x, status (g x) = processing).
Proof.
  intros Hkey Hfile Hno. unfold startTranscription_step.
  rewrite (proj2 (String.eqb_neq _ _) Hkey), Hfile.
  match goal with
  | |- context [resolveVersion env item isResuming ?q0] =>
      destruct (resolveVersion_cases item isResuming q0)
        as [[Hyes _] | (_ & base & full & iv & g & -> & Gid & Gst)];
      [congruence|]
  end.
  exists base, full, iv. eexists. unfold updateItem.
  rewrite mapItem_compose by reflexivity.
  split; [reflexivity|]. split.
  - intros x. now rewrite Gid.
  - intros x. now rewrite Gst.
Qed.

Lemma step_no_restart (self1 self2 : MediaItem -> bool -> Run -> Run)
  (item : MediaItem) (isResuming : bool) (w : Run) :
  restarts env item isResuming = false ->
  startTranscription_step self1 env item isResuming w
  = startTranscription_step self2 env item isResuming w.
Proof.
  intros Hno. unfold startTranscription_step.
  destruct (String.eqb (apiKey env) ""); [reflexivity|].
  destruct (file item) as [f|]; [| reflexivity].
  match goal with
  | |- context [resolveVersion env item isResuming ?q0] =>
      destruct (resolveVersion_cases item isResuming q0)
        as [[Hyes _] | (_ & base & full & iv & g & -> & _)];
      [congruence | reflexivity]
  end.
Qed.

(** The fixpoint equation of the source function. *)
Lemma startTranscription_unfold (item : MediaItem) (isResuming : bool)
  (w : Run) :
  startTranscription env item isResuming w
  = startTranscription_step (startTranscription env) env item isResuming w.
Proof.
  unfold startTranscription at 1. unfold startTranscription_step.
  destruct (String.eqb (apiKey env) ""); [reflexivity|].
  destruct (file item) as [f|]; [| reflexivity].
  match goal with
  | |- context [resolveVersion env item isResuming ?q0] =>
      destruct (resolveVersion env item isResuming q0) as [[|b fl ivs q1] asked]
  end; [| reflexivity].
  apply step_no_restart. reflexivity.
Qed.

(** A restart is a first start on the reset item. *)
Lemma start_restarts (item : MediaItem) (isResuming : bool) (f : File)
  (w : Run) :
  apiKey env <> "" -> file item = Some f ->
  restarts env item isResuming = true ->
  startTranscription env item isResuming w
  = startTranscription env (restartItem item) false
      (mkRun (restartQueue item (queue w)) (effects w ++ [Confirm])).
Proof.
  intros Hkey Hfile Hyes. rewrite startTranscription_unfold.
  unfold startTranscription_step at 1.
  rewrite (proj2 (String.eqb_neq _ _) Hkey), Hfile.
  match goal with
  | |- context [resolveVersion env item isResuming ?q0] =>
      destruct (resolveVersion_cases item isResuming q0)
        as [[_ ->] | [Hno _]]; [reflexivity | congruence]
  end.
Qed.

End AnyRun.

(** * Resuming, failing, pausing *)

Section Resumability.

Import App.

Variable env : Env.
Variable item : MediaItem.
Variable f : File.
Variable d : Q.
Variable r : nat -> string.

Hypothesis has_key : apiKey env <> "".
Hypothesis has_file : file item = Some f.
Hypothesis decodes : decodeAudioFile env f = Return d.


Lemma resolveTotal_uploaded (a : string) :
  resolveTotal (uploaded a f) 0 d = chunkCount d.
Proof.
  unfold resolveTotal. cbn. now destruct (chunkCount d =? 0).
Qed.

(** A first run on a fresh upload, all chunks succeeding. *)
Lemma first_run_completes (a : string) :
  (forall j q, interleave env j q = q) ->
  (forall j, j < chunkCount d -> transcribe env j = Return (r j)) ->
  let run := startTranscription env (uploaded a f) false
               (mkRun [uploaded a f] []) in
  exists fin,
    findItem a (queue run) = Some fin
    /\ status fin = completed
    /\ processedChunks fin = chunkCount d
    /\ rawContent fin = Some (transcriptOf r 0 (chunkCount d))
    /\ sentChunks (effects run) = seq 0 (chunkCount d)
    /\ slicedWindows (effects run) = windows d.
Proof.
  intros Hquiet Hresp run.
  assert (Hlive : findItem (id (uploaded a f)) (queue (mkRun [uploaded a f] []))
                  = Some (uploaded a f)).
  { cbn. now rewrite String.eqb_refl. }
  destruct (start_enters env (uploaded a f) f has_key eq_refl false ""
              (mkRun [uploaded a f] [])
              (entry_first env (uploaded a f) false (or_introl eq_refl)
                 eq_refl eq_refl) Hlive)
    as (base & iv & q1 & asked & Hrun & Hent & Hasked & _).
  destruct (tryCatch_completes env (uploaded a f) f d decodes 0 base "" iv
              (mkRun q1 ([] ++ asked)) r Hent)
    as (fin & saved & Hfin & Hst & _ & Hpc & Hraw & Hsent & Hwin & _).
  - lia.
  - intros j q _. apply Hquiet.
  - intros j Hj. apply Hresp. rewrite resolveTotal_uploaded in Hj. lia.
  - rewrite resolveTotal_uploaded, Nat.sub_0_r in *.
    exists fin. unfold run. rewrite Hrun.
    cbn [effects processedChunks uploaded app] in *.
    rewrite Hasked in Hsent.
    assert (Hnone : slicedWindows asked = []).
    { clear - Hasked. induction asked as [|e l IH]; [reflexivity|].
      destruct e; cbn in *; try discriminate; now apply IH. }
    rewrite Hnone in Hwin.
    repeat split; try assumption.
    rewrite Hwin. cbn [slicedWindows app]. unfold windows.
    clear. generalize 0 as i. induction (chunkCount d) as [|n IH]; intros i;
      [reflexivity|]. cbn [seq map slicedWindows sendChunk]. now rewrite IH.
Qed.


End Resumability.

(** * The windows a run slices *)

Section SlicedWindows.

Import App.

Variable env : Env.
Variable f : File.
Variable d : Q.
Variable r : nat -> string.
Variable a : string.

Hypothesis has_key : apiKey env <> "".
Hypothesis decodes : decodeAudioFile env f = Return d.
Hypothesis d_positive : (0 < d)%Q.
Hypothesis quiet : forall j q, interleave env j q = q.
Hypothesis answers :
  forall j, j < chunkCount d -> transcribe env j = Return (r j).

Local Abbreviation sliced :=
  (slicedWindows
     (effects (startTranscription env (uploaded a f) false
                 (mkRun [uploaded a f] [])))).

(** C3. A pass of [startTranscription] over a source of [d > 0]
    seconds hands [sliceAudioBuffer] exactly [ceil(d / 240)] windows.
    Window [i] has index [i] and starts at [i * 240]; every window but
    the last is 240 seconds long; the last is [min(240, d - i * 240)]
    seconds long, which is what is left of the source; and the lengths
    add up to [d]. The pass is a first start on a fresh upload whose
    chunk calls all succeed, nobody else touching the queue. *)
Theorem chunk_windows :
  Z.of_nat (length sliced) = Math_ceil (d / CHUNK_DURATION)
  /\ (forall i, i < length sliced ->
        exists len,
          nth_error sliced i
          = Some (i, (inject_Z (Z.of_nat i) * CHUNK_DURATION)%Q, Some len)
          /\ (len == Qmin CHUNK_DURATION
                       (d - inject_Z (Z.of_nat i) * CHUNK_DURATION))%Q
          /\ (S i < length sliced -> (len == CHUNK_DURATION)%Q)
          /\ (S i = length sliced ->
              (len == d - inject_Z (Z.of_nat i) * CHUNK_DURATION)%Q))
  /\ (totalLength sliced == d)%Q.
Proof.
  destruct (first_run_completes env f d r has_key decodes a quiet answers)
    as (fin & _ & _ & _ & _ & _ & Hsliced).
  cbv zeta in Hsliced. rewrite Hsliced.
  exact (windows_geometry d d_positive).
Qed.

End SlicedWindows.

(** 500 seconds: the run slices three windows of 240, 240 and 20
    seconds. *)
Example chunk_windows_witness :
  let sliced :=
    App.slicedWindows
      (App.effects
         (App.startTranscription Sample.healthy
            (App.uploaded "m1" Sample.audio) false
            (App.mkRun [App.uploaded "m1" Sample.audio] []))) in
  length sliced = 3
  /\ (App.totalLength sliced == 500)%Q
  /\ map snd sliced = [Some 240%Q; Some 240%Q; Some 20%Q].
Proof.
  destruct (chunk_windows Sample.healthy Sample.audio 500%Q Sample.answers
              "m1" ltac:(discriminate) eq_refl eq_refl ltac:(reflexivity)
              ltac:(reflexivity))
    as (Hn & _ & Hsum).
  cbv zeta. split; [| split; [exact Hsum | reflexivity]].
  apply Nat2Z.inj. rewrite Hn. reflexivity.
Defined.

Section Interruptions.

Import App.

Variable env : Env.
Variable item : MediaItem.
Variable f : File.
Variable d : Q.
Variable r : nat -> string.

Hypothesis has_key : apiKey env <> "".
Hypothesis has_file : file item = Some f.
Hypothesis decodes : decodeAudioFile env f = Return d.

(** What every run does to the outside world. *)
Lemma start_effects (isResuming : bool) (w : Run) :
  let final := startTranscription env item isResuming w in
  let s := if restarts env item isResuming then 0 else processedChunks item in
  (exists m, sentChunks (effects final) = sentChunks (effects w) ++ seq s m)
  /\ confirms (effects final)
     = confirms (effects w) + (if asks item isResuming then 1 else 0)
  /\ (saves (effects final) = saves (effects w)
      \/ exists saved,
          saves (effects final) = saves (effects w) ++ [saved]
          /\ status saved = completed
          /\ allStatus (id item) completed (queue final)).
Proof.
  cbv zeta.
  assert (Hproceeds :
    forall it rs w0,
      file it = Some f -> id it = id item ->
      restarts env it rs = false ->
      let final := startTranscription env it rs w0 in
      (exists m, sentChunks (effects final)
                 = sentChunks (effects w0) ++ seq (processedChunks it) m)
      /\ confirms (effects final)
         = confirms (effects w0) + (if asks it rs then 1 else 0)
      /\ (saves (effects final) = saves (effects w0)
          \/ exists saved,
              saves (effects final) = saves (effects w0) ++ [saved]
              /\ status saved = completed
              /\ allStatus (id item) completed (queue final))).
  { intros it rs w0 Hf Hid Hno. cbv zeta. rewrite <- Hid.
    destruct (step_proceeds env (startTranscription_restarted env) it rs f w0
                has_key Hf Hno) as (base & full & iv & g & Hrun & _).
    unfold startTranscription. rewrite Hrun.
    destruct (tryCatch_effects env it f (processedChunks it) base full iv
                (mkRun (mapItem (id it) g (queue w0))
                       (effects w0 ++ if asks it rs then [Confirm] else [])))
      as ((m & Hm) & Hc & Hs).
    cbn [effects] in Hm, Hc, Hs.
    rewrite sentChunks_app in Hm. rewrite confirms_app in Hc.
    rewrite saves_app in Hs.
    assert (Hask : sentChunks (if asks it rs then [Confirm] else []) = []
                   /\ saves (if asks it rs then [Confirm] else []) = []
                   /\ confirms (if asks it rs then [Confirm] else [])
                      = if asks it rs then 1 else 0)
      by (destruct (asks it rs); repeat split; reflexivity).
    destruct Hask as (Ha1 & Ha2 & Ha3).
    rewrite Ha1, app_nil_r in Hm. rewrite Ha3 in Hc.
    rewrite Ha2, app_nil_r in Hs.
    split; [exists m; exact Hm | split; [exact Hc | exact Hs]]. }
  destruct (restarts env item isResuming) eqn:Hre.
  - rewrite (start_restarts env item isResuming f w has_key has_file Hre).
    destruct (Hproceeds (restartItem item) false
                (mkRun (restartQueue item (queue w)) (effects w ++ [Confirm]))
                has_file eq_refl eq_refl) as ((m & Hm) & Hc & Hs).
    cbn [effects] in Hm, Hc, Hs.
    rewrite sentChunks_app in Hm. rewrite confirms_app in Hc.
    rewrite saves_app in Hs. cbn [sentChunks saves confirms] in Hm, Hc, Hs.
    rewrite app_nil_r in Hm, Hs.
    assert (Hasks : asks item isResuming = true).
    { unfold restarts in Hre. now apply andb_prop in Hre as [-> _]. }
    rewrite Hasks.
    split; [exists m; exact Hm | split; [| exact Hs]].
    rewrite Hc. cbn. lia.
  - apply Hproceeds; [exact has_file | reflexivity | exact Hre].
Qed.

Variable isResuming : bool.
Variable seed : string.
Variable w : Run.
Variable i : nat.

Hypothesis live : findItem (id item) (queue w) = Some item.
Hypothesis entry : Entry env item isResuming seed.
Hypothesis in_range :
  processedChunks item <= i < resolveTotal item (processedChunks item) d.
Hypothesis quiet_before :
  forall j q, processedChunks item <= j < i -> interleave env j q = q.
Hypothesis answered_before :
  forall j, processedChunks item <= j < i -> transcribe env j = Return (r j).

Local Abbreviation final := (startTranscription env item isResuming w).
Local Abbreviation k := (processedChunks item).

(** The call for chunk [i] is rejected after chunks [k .. i-1] were
    committed. *)
Lemma failure_facts (e : JsError) :
  (forall q, interleave env i q = q) ->
  transcribe env i = Throw e ->
  (exists fin,
     findItem (id item) (queue final) = Some fin
     /\ processedChunks fin = i
     /\ rawContent fin = Some (seed ++ transcriptOf r k (i - k))%string
     /\ status fin = paused
     /\ status fin <> error
     /\ lastError fin = Some (strOr (message e) DEFAULT_ERROR)
     /\ (message e <> "" -> lastError fin = Some (message e)))
  /\ saves (effects final) = saves (effects w).
Proof.
  intros Hquiet He.
  destruct (start_enters env item f has_key has_file isResuming seed w
              entry live)
    as (base & iv & q1 & asked & Hrun & Hent & Hasked & Hnosave).
  destruct (tryCatch_fails env item f d decodes k base seed iv
              (mkRun q1 (effects w ++ asked)) r Hent i e in_range)
    as (fin & Hfin & Hst & Herr & Hpc & Hraw & _ & Hsaves);
    try assumption.
  { intros j q Hj. destruct (Nat.eq_dec j i) as [-> | Hne];
      [apply Hquiet | apply quiet_before; lia]. }
  rewrite <- Hrun in *. cbn [effects] in Hsaves.
  rewrite saves_app, Hnosave, app_nil_r in Hsaves.
  split; [| exact Hsaves].
  exists fin. repeat split; try assumption.
  - rewrite Hst. discriminate.
  - intros Hne. rewrite Herr. unfold strOr.
    now rewrite (proj2 (String.eqb_neq _ _) Hne).
Qed.


End Interruptions.

(** C5. Chunks [k .. i-1] have been committed and the call for chunk [i] is
    rejected with error [e]. Then the run ends with the checkpoint at [i],
    the RAW version holding the transcript committed so far, the status
    [paused] (not [error]), [lastError] set to the message of [e] (to a
    default text when that message is empty), and no save issued. And
    whatever happens, a run saves at most once, and only after it has
    marked the item [completed]. *)
Theorem failure_pauses_without_saving
  (env : App.Env) (item : MediaItem) (f : File) :
  App.apiKey env <> "" ->
  file item = Some f ->
  (forall (d : Q) (r : nat -> string) (isResuming : bool) (seed : string)
          (w : App.Run) (i : nat) (e : JsError),
      App.decodeAudioFile env f = Return d ->
      App.findItem (id item) (App.queue w) = Some item ->
      App.Entry env item isResuming seed ->
      processedChunks item <= i
        < App.resolveTotal item (processedChunks item) d ->
      (forall j q, processedChunks item <= j <= i -> App.interleave env j q = q) ->
      (forall j, processedChunks item <= j < i ->
                 App.transcribe env j = Return (r j)) ->
      App.transcribe env i = Throw e ->
      let final := App.startTranscription env item isResuming w in
      (exists fin,
         App.findItem (id item) (App.queue final) = Some fin
         /\ processedChunks fin = i
         /\ App.rawContent fin
            = Some (seed ++ App.transcriptOf r (processedChunks item)
                              (i - processedChunks item))%string
         /\ status fin = paused
         /\ status fin <> error
         /\ lastError fin = Some (strOr (message e) App.DEFAULT_ERROR)
         /\ (message e <> "" -> lastError fin = Some (message e)))
      /\ App.saves (App.effects final) = App.saves (App.effects w))
  /\ (forall (isResuming : bool) (w : App.Run),
        let final := App.startTranscription env item isResuming w in
        App.saves (App.effects final) = App.saves (App.effects w)
        \/ exists saved,
             App.saves (App.effects final) = App.saves (App.effects w) ++ [saved]
             /\ status saved = completed
             /\ App.allStatus (id item) completed (App.queue final)).
Proof.
  intros Hkey Hfile. split.
  - intros d r isResuming seed w i e Hdec Hlive Hentry Hrange Hquiet Hresp He.
    apply (failure_facts env item f d r Hkey Hfile Hdec isResuming seed w i
             Hlive Hentry Hrange); try assumption.
    + intros j q Hj. apply Hquiet. lia.
    + intros q. apply Hquiet. lia.
  - intros isResuming w.
    apply (start_effects env item f Hkey Hfile isResuming w).
Qed.

(** * Where a run starts, and what it does not check *)

Section StartIndex.

Import App.

Variable env : Env.
Variable f : File.

Hypothesis has_key : apiKey env <> "".

Lemma proceeds_sends (it : MediaItem) (rs : bool) (d : Q) (w0 : Run) :
  file it = Some f ->
  restarts env it rs = false ->
  decodeAudioFile env f = Return d ->
  processedChunks it < resolveTotal it (processedChunks it) d ->
  (forall q, interleave env (processedChunks it) q = q) ->
  exists m,
    sentChunks (effects (startTranscription env it rs w0))
    = sentChunks (effects w0) ++ seq (processedChunks it) (S m).
Proof.
  intros Hf Hno Hdec Hlt Hquiet.
  destruct (step_proceeds env (startTranscription_restarted env) it rs f w0
              has_key Hf Hno) as (base & full & iv & g & Hrun & Gid & Gst).
  unfold startTranscription. rewrite Hrun.
  destruct (tryCatch_sends_first env it f d (processedChunks it) base full iv
              (mkRun (mapItem (id it) g (queue w0))
                     (effects w0 ++ if asks it rs then [Confirm] else []))
              Hdec Hlt) as (m & Hm).
  - cbn [queue]. now apply allStatus_set.
  - exact Hquiet.
  - exists m. rewrite Hm. cbn [effects]. rewrite sentChunks_app.
    destruct (asks it rs); cbn [sentChunks]; now rewrite app_nil_r.
Qed.

(** C6, as the code has it. The loop starts at [item.processedChunks]
    whatever [resume] is, except after a restart, where it starts at 0.
    The caller is asked exactly when [processedChunks > 0] and the run is
    not a resume of an item that has versions. Declining is a restart:
    [processedChunks] and [totalChunks] are reset to 0 in the queue and
    the function calls itself with [resume = false] on the item with
    [processedChunks = 0]. Accepting continues from [processedChunks]. *)
Theorem start_index_resolution (item : MediaItem) (isResuming : bool)
  (d : Q) (w : Run) :
  file item = Some f ->
  let final := startTranscription env item isResuming w in
  let restart := restarts env item isResuming in
  let s := if restart then 0 else processedChunks item in
  let entered := if restart then restartItem item else item in
  confirms (effects final)
  = confirms (effects w) + (if asks item isResuming then 1 else 0)
  /\ (restart = true ->
      final = startTranscription env (restartItem item) false
                (mkRun (restartQueue item (queue w))
                       (effects w ++ [Confirm])))
  /\ (exists m, sentChunks (effects final) = sentChunks (effects w) ++ seq s m)
  /\ (decodeAudioFile env f = Return d ->
      s < resolveTotal entered s d ->
      (forall q, interleave env s q = q) ->
      exists m,
        sentChunks (effects final) = sentChunks (effects w) ++ s :: seq (S s) m).
Proof.
  intros Hfile final restart s entered.
  destruct (start_effects env item f has_key Hfile isResuming w)
    as (Hsent & Hconf & _).
  split; [exact Hconf|]. split; [| split; [exact Hsent|]].
  - intros Hre. exact (start_restarts env item isResuming f w has_key Hfile Hre).
  - intros Hdec Hlt Hquiet. unfold final, s, entered, restart in *.
    destruct (restarts env item isResuming) eqn:Hre.
    + rewrite (start_restarts env item isResuming f w has_key Hfile Hre).
      destruct (proceeds_sends (restartItem item) false d
                  (mkRun (restartQueue item (queue w)) (effects w ++ [Confirm]))
                  Hfile eq_refl Hdec Hlt Hquiet) as (m & Hm).
      exists m. rewrite Hm. cbn [effects processedChunks restartItem
                                  i_processedChunks seq].
      rewrite sentChunks_app. cbn [sentChunks]. now rewrite app_nil_r.
    + destruct (proceeds_sends item isResuming d w Hfile Hre Hdec Hlt Hquiet)
        as (m & Hm).
      exists m. exact Hm.
Qed.

(** ** No status check *)

Lemma step_ignores_argument_status
  (self : MediaItem -> bool -> Run -> Run) (s : Status) (item : MediaItem)
  (isResuming : bool) (w : Run) :
  (forall x rs w0, self (i_status s x) rs w0 = self x rs w0) ->
  startTranscription_step self env (i_status s item) isResuming w
  = startTranscription_step self env item isResuming w.
Proof.
  intros Hself. unfold startTranscription_step.
  destruct (String.eqb (apiKey env) ""); [reflexivity|].
  change (file (i_status s item)) with (file item).
  destruct (file item) as [f0|]; [| reflexivity].
  change (id (i_status s item)) with (id item).
  change (resolveVersion env (i_status s item) isResuming)
    with (resolveVersion env item isResuming).
  match goal with
  | |- context [resolveVersion env item isResuming ?q0] =>
      destruct (resolveVersion env item isResuming q0) as [[|b fl ivs q1] asked]
  end.
  - change (i_processedChunks 0 (i_status s item))
      with (i_status s (i_processedChunks 0 item)).
    apply Hself.
  - reflexivity.
Qed.

(** C4, as the code has it. [startTranscription] has no status guard: it
    never reads the status of the item it is given, and once the
    credential and the file are there it overwrites the status in the
    queue before reading it, so its result does not depend on either. In
    particular it runs in full on an item that is already [processing].
    What keeps a second run from starting is the call sites: the play
    button is rendered only for [idle] and [paused] items, the start
    overlay only for [idle] ones, the retry overlay only for [paused]
    ones, and the reconnection listener picks a [paused] item. *)
Theorem start_has_no_status_guard (item : MediaItem) (isResuming : bool)
  (s : Status) (w : Run) :
  startTranscription env (i_status s item) isResuming w
  = startTranscription env item isResuming w
  /\ (apiKey env <> "" -> file item <> None ->
      startTranscription env item isResuming
        (mkRun (updateItem (id item) (i_status s) (queue w)) (effects w))
      = startTranscription env item isResuming w)
  /\ (forall it rs,
        rowPlayButton item = Some (it, rs) ->
        status it = idle \/ status it = paused)
  /\ (forall it rs,
        startOverlayButton (Some item) = Some (it, rs) -> status it = idle)
  /\ (forall it rs,
        retryOverlayButton (Some item) = Some (it, rs) -> status it = paused)
  /\ (handleOnline env w = w
      \/ exists it,
          In it (queue w) /\ status it = paused
          /\ handleOnline env w = startTranscription env it true w).
Proof.
  split; [| split; [| split; [| split; [| split]]]].
  - unfold startTranscription.
    apply step_ignores_argument_status. intros x rs w0.
    unfold startTranscription_restarted.
    apply step_ignores_argument_status. reflexivity.
  - intros Hkey Hfile. unfold startTranscription, startTranscription_step.
    rewrite (proj2 (String.eqb_neq _ _) Hkey).
    destruct (file item) as [f0|]; [| congruence].
    cbn [queue effects]. unfold updateItem.
    rewrite mapItem_compose by reflexivity. reflexivity.
  - unfold rowPlayButton. intros it rs.
    destruct (status item) eqn:Hs; cbn; destruct (file item);
      try discriminate; intros [= <- _]; auto.
  - unfold startOverlayButton. intros it rs.
    destruct (status item) eqn:Hs; cbn; try discriminate.
    destruct (negb _ && _); [| discriminate]. now intros [= <- _].
  - unfold retryOverlayButton. intros it rs.
    destruct (status item) eqn:Hs; cbn; try discriminate. now intros [= <- _].
  - unfold handleOnline.
    destruct (find (fun i => status_eqb (status i) paused) (queue w))
      as [it|] eqn:Hfind; [| now left].
    destruct (String.eqb (apiKey env) ""); [now left|].
    right. exists it. apply find_some in Hfind as [Hin Hst].
    repeat split; [exact Hin |].
    destruct (status it); try discriminate. reflexivity.
Qed.

End StartIndex.

(** * Stage runs *)

Section StageRuns.

Import App.

Variable env : Env.
Variable s : ProcessingStage.
Variable parentVersionId : string.
Variable customPrompt : option string.

Local Abbreviation newVersion :=
  (newStageVersion env s parentVersionId customPrompt).

Lemma patchVersion_absent (b : string) (F : Version -> Version)
  (vs : list Version) :
  ~ In b (map vid vs) -> patchVersion b F vs = vs.
Proof.
  unfold patchVersion. induction vs as [|v vs IH]; [reflexivity|].
  cbn. intros Hn. rewrite IH by tauto.
  destruct (String.eqb_spec (vid v) b) as [E | _]; [| reflexivity].
  exfalso. apply Hn. now left.
Qed.

Lemma patchVersion_appended (F : Version -> Version) (vs : list Version) :
  ~ In (uuidv4 env) (map vid vs) ->
  patchVersion (uuidv4 env) F (vs ++ [newVersion]) = vs ++ [F newVersion].
Proof.
  intros Hn. unfold patchVersion. rewrite map_app.
  fold (patchVersion (uuidv4 env) F vs).
  rewrite patchVersion_absent by exact Hn. cbn.
  now rewrite String.eqb_refl.
Qed.

(** The progress interval only moves the progress bar. *)
Lemma ticks_shape (a : string) (n : nat) (q : Queue) :
  exists g,
    Nat.iter n (progressTick a) q = mapItem a g q
    /\ (forall x, id (g x) = id x)
    /\ (forall x, versions (g x) = versions x)
    /\ (forall x, currentVersionId (g x) = currentVersionId x)
    /\ (forall x, status (g x) = status x).
Proof.
  induction n as [|n (g & Hg & Gid & Gvs & Gcur & Gst)].
  - exists (fun x => x). cbn. rewrite mapItem_same. repeat split; reflexivity.
  - change (Nat.iter (S n) (progressTick a) q)
      with (progressTick a (Nat.iter n (progressTick a) q)).
    rewrite Hg. unfold progressTick.
    destruct (findItem a (mapItem a g q)) as [it|];
      [| exists g; repeat split; auto].
    destruct (status_eqb (status it) processing);
      [| exists g; repeat split; auto].
    eexists. rewrite mapItem_compose by exact Gid.
    split; [reflexivity|]. repeat split; intros x; cbn; auto.
Qed.

(** The item a stage run leaves behind, as a function of the item it
    found. *)
Lemma runStage_shape (a : option string) (w : Run) (active : MediaItem)
  (parentVersion : Version) :
  apiKey env <> "" ->
  activeItem a (queue w) = Some active ->
  findVersion parentVersionId (versions active) = Some parentVersion ->
  let outcome := processText env (content parentVersion) s customPrompt in
  exists H,
    queue (runStage env a s parentVersionId customPrompt w)
    = mapItem (id active) H (queue w)
    /\ (forall x, id (H x) = id x)
    /\ (forall x, currentVersionId (H x) = Some (uuidv4 env))
    /\ (forall x, status (H x) = snd (settled s outcome))
    /\ (forall x,
          versions (H x)
          = patchVersion (uuidv4 env) (fst (settled s outcome))
              (versions x ++ [newVersion])).
Proof.
  intros Hkey Hact Hpar outcome. unfold runStage.
  rewrite Hact, (proj2 (String.eqb_neq _ _) Hkey), Hpar.
  unfold stageStart, addVersionToItem, updateItem.
  rewrite mapItem_compose by reflexivity.
  match goal with
  | |- context [Nat.iter (ticks env) (progressTick ?a) ?q] =>
      destruct (ticks_shape a (ticks env) q)
        as (g & -> & Gid & Gvs & Gcur & Gst)
  end.
  rewrite mapItem_compose by reflexivity.
  fold outcome. unfold settled.
  destruct outcome as [result | e]; cbn [stageSettle queue fst snd];
    unfold updateItem;
    rewrite !mapItem_compose by (intros x; cbn; now rewrite ?Gid);
    eexists; (split; [reflexivity|]);
    repeat split; intros x; cbn -[patchVersion];
    rewrite ?Gid, ?Gcur, ?Gvs; reflexivity.
Qed.

Lemma Forall2_map_same {A : Type} (P : A -> A -> Prop) (h : A -> A)
  (l : list A) :
  (forall x, In x l -> P x (h x)) -> Forall2 P l (map h l).
Proof.
  induction l as [|x l IH]; intros H; cbn; constructor.
  - apply H. now left.
  - apply IH. intros y Hy. apply H. now right.
Qed.

Lemma findRaw_prefix (vs more : list Version) (raw : Version) :
  findRaw vs = Some raw -> findRaw (vs ++ more) = Some raw.
Proof.
  unfold findRaw. induction vs as [|v vs IH]; cbn; [discriminate|].
  destruct (stage_eqb (stage v) RAW); [trivial | exact IH].
Qed.

Lemma stageFrame_refl (x : MediaItem) :
  stageFrame newVersion x x.
Proof. unfold stageFrame. auto. Qed.

(** C7. A stage run (of any stage, succeeding or failing) leaves every
    version that existed before it untouched, in whatever state the item
    is, so in particular once it is [completed]: item by item, the
    versions afterwards are the versions before, followed by at most one
    new version, the one the run created; the RAW version found before is
    the RAW version found after, with the same content. The identifier
    drawn for the new version is assumed not to be in use. *)
Theorem stage_run_keeps_existing_versions (a : option string) (w : Run) :
  (forall x, In x (queue w) -> ~ In (uuidv4 env) (map vid (versions x))) ->
  Forall2 (stageFrame newVersion) (queue w)
    (queue (runStage env a s parentVersionId customPrompt w)).
Proof.
  intros Hfresh.
  assert (Hsame : Forall2 (stageFrame newVersion)
                    (queue w) (queue w)).
  { rewrite <- (map_id (queue w)) at 2. apply Forall2_map_same.
    intros x _. apply stageFrame_refl. }
  destruct (activeItem a (queue w)) as [active|] eqn:Hact;
    [| unfold runStage; now rewrite Hact].
  destruct (String.eqb_spec (apiKey env) "") as [Hk | Hk];
    [unfold runStage; rewrite Hact, Hk; exact Hsame |].
  destruct (findVersion parentVersionId (versions active)) as [pv|] eqn:Hpv;
    [| unfold runStage; rewrite Hact, (proj2 (String.eqb_neq _ _) Hk), Hpv;
       exact Hsame].
  destruct (runStage_shape a w active pv Hk Hact Hpv)
    as (H & -> & Hid & _ & _ & Hvs).
  unfold mapItem. apply Forall2_map_same. intros x Hx.
  destruct (String.eqb (id x) (id active)); [| apply stageFrame_refl].
  unfold stageFrame. rewrite Hid, Hvs.
  rewrite patchVersion_appended by (apply Hfresh; exact Hx).
  split; [reflexivity|]. split; [| split].
  - right.
    destruct (processText env (content pv) s customPrompt);
      do 2 eexists; reflexivity.
  - intros n v Hn. rewrite nth_error_app1; [exact Hn|].
    apply nth_error_Some. congruence.
  - intros raw. apply findRaw_prefix.
Qed.

Lemma findVersion_appended (vs : list Version) (v : Version) :
  ~ In (vid v) (map vid vs) -> findVersion (vid v) (vs ++ [v]) = Some v.
Proof.
  unfold findVersion. induction vs as [|x vs IH]; cbn.
  - now rewrite String.eqb_refl.
  - intros Hn. destruct (String.eqb_spec (vid x) (vid v)) as [E | _];
      [exfalso; apply Hn; now left | apply IH; tauto].
Qed.

(** C10. Let [runStage] be called with a credential, on an active item in
    which [parentVersionId] names a version, and let the identifier it
    draws be unused in that item. Before the remote call settles (after
    any number of progress ticks) the item ends with a new placeholder
    version whose parent is [parentVersionId], and [currentVersionId]
    names it. After the call settles, on success and on failure alike,
    [currentVersionId] still names that version, which is still the last
    one and still has the same parent; its content is the result on
    success and the failure marker on failure. *)
Theorem stage_pointer_follows_new_version (a : option string) (w : Run)
  (active : MediaItem) (parentVersion : Version) :
  apiKey env <> "" ->
  activeItem a (queue w) = Some active ->
  findVersion parentVersionId (versions active) = Some parentVersion ->
  ~ In (uuidv4 env) (map vid (versions active)) ->
  (forall n,
     exists mid,
       findItem (id active)
         (Nat.iter n (progressTick (id active))
            (stageStart env active s parentVersionId customPrompt (queue w)))
       = Some mid
       /\ versions mid = versions active ++ [newVersion]
       /\ currentVersionId mid = Some (vid newVersion)
       /\ currentVersion mid = Some newVersion)
  /\ parentId newVersion = Some parentVersionId
  /\ content newVersion = PLEASE_WAIT
  /\ exists fin v,
       findItem (id active)
         (queue (runStage env a s parentVersionId customPrompt w))
       = Some fin
       /\ versions fin = versions active ++ [v]
       /\ currentVersionId fin = Some (vid newVersion)
       /\ currentVersion fin = Some v
       /\ vid v = vid newVersion
       /\ parentId v = Some parentVersionId
       /\ match processText env (content parentVersion) s customPrompt with
          | Return result => content v = result /\ status fin = completed
          | Throw _ => content v = STAGE_FAILED /\ status fin = error
          end.
Proof.
  intros Hkey Hact Hpv Hfresh.
  assert (Hfound : findItem (id active) (queue w) = Some active).
  { unfold activeItem in Hact. destruct a as [a0|]; [| discriminate].
    now rewrite (findItem_id _ _ _ Hact). }
  split; [| split; [reflexivity | split; [reflexivity|]]].
  - intros n.
    destruct (ticks_shape (id active) n
                (stageStart env active s parentVersionId customPrompt (queue w)))
      as (g & -> & Gid & Gvs & Gcur & _).
    unfold stageStart, addVersionToItem, updateItem.
    rewrite !findItem_mapItem, Hfound by (intros x; now rewrite ?Gid).
    cbn [option_map]. eexists. split; [reflexivity|].
    unfold currentVersion. rewrite Gvs, Gcur. cbn -[findVersion newStageVersion].
    repeat split.
    apply (findVersion_appended (versions active) newVersion). exact Hfresh.
  - destruct (runStage_shape a w active parentVersion Hkey Hact Hpv)
      as (H & -> & Hid & Hcur & Hst & Hvs).
    rewrite findItem_mapItem, Hfound by exact Hid. cbn [option_map].
    exists (H active).
    exists (fst (settled s (processText env (content parentVersion) s
                              customPrompt)) newVersion).
    split; [reflexivity|].
    assert (Hv : versions (H active)
                 = versions active
                     ++ [fst (settled s (processText env (content parentVersion)
                                           s customPrompt)) newVersion]).
    { rewrite Hvs. now apply patchVersion_appended. }
    split; [exact Hv|]. split; [apply Hcur|].
    unfold currentVersion. rewrite Hcur, Hv, Hst.
    destruct (processText env (content parentVersion) s customPrompt);
      cbn [settled fst snd];
      (split; [| repeat split]);
      match goal with
      | |- findVersion _ (_ ++ [?v]) = _ =>
          apply (findVersion_appended (versions active) v); exact Hfresh
      end.
Qed.

End StageRuns.

(** * The theorems at the sample data *)


(** Chunk 1 fails on resume: the item is paused at checkpoint 1 with the
    error recorded and nothing saved. *)
Example failure_pauses_without_saving_witness :
  let final :=
    App.startTranscription Sample.failingAt1 Sample.checkpointed true
      (App.mkRun [Sample.checkpointed] []) in
  (exists fin,
     App.findItem "m1" (App.queue final) = Some fin
     /\ processedChunks fin = 1
     /\ App.rawContent fin = Some "a "
     /\ status fin = paused
     /\ lastError fin = Some "network down")
  /\ App.saves (App.effects final) = [].
Proof.
  destruct (failure_pauses_without_saving Sample.failingAt1 Sample.checkpointed
              Sample.audio ltac:(discriminate) eq_refl) as [Hfail _].
  destruct (Hfail 500%Q Sample.answers true "a "
              (App.mkRun [Sample.checkpointed] []) 1 (mkError "network down")
              eq_refl eq_refl
              (App.entry_resume Sample.failingAt1 Sample.checkpointed
                 (mkVersion "v1" RAW App.NAME_COMPLETING "a " None 7 None)
                 eq_refl)
              ltac:(vm_compute; lia) ltac:(reflexivity)
              ltac:(intros j Hj; cbn in Hj; lia) eq_refl)
    as [(fin & Hfin & Hpc & Hraw & Hst & _ & Herr & _) Hsaves].
  split; [| exact Hsaves].
  exists fin. repeat split; assumption.
Defined.



(** C6 as stated fails: a start with [resume = false] on the checkpointed
    item, the user choosing to continue, begins at chunk 1, where the
    stated rule gives 0. *)
Example continue_starts_at_checkpoint :
  let run :=
    App.startTranscription Sample.healthy Sample.checkpointed false
      (App.mkRun [Sample.checkpointed] []) in
  App.spec_startIndex false Sample.checkpointed = 0
  /\ App.confirms (App.effects run) = 1
  /\ App.sentChunks (App.effects run) = [1; 2]
  /\ hd_error (App.sentChunks (App.effects run))
     <> Some (App.spec_startIndex false Sample.checkpointed).
Proof.
  cbv zeta. split; [reflexivity|]. split; [reflexivity|].
  split; [reflexivity|]. vm_compute. discriminate.
Qed.

(** The same start through the theorem: the caller is asked once and the
    first chunk sent is chunk 1. *)
Example start_index_resolution_witness :
  let run :=
    App.startTranscription Sample.healthy Sample.checkpointed false
      (App.mkRun [Sample.checkpointed] []) in
  App.confirms (App.effects run) = 1
  /\ exists m, App.sentChunks (App.effects run) = 1 :: seq 2 m.
Proof.
  destruct (start_index_resolution Sample.healthy Sample.audio
              ltac:(discriminate) Sample.checkpointed false 500%Q
              (App.mkRun [Sample.checkpointed] []) eq_refl)
    as (Hconf & _ & _ & Hfirst).
  split; [exact Hconf|].
  apply Hfirst; [reflexivity | vm_compute; lia | reflexivity].
Defined.

(** C4 as stated fails: started on an item that is already [processing],
    the function does not return the queue unchanged; it sends chunks 1
    and 2 and rewrites the RAW version. *)
Example start_on_processing_item_runs :
  let before := App.mkRun [Sample.running] [] in
  let after := App.startTranscription Sample.healthy Sample.running true before in
  status Sample.running = processing
  /\ after <> before
  /\ App.sentChunks (App.effects after) = [1; 2]
  /\ option_map App.rawContent (App.findItem "m1" (App.queue after))
     = Some (Some "a b c ").
Proof.
  cbv zeta. split; [reflexivity|]. split; [| split; reflexivity].
  intros H. apply (f_equal App.effects) in H. vm_compute in H. discriminate H.
Qed.

(** On the running item the run is the one the paused item gets. *)
Example start_has_no_status_guard_witness :
  App.startTranscription Sample.healthy Sample.checkpointed true
    (App.mkRun [i_status processing Sample.checkpointed] [])
  = App.startTranscription Sample.healthy Sample.checkpointed true
      (App.mkRun [Sample.checkpointed] []).
Proof.
  destruct (start_has_no_status_guard Sample.healthy Sample.checkpointed true
              processing (App.mkRun [Sample.checkpointed] []))
    as (_ & Hqueue & _).
  apply (Hqueue ltac:(discriminate) ltac:(discriminate)).
Defined.

(** A FORMAL run on the transcribed item keeps the RAW version. *)
Example stage_run_keeps_existing_versions_witness :
  Forall2 (App.stageFrame (App.newStageVersion Sample.healthy FORMAL "v1" None))
    [Sample.transcribed]
    (App.queue (App.runStage Sample.healthy (Some "m1") FORMAL "v1" None
                  (App.mkRun [Sample.transcribed] []))).
Proof.
  apply (stage_run_keeps_existing_versions Sample.healthy FORMAL "v1" None
           (Some "m1") (App.mkRun [Sample.transcribed] [])).
  intros x [<- | []]. cbn. intros [H | []]. discriminate H.
Defined.

(** A FORMAL run that fails leaves the pointer on the failed version. *)
Example stage_pointer_follows_new_version_witness :
  exists fin v,
    App.findItem "m1"
      (App.queue (App.runStage Sample.stageDown (Some "m1") FORMAL "v1" None
                    (App.mkRun [Sample.transcribed] [])))
    = Some fin
    /\ currentVersionId fin = Some "v2"
    /\ App.currentVersion fin = Some v
    /\ content v = App.STAGE_FAILED
    /\ status fin = error.
Proof.
  destruct (stage_pointer_follows_new_version Sample.stageDown FORMAL "v1" None
              (Some "m1") (App.mkRun [Sample.transcribed] [])
              Sample.transcribed
              (mkVersion "v1" RAW App.NAME_COMPLETE "a b c " None 7 None)
              ltac:(discriminate) eq_refl eq_refl
              ltac:(cbn; intros [H | []]; discriminate H))
    as (_ & _ & _ & fin & v & Hfin & _ & Hcur & Hv & _ & _ & Hout).
  cbn in Hout. destruct Hout as [Hc Hs].
  exists fin, v. repeat split; assumption.
Defined.

(** * Further properties *)

(** X1. A first start on a fresh upload whose chunk calls all succeed, with
    nobody else touching the queue: the run slices exactly the windows of
    the source, sends chunks [0 .. n-1] in order, and leaves the item
    [completed] with its checkpoint at [n] and the whole transcript in its
    RAW version. *)
Theorem first_run_transcribes_every_window
  (env : App.Env) (f : File) (d : Q) (r : nat -> string) (a : string) :
  App.apiKey env <> "" ->
  App.decodeAudioFile env f = Return d ->
  (forall j q, App.interleave env j q = q) ->
  (forall j, j < App.chunkCount d -> App.transcribe env j = Return (r j)) ->
  let run := App.startTranscription env (App.uploaded a f) false
               (App.mkRun [App.uploaded a f] []) in
  exists fin,
    App.findItem a (App.queue run) = Some fin
    /\ status fin = completed
    /\ processedChunks fin = App.chunkCount d
    /\ App.rawContent fin = Some (App.transcriptOf r 0 (App.chunkCount d))
    /\ App.sentChunks (App.effects run) = seq 0 (App.chunkCount d)
    /\ App.slicedWindows (App.effects run) = App.windows d.
Proof.
  intros Hkey Hdec Hquiet Hresp.
  exact (first_run_completes env f d r Hkey Hdec a Hquiet Hresp).
Qed.

Example first_run_transcribes_every_window_witness :
  App.sentChunks
    (App.effects (App.startTranscription Sample.healthy
                    (App.uploaded "m1" Sample.audio) false
                    (App.mkRun [App.uploaded "m1" Sample.audio] [])))
  = [0; 1; 2].
Proof.
  destruct (first_run_transcribes_every_window Sample.healthy Sample.audio
              500%Q Sample.answers "m1" ltac:(discriminate) eq_refl
              ltac:(reflexivity) ltac:(reflexivity))
    as (fin & _ & _ & _ & _ & Hsent & _).
  exact Hsent.
Defined.

(** X2. Without a credential [startTranscription] only opens the key
    dialog, and with a credential but no source file it only alerts; in
    both cases the queue is left as it was and nothing is sent or saved. *)
Theorem start_guards_mutate_nothing
  (env : App.Env) (item : MediaItem) (isResuming : bool) (w : App.Run) :
  (App.apiKey env = "" ->
   App.startTranscription env item isResuming w
   = App.mkRun (App.queue w) (App.effects w ++ [App.ShowKeyModal]))
  /\ (App.apiKey env <> "" -> file item = None ->
      App.startTranscription env item isResuming w
      = App.mkRun (App.queue w) (App.effects w ++ [App.Alert])).
Proof.
  unfold App.startTranscription, App.startTranscription_step. split.
  - intros ->. reflexivity.
  - intros Hkey ->. now rewrite (proj2 (String.eqb_neq _ _) Hkey).
Qed.

Example start_guards_mutate_nothing_witness :
  App.queue
    (App.startTranscription Sample.healthy
       (mkItem "m1" None 500%Q completed 100 None [] None 3 3) false
       (App.mkRun [Sample.transcribed] []))
  = [Sample.transcribed].
Proof.
  destruct (start_guards_mutate_nothing Sample.healthy
              (mkItem "m1" None 500%Q completed 100 None [] None 3 3) false
              (App.mkRun [Sample.transcribed] [])) as [_ Hfile].
  rewrite (Hfile ltac:(discriminate) eq_refl). reflexivity.
Defined.

(** X3. A stage run keeps the lineage of the active item intact: if every
    parent named in the item was a version of the item before the run,
    the same holds after it, the new version included. The identifier
    drawn for the new version is assumed not to be in use. *)
Theorem stage_run_keeps_lineage
  (env : App.Env) (s : ProcessingStage) (parentVersionId : string)
  (customPrompt a : option string) (w : App.Run) (active fin : MediaItem) :
  App.activeItem a (App.queue w) = Some active ->
  ~ In (App.uuidv4 env) (map vid (versions active)) ->
  App.lineageOk active ->
  App.findItem (id active)
    (App.queue (App.runStage env a s parentVersionId customPrompt w))
  = Some fin ->
  App.lineageOk fin.
Proof.
  intros Hact Hfresh Hok Hfin.
  assert (Hfound : App.findItem (id active) (App.queue w) = Some active).
  { unfold App.activeItem in Hact. destruct a as [a0|]; [| discriminate].
    now rewrite (findItem_id _ _ _ Hact). }
  destruct (String.eqb (App.apiKey env) "") eqn:Hk.
  { assert (Hsame : App.runStage env a s parentVersionId customPrompt w = w)
      by (unfold App.runStage; now rewrite Hact, Hk).
    rewrite Hsame, Hfound in Hfin. now injection Hfin as <-. }
  apply String.eqb_neq in Hk.
  destruct (App.findVersion parentVersionId (versions active)) as [pv|] eqn:Hpv.
  2: { assert (Hsame : App.runStage env a s parentVersionId customPrompt w = w)
         by (unfold App.runStage;
             now rewrite Hact, (proj2 (String.eqb_neq _ _) Hk), Hpv).
       rewrite Hsame, Hfound in Hfin. now injection Hfin as <-. }
  destruct (runStage_shape env s parentVersionId customPrompt a w active pv
              Hk Hact Hpv) as (H & Hq & Hid & _ & _ & Hvs).
  rewrite Hq, findItem_mapItem, Hfound in Hfin by exact Hid.
  injection Hfin as <-.
  unfold App.lineageOk. rewrite Hvs.
  rewrite patchVersion_appended by exact Hfresh.
  intros v p Hin Hp. apply in_app_or in Hin as [Hold | [<- | []]].
  - destruct (Hok v p Hold Hp) as (u & Hu & Hvid).
    exists u. split; [apply in_or_app; now left | exact Hvid].
  - apply find_some in Hpv as [Hpin Hpeq]. apply String.eqb_eq in Hpeq.
    exists pv. split; [apply in_or_app; now left |].
    destruct (App.processText env (content pv) s customPrompt);
      cbn in Hp; congruence.
Qed.

Example stage_run_keeps_lineage_witness :
  exists fin,
    App.findItem "m1"
      (App.queue (App.runStage Sample.healthy (Some "m1") FORMAL "v1" None
                    (App.mkRun [Sample.transcribed] [])))
    = Some fin
    /\ App.lineageOk fin.
Proof.
  destruct (App.findItem "m1"
              (App.queue (App.runStage Sample.healthy (Some "m1") FORMAL "v1"
                            None (App.mkRun [Sample.transcribed] []))))
    as [fin|] eqn:Hfin; [| vm_compute in Hfin; discriminate Hfin].
  exists fin. split; [reflexivity|].
  apply (stage_run_keeps_lineage Sample.healthy FORMAL "v1" None (Some "m1")
           (App.mkRun [Sample.transcribed] []) Sample.transcribed fin eq_refl).
  - cbn. intros [H | []]. discriminate H.
  - intros v p [<- | []] Hp. discriminate Hp.
  - exact Hfin.
Defined.

(** * Cleaning a model response, reading a data URL *)

Section TextCleaning.

Import JsString Gemini.

Lemma lower_backtick (c : ascii) :
  Ascii.eqb (lower c) "`" = Ascii.eqb c "`".
Proof.
  destruct c as [[] [] [] [] [] [] [] []]; reflexivity.
Qed.

(** ** The bytes of white space *)

Lemma space1_byte (c : ascii) :
  space1 c = true -> 9 <= nat_of_ascii c <= 32.
Proof.
  unfold space1. cbv zeta.
  rewrite orb_true_iff, andb_true_iff, !Nat.leb_le, Nat.eqb_eq. lia.
Qed.

Lemma space2_bytes (c1 c2 : ascii) :
  space2 c1 c2 = true -> nat_of_ascii c1 = 194 /\ nat_of_ascii c2 = 160.
Proof.
  unfold space2. now rewrite andb_true_iff, !Nat.eqb_eq.
Qed.

Lemma space3_bytes (c1 c2 c3 : ascii) :
  space3 c1 c2 c3 = true ->
  225 <= nat_of_ascii c1 <= 239
  /\ 128 <= nat_of_ascii c2 <= 191
  /\ 128 <= nat_of_ascii c3 <= 191.
Proof.
  unfold space3. cbv zeta.
  rewrite !orb_true_iff, !andb_true_iff, !orb_true_iff, !andb_true_iff,
    !Nat.eqb_eq, !Nat.leb_le.
  lia.
Qed.

(** A white-space character starts with an ASCII byte or with the
    first byte of a longer encoding, never with a byte from inside
    one. *)
Lemma headSpace_first (c : ascii) (r rest : string) :
  headSpace (String c r) = Some rest ->
  nat_of_ascii c <= 32 \/ 194 <= nat_of_ascii c.
Proof.
  cbn [headSpace]. destruct (space1 c) eqn:E1.
  - intros _. left. apply space1_byte in E1. lia.
  - destruct r as [|c2 r2]; [discriminate|].
    destruct (space2 c c2) eqn:E2.
    + intros _. right. apply space2_bytes in E2. lia.
    + destruct r2 as [|c3 r3]; [discriminate|].
      destruct (space3 c c2 c3) eqn:E3; [|discriminate].
      intros _. right. apply space3_bytes in E3. lia.
Qed.

Lemma headSpace_split (s rest : string) :
  headSpace s = Some rest -> exists sp, s = (sp ++ rest)%string /\ sp <> "".
Proof.
  destruct s as [|c1 r1]; [discriminate|]. cbn [headSpace].
  destruct (space1 c1).
  { intros [= <-]. now exists (String c1 ""). }
  destruct r1 as [|c2 r2]; [discriminate|]. destruct (space2 c1 c2).
  { intros [= <-]. now exists (String c1 (String c2 "")). }
  destruct r2 as [|c3 r3]; [discriminate|].
  destruct (space3 c1 c2 c3); [|discriminate].
  intros [= <-]. now exists (String c1 (String c2 (String c3 ""))).
Qed.

Lemma string_length_app (a b : string) :
  String.length (a ++ b) = String.length a + String.length b.
Proof. induction a; cbn; congruence. Qed.

Lemma headSpace_length (s rest : string) :
  headSpace s = Some rest -> String.length rest < String.length s.
Proof.
  intros H. destruct (headSpace_split s rest H) as (sp & -> & Hsp).
  rewrite string_length_app. destruct sp; [congruence | cbn; lia].
Qed.

(** What follows the string does not change the white-space character
    it starts with. *)
Lemma headSpace_app (s rest t : string) :
  headSpace s = Some rest -> headSpace (s ++ t) = Some (rest ++ t)%string.
Proof.
  destruct s as [|c1 r1]; [discriminate|]. cbn [headSpace append].
  destruct (space1 c1).
  { now intros [= <-]. }
  destruct r1 as [|c2 r2]; [discriminate|]. cbn [append].
  destruct (space2 c1 c2).
  { now intros [= <-]. }
  destruct r2 as [|c3 r3]; [discriminate|]. cbn [append].
  destruct (space3 c1 c2 c3); [|discriminate].
  now intros [= <-].
Qed.

(** Nor does it make one appear, unless it starts inside an
    encoding. *)
Lemma headSpace_none_app (s t : string) :
  s <> "" -> headSpace s = None ->
  (forall c r, t = String c r -> ~ 128 <= nat_of_ascii c <= 191) ->
  headSpace (s ++ t) = None.
Proof.
  intros Hs Hn Ht. destruct s as [|c1 r1]; [congruence|].
  cbn [headSpace append] in *. destruct (space1 c1); [discriminate|].
  destruct r1 as [|c2 r2]; cbn [append].
  - destruct t as [|t1 t']; [reflexivity|].
    pose proof (Ht t1 t' eq_refl) as Hc.
    destruct (space2 c1 t1) eqn:E2.
    { apply space2_bytes in E2. lia. }
    destruct t' as [|t2 t'']; [reflexivity|].
    destruct (space3 c1 t1 t2) eqn:E3; [|reflexivity].
    apply space3_bytes in E3. lia.
  - destruct (space2 c1 c2); [discriminate|].
    destruct r2 as [|c3 r3]; cbn [append].
    + destruct t as [|t1 t']; [reflexivity|].
      pose proof (Ht t1 t' eq_refl) as Hc.
      destruct (space3 c1 c2 t1) eqn:E3; [|reflexivity].
      apply space3_bytes in E3. lia.
    + destruct (space3 c1 c2 c3); [discriminate | reflexivity].
Qed.

(** ** Dropping and trimming *)

Lemma dropSpaces_unfold (s : string) :
  dropSpaces s
  = match headSpace s with
    | Some rest => dropSpaces rest
    | None => s
    end.
Proof.
  destruct s as [|c1 r1]; [reflexivity|]. cbn [dropSpaces headSpace].
  destruct (space1 c1); [reflexivity|].
  destruct r1 as [|c2 r2]; [reflexivity|].
  destruct (space2 c1 c2); [reflexivity|].
  destruct r2 as [|c3 r3]; [reflexivity|].
  destruct (space3 c1 c2 c3); reflexivity.
Qed.

Lemma by_length (P : string -> Prop) :
  (forall s, (forall t, String.length t < String.length s -> P t) -> P s) ->
  forall s, P s.
Proof. intros H. apply (induction_ltof1 _ String.length). exact H. Qed.

Lemma length_dropSpaces (s : string) :
  String.length (dropSpaces s) <= String.length s.
Proof.
  induction s as [s IH] using by_length. rewrite dropSpaces_unfold.
  destruct (headSpace s) as [rest|] eqn:E; [|lia].
  apply headSpace_length in E. specialize (IH rest E). lia.
Qed.

Lemma dropSpaces_fixed (s : string) : headSpace s = None -> dropSpaces s = s.
Proof. intros H. now rewrite dropSpaces_unfold, H. Qed.

Lemma dropSpaces_head (s : string) : headSpace (dropSpaces s) = None.
Proof.
  induction s as [s IH] using by_length. rewrite dropSpaces_unfold.
  destruct (headSpace s) as [rest|] eqn:E; [|exact E].
  apply IH. now apply headSpace_length.
Qed.

Lemma dropSpaces_idem (s : string) : dropSpaces (dropSpaces s) = dropSpaces s.
Proof. apply dropSpaces_fixed, dropSpaces_head. Qed.

(** What [\s*] leaves is the end of the string. *)
Lemma dropSpaces_suffix (s : string) :
  exists p, s = (p ++ dropSpaces s)%string.
Proof.
  induction s as [s IH] using by_length. rewrite dropSpaces_unfold.
  destruct (headSpace s) as [rest|] eqn:E; [|now exists ""].
  destruct (headSpace_split s rest E) as (sp & Hs & _).
  destruct (IH rest (headSpace_length _ _ E)) as (p & Hp).
  exists (sp ++ p)%string. rewrite append_assoc, <- Hp. exact Hs.
Qed.

Lemma allSpaces_step (s rest : string) :
  headSpace s = Some rest -> allSpaces s = allSpaces rest.
Proof. intros H. unfold allSpaces. now rewrite dropSpaces_unfold, H. Qed.

Lemma allSpaces_head (s : string) :
  s <> "" -> allSpaces s = true -> exists rest, headSpace s = Some rest.
Proof.
  intros Hs H. destruct (headSpace s) as [rest|] eqn:E; [now exists rest|].
  unfold allSpaces in H. rewrite (dropSpaces_fixed s E) in H.
  destruct s; [congruence | discriminate].
Qed.

Lemma dropSpaces_spaces (ws s : string) :
  allSpaces ws = true -> dropSpaces (ws ++ s) = dropSpaces s.
Proof.
  induction ws as [ws IH] using by_length. intros H.
  destruct ws as [|c r]; [reflexivity|].
  destruct (allSpaces_head (String c r) ltac:(discriminate) H) as (rest & E).
  rewrite (dropSpaces_unfold (String c r ++ s)), (headSpace_app _ _ s E).
  apply IH; [now apply headSpace_length | now rewrite <- (allSpaces_step _ _ E)].
Qed.

Lemma allSpaces_app (a b : string) :
  allSpaces a = true -> allSpaces (a ++ b) = allSpaces b.
Proof. intros H. unfold allSpaces. now rewrite dropSpaces_spaces. Qed.

(** Text that is not white space only keeps what follows it, provided
    that does not start inside an encoding. *)
Lemma dropSpaces_app (s t : string) :
  allSpaces s = false ->
  (forall c r, t = String c r -> ~ 128 <= nat_of_ascii c <= 191) ->
  dropSpaces (s ++ t) = (dropSpaces s ++ t)%string.
Proof.
  induction s as [s IH] using by_length. intros H Ht.
  destruct (headSpace s) as [rest|] eqn:E.
  - rewrite (dropSpaces_unfold (s ++ t)), (headSpace_app _ _ t E).
    rewrite (dropSpaces_unfold s), E.
    apply IH; [now apply headSpace_length | | exact Ht].
    now rewrite <- (allSpaces_step _ _ E).
  - assert (s <> "") as Hs by (intros ->; discriminate).
    rewrite (dropSpaces_fixed s E).
    apply dropSpaces_fixed, headSpace_none_app; assumption.
Qed.

(** [trimEnd] takes white space off the end, and nothing else. *)
Lemma trimEnd_split (s : string) :
  exists ws, s = (trimEnd s ++ ws)%string /\ allSpaces ws = true.
Proof.
  induction s as [|c r IH]; [now exists ""|]. cbn [trimEnd].
  destruct (allSpaces (String c r)) eqn:E.
  - now exists (String c r).
  - destruct IH as (ws & Hr & Hws). exists ws.
    split; [cbn [append]; now rewrite <- Hr | exact Hws].
Qed.

Lemma length_trimEnd (s : string) :
  String.length (trimEnd s) <= String.length s.
Proof.
  destruct (trimEnd_split s) as (ws & H & _).
  rewrite H at 2. rewrite string_length_app. lia.
Qed.

(** A string that [trim] leaves alone has no white space at its head... *)
Lemma trim_fixed_head (s : string) : trim s = s -> dropSpaces s = s.
Proof.
  unfold trim. intros H. rewrite dropSpaces_unfold.
  destruct (headSpace s) as [rest|] eqn:E; [|reflexivity].
  pose proof (length_trimEnd (dropSpaces s)) as H1.
  rewrite H, dropSpaces_unfold, E in H1.
  pose proof (length_dropSpaces rest) as H2.
  apply headSpace_length in E. lia.
Qed.

(** ... nor at its end. *)
Lemma trim_fixed_end (s : string) : trim s = s -> trimEnd s = s.
Proof.
  intros H. pose proof (trim_fixed_head s H) as Hd.
  unfold trim in H. now rewrite Hd in H.
Qed.

Lemma trimEnd_tail (c : ascii) (r : string) :
  trimEnd (String c r) = String c r -> trimEnd r = r.
Proof.
  cbn [trimEnd]. destruct (allSpaces (String c r)); [discriminate|].
  now intros [= ->].
Qed.

Lemma trimEnd_fixed_text (s : string) :
  s <> "" -> trimEnd s = s -> allSpaces s = false.
Proof.
  intros Hs H. destruct s as [|c r]; [congruence|]. cbn [trimEnd] in H.
  destruct (allSpaces (String c r)); [discriminate | reflexivity].
Qed.

Lemma trimEnd_idem (s : string) : trimEnd (trimEnd s) = trimEnd s.
Proof.
  induction s as [|c r IH]; [reflexivity|]. cbn [trimEnd].
  destruct (allSpaces (String c r)) eqn:E; [reflexivity|].
  cbn [trimEnd]. rewrite IH.
  destruct (allSpaces (String c (trimEnd r))) eqn:E'; [|reflexivity].
  destruct (trimEnd_split r) as (ws & Hr & Hws).
  assert (allSpaces (String c r) = true) as C; [|congruence].
  rewrite Hr. change (String c (trimEnd r ++ ws))
    with (String c (trimEnd r) ++ ws)%string.
  now rewrite (allSpaces_app _ _ E').
Qed.

(** What [trimEnd] returns does not start with white space if its
    argument did not. *)
Lemma dropSpaces_trimEnd (s : string) :
  dropSpaces s = s -> dropSpaces (trimEnd s) = trimEnd s.
Proof.
  intros H. apply dropSpaces_fixed.
  destruct (headSpace (trimEnd s)) as [rest|] eqn:E; [|reflexivity].
  destruct (trimEnd_split s) as (ws & Hs & _).
  pose proof (headSpace_app _ _ ws E) as E'. rewrite <- Hs in E'.
  rewrite dropSpaces_unfold, E' in H.
  pose proof (length_dropSpaces (rest ++ ws)) as L1.
  pose proof (headSpace_length _ _ E') as L2.
  rewrite H in L1. lia.
Qed.

Lemma trim_idem (s : string) : trim (trim s) = trim s.
Proof.
  unfold trim.
  rewrite (dropSpaces_trimEnd (dropSpaces s) (dropSpaces_idem s)).
  apply trimEnd_idem.
Qed.

(** ** The closing fence *)

(** White space followed by the fence does not start inside an
    encoding. *)
Lemma spaces_fence_head (ws : string) (c : ascii) (r : string) :
  allSpaces ws = true -> (ws ++ FENCE)%string = String c r ->
  ~ 128 <= nat_of_ascii c <= 191.
Proof.
  intros Hws E. destruct ws as [|c' r'].
  - cbn in E. injection E as <- _. cbn. lia.
  - cbn [append] in E. injection E as -> _.
    destruct (allSpaces_head (String c r') ltac:(discriminate) Hws)
      as (rest & Hh).
    apply headSpace_first in Hh. lia.
Qed.

(** A string that does not end with white space, followed by white
    space and the fence, is longer than the fence once its leading white
    space is dropped. *)
Lemma closing_not_inside (s ws : string) :
  s <> "" -> trimEnd s = s -> allSpaces ws = true ->
  3 < String.length (dropSpaces (s ++ ws ++ FENCE)).
Proof.
  intros Hs H Hws. pose proof (trimEnd_fixed_text s Hs H) as Htext.
  rewrite (dropSpaces_app s _ Htext)
    by (intros c r; apply spaces_fence_head; exact Hws).
  rewrite !string_length_app. cbn [String.length FENCE].
  unfold allSpaces in Htext. destruct (dropSpaces s); [discriminate|].
  cbn. lia.
Qed.

Lemma stripClosing_at (s : string) :
  closingAt s = true -> stripClosing s = "".
Proof. intros H. destruct s; cbn [stripClosing]; now rewrite H. Qed.

Lemma stripClosing_body (body ws : string) :
  trimEnd body = body -> allSpaces ws = true ->
  stripClosing (body ++ ws ++ FENCE) = body.
Proof.
  intros Hb Hws. induction body as [|c r IH].
  - cbn [append]. apply stripClosing_at. unfold closingAt.
    now rewrite dropSpaces_spaces.
  - cbn [append stripClosing].
    pose proof (closing_not_inside (String c r) ws ltac:(discriminate) Hb Hws)
      as L.
    cbn [append] in L. unfold closingAt.
    destruct (String.eqb _ FENCE) eqn:E.
    + apply String.eqb_eq in E. rewrite E in L. cbn in L. lia.
    + f_equal. apply IH. exact (trimEnd_tail _ _ Hb).
Qed.

Lemma endsWith_app (p x : string) : endsWith x (p ++ x) = true.
Proof.
  induction p as [|c r IH]; cbn [append].
  - destruct x; cbn [endsWith]; now rewrite String.eqb_refl.
  - cbn [endsWith]. rewrite IH. apply orb_true_r.
Qed.

(** Without the fence at its end a string has no match for the closing
    pattern. *)
Lemma stripClosing_none (s : string) :
  endsWith FENCE s = false -> stripClosing s = s.
Proof.
  induction s as [|c r IH]; intros H.
  - reflexivity.
  - cbn [stripClosing].
    assert (closingAt (String c r) = false) as ->.
    { unfold closingAt. apply String.eqb_neq. intros E.
      destruct (dropSpaces_suffix (String c r)) as (p & Hp).
      rewrite E in Hp. rewrite Hp, endsWith_app in H. discriminate. }
    cbn [endsWith] in H. apply orb_false_elim in H as [_ H2].
    f_equal. apply IH. exact H2.
Qed.

(** The first byte of white space is not a letter. *)
Lemma space_not_letter (ws rest : string) (a : ascii) (w : string) :
  ws <> "" -> allSpaces ws = true ->
  97 <= nat_of_ascii (lower a) <= 122 ->
  matchWord (String a w) (ws ++ rest) = None.
Proof.
  intros Hne Hws Ha. destruct ws as [|c r]; [congruence|].
  destruct (allSpaces_head _ Hne Hws) as (rest' & Hh).
  apply headSpace_first in Hh. cbn [append matchWord].
  assert (lower c = c) as ->.
  { unfold lower. cbv zeta.
    destruct ((65 <=? nat_of_ascii c) && (nat_of_ascii c <=? 90)) eqn:E;
      [|reflexivity].
    apply andb_prop in E as [E1 E2].
    apply Nat.leb_le in E1, E2. lia. }
  destruct (Ascii.eqb_spec c (lower a)) as [-> | _]; [lia | reflexivity].
Qed.

Lemma matchWord_fence (s : string) :
  String.prefix FENCE s = false -> matchWord FENCE s = None.
Proof.
  unfold FENCE.
  destruct s as [|a [|b [|c r]]]; cbn -[ascii_dec];
    rewrite ?lower_backtick;
    repeat match goal with
           | |- context [Ascii.eqb ?x "`"] =>
               destruct (Ascii.eqb_spec x "`"); subst
           | |- context [ascii_dec ?x ?y] => destruct (ascii_dec x y); subst
           end; try congruence.
  destruct r; cbn; congruence.
Qed.

Lemma matchWord_app (w tag rest : string) :
  matchWord w tag = Some "" -> matchWord w (tag ++ rest) = Some rest.
Proof.
  revert tag. induction w as [|a w IH]; intros tag; cbn.
  - now intros [= ->].
  - destruct tag as [|c t]; [discriminate|]. cbn.
    destruct (Ascii.eqb (lower c) (lower a)); [apply IH | discriminate].
Qed.

Lemma stripOpening_fenced (rest : string) :
  stripOpening (FENCE ++ rest)
  = dropSpaces
      match matchWord "markdown" rest with
      | Some r1 => r1
      | None =>
          match matchWord "html" rest with
          | Some r2 => r2
          | None => rest
          end
      end.
Proof. reflexivity. Qed.

(** X4. Text that neither starts nor ends with the fence is returned
    trimmed, and whatever the text, the result carries no white space at
    either end (trimming it again changes nothing). *)
Theorem clean_response_plain (text : string) :
  String.prefix FENCE text = false ->
  endsWith FENCE text = false ->
  cleanResponse text = trim text
  /\ forall any, trim (cleanResponse any) = cleanResponse any.
Proof.
  intros Hopen Hclose. split.
  - unfold cleanResponse, stripOpening.
    rewrite (matchWord_fence text Hopen).
    now rewrite (stripClosing_none text Hclose).
  - intros any. apply trim_idem.
Qed.

(** X5. A fenced block -- the fence, an optional tag [markdown] or
    [html] in any letter case, white space, a body with no white space
    at its ends, optional white space, the fence -- is reduced to its
    body. *)
Theorem clean_response_fenced (tag ws1 body ws2 : string) :
  tag = "" \/ matchWord "markdown" tag = Some ""
           \/ matchWord "html" tag = Some "" ->
  ws1 <> "" -> allSpaces ws1 = true -> allSpaces ws2 = true ->
  trim body = body ->
  cleanResponse (FENCE ++ tag ++ ws1 ++ body ++ ws2 ++ FENCE) = body.
Proof.
  intros Htag Hne Hws1 Hws2 Hbody.
  assert (trim (stripClosing (dropSpaces (ws1 ++ body ++ ws2 ++ FENCE)))
          = body) as Tail.
  { rewrite (dropSpaces_spaces ws1 _ Hws1).
    destruct body as [|c r].
    - cbn [append]. rewrite (dropSpaces_spaces ws2 _ Hws2). reflexivity.
    - assert (dropSpaces (String c r ++ ws2 ++ FENCE)
              = (String c r ++ ws2 ++ FENCE)%string) as ->.
      { rewrite dropSpaces_app.
        - now rewrite (trim_fixed_head _ Hbody).
        - apply trimEnd_fixed_text; [discriminate|].
          exact (trim_fixed_end _ Hbody).
        - intros c0 r0. apply spaces_fence_head. exact Hws2. }
      rewrite (stripClosing_body _ ws2 (trim_fixed_end _ Hbody) Hws2).
      exact Hbody. }
  unfold cleanResponse. rewrite stripOpening_fenced.
  destruct Htag as [-> | [Hm | Hh]].
  - cbn [append].
    rewrite (space_not_letter ws1 _ "m"%char "arkdown" Hne Hws1
               ltac:(vm_compute; lia)).
    rewrite (space_not_letter ws1 _ "h"%char "tml" Hne Hws1
               ltac:(vm_compute; lia)).
    exact Tail.
  - rewrite (matchWord_app _ _ _ Hm). exact Tail.
  - rewrite (matchWord_app "html" _ _ Hh).
    destruct tag as [|c t]; [discriminate|]. cbn [matchWord] in Hh.
    destruct (Ascii.eqb (lower c) (lower "h")) eqn:E; [|discriminate].
    apply Ascii.eqb_eq in E.
    replace (matchWord "markdown" _) with (@None string)
      by (cbn [matchWord append]; now rewrite E).
    exact Tail.
Qed.

(** ** Data URLs *)

Lemma includes_char_cons (ch c : ascii) (r : string) :
  includes (String ch "") (String c r)
  = Ascii.eqb c ch || includes (String ch "") r.
Proof.
  cbn -[ascii_dec]. destruct (ascii_dec ch c) as [<- | N].
  - rewrite Ascii.eqb_refl. now destruct r.
  - apply not_eq_sym, Ascii.eqb_neq in N. now rewrite N.
Qed.

Lemma includes_comma_cons (c : ascii) (r : string) :
  includes "," (String c r) = Ascii.eqb c "," || includes "," r.
Proof. apply includes_char_cons. Qed.

Lemma split_plain (s : string) :
  includes "," s = false -> split "," s = [s].
Proof.
  induction s as [|c r IH]; [reflexivity|].
  rewrite includes_comma_cons. intros H.
  apply orb_false_elim in H as [Hc Hr].
  cbn [split]. now rewrite Hc, (IH Hr).
Qed.

Lemma split_header (header rest : string) :
  includes "," header = false ->
  split "," (header ++ String "," rest) = header :: split "," rest.
Proof.
  induction header as [|c r IH]; [reflexivity|].
  rewrite includes_comma_cons. intros H.
  apply orb_false_elim in H as [Hc Hr].
  cbn [append split]. now rewrite Hc, (IH Hr).
Qed.

Lemma includes_app_comma (header rest : string) :
  includes "," (header ++ String "," rest) = true.
Proof.
  induction header as [|c r IH].
  - cbn [append]. rewrite includes_comma_cons. reflexivity.
  - cbn [append]. rewrite includes_comma_cons, IH. apply orb_true_r.
Qed.

Lemma split_two (s : string) :
  includes "," s = true -> exists a b rest, split "," s = a :: b :: rest.
Proof.
  induction s as [|c r IH]; [discriminate|].
  rewrite includes_comma_cons. cbn [split].
  destruct (Ascii.eqb c ",") eqn:E.
  - intros _. destruct r as [|c' r'].
    + now exists "", "", [].
    + destruct (split "," (String c' r')) as [|b rest] eqn:S.
      * cbn [split] in S. destruct (Ascii.eqb c' ","); [discriminate|].
        destruct (split "," r'); discriminate.
      * now exists "", b, rest.
  - cbn [orb]. intros H. destruct (IH H) as (a & b & rest & ->).
    now exists (String c a), b, rest.
Qed.

(** X6. From a data URL -- a header without comma, a comma, a payload
    without comma -- [blobToBase64] resolves exactly the payload; a
    result without comma is resolved as it is; and no result makes it
    resolve [undefined]. *)
Theorem data_url_payload (header payload : string) :
  includes "," header = false ->
  includes "," payload = false ->
  blobToBase64 (Return (header ++ "," ++ payload)%string)
  = Return (Some payload)
  /\ blobToBase64 (Return payload) = Return (Some payload)
  /\ forall result, exists data,
       blobToBase64 (Return result) = Return (Some data).
Proof.
  intros Hh Hp. split; [|split].
  - unfold blobToBase64. cbn [append].
    rewrite includes_app_comma, (split_header _ _ Hh), (split_plain _ Hp).
    reflexivity.
  - unfold blobToBase64. now rewrite Hp.
  - intros result. unfold blobToBase64.
    destruct (includes "," result) eqn:E.
    + destruct (split_two _ E) as (a & b & rest & ->). now exists b.
    + now exists result.
Qed.

End TextCleaning.

Example clean_response_plain_witness :
  Gemini.cleanResponse "  salam donya  " = JsString.trim "  salam donya  ".
Proof.
  exact (proj1 (clean_response_plain "  salam donya  " eq_refl eq_refl)).
Defined.

(** A fenced answer whose body is set off by a line feed and a no-break
    space (U+00A0, the bytes C2 A0). *)
Example clean_response_fenced_witness :
  let nl := String (ascii_of_nat 10) "" in
  let nbsp := String (ascii_of_nat 194) (String (ascii_of_nat 160) "") in
  Gemini.cleanResponse
    (Gemini.FENCE ++ "Markdown" ++ (nl ++ nbsp) ++ "salam donya"
       ++ (nbsp ++ nl) ++ Gemini.FENCE)
  = "salam donya".
Proof.
  intros nl nbsp.
  apply (clean_response_fenced "Markdown" (nl ++ nbsp) "salam donya"
           (nbsp ++ nl));
    first [ discriminate | reflexivity | right; left; reflexivity ].
Defined.

Example data_url_payload_witness :
  Gemini.blobToBase64 (Return "data:audio/mp3;base64,SUQzBAAAAAAA")
  = Return (Some "SUQzBAAAAAAA").
Proof.
  exact (proj1 (data_url_payload "data:audio/mp3;base64" "SUQzBAAAAAAA"
                  eq_refl eq_refl)).
Defined.

(** * Encoding a rendered buffer *)

Section SampleConversion.

Import JsString Gemini.
Local Open Scope Z_scope.

(** Truncation is the floor of a non-negative number and the ceiling
    of a negative one. *)
Lemma truncate_floor (x : Q) : (0 <= x)%Q -> truncate x = Qfloor x.
Proof.
  destruct x as [n d]. unfold Qle, truncate, Qfloor. cbn. intros H.
  apply Z.quot_div_nonneg; lia.
Qed.

Lemma truncate_ceiling (x : Q) : (x <= 0)%Q -> truncate x = Qceiling x.
Proof.
  destruct x as [n d]. unfold Qle, truncate, Qceiling, Qfloor. cbn.
  intros H.
  rewrite <- (Z.opp_involutive n) at 1. rewrite Z.quot_opp_l by lia.
  f_equal. apply Z.quot_div_nonneg; lia.
Qed.

Lemma truncate_mono (x y : Q) : (x <= y)%Q -> truncate x <= truncate y.
Proof.
  intros H. destruct (Qlt_le_dec x 0) as [Hx | Hx];
    destruct (Qlt_le_dec y 0) as [Hy | Hy].
  - rewrite !truncate_ceiling by lra. now apply Qceiling_resp_le.
  - rewrite (truncate_ceiling x), (truncate_floor y) by lra.
    assert (Qceiling x <= Qceiling 0) by (apply Qceiling_resp_le; lra).
    assert (Qfloor 0 <= Qfloor y) by (apply Qfloor_resp_le; lra).
    cbn in *. lia.
  - lra.
  - rewrite !truncate_floor by lra. now apply Qfloor_resp_le.
Qed.

Lemma truncate_comp (x y : Q) : (x == y)%Q -> truncate x = truncate y.
Proof.
  intros H. apply Z.le_antisymm; apply truncate_mono; lra.
Qed.

Lemma truncate_Z (z : Z) : truncate (inject_Z z) = z.
Proof. unfold truncate. cbn. apply Z.quot_1_r. Qed.

Lemma clamp_bounds (x : Q) : (-1 <= clamp x /\ clamp x <= 1)%Q.
Proof.
  unfold clamp.
  destruct (Q.max_spec (-1) (Qmin 1 x)) as [[? ->] | [? ->]];
    destruct (Q.min_spec 1 x) as [[? E] | [? E]]; rewrite ?E in *; lra.
Qed.

Lemma clamp_mono (x y : Q) : (x <= y)%Q -> (clamp x <= clamp y)%Q.
Proof.
  intros H. unfold clamp.
  apply Q.max_le_compat_l, Q.min_le_compat_l, H.
Qed.

Lemma clamp_low (x : Q) : (x <= -1)%Q -> (clamp x == -1)%Q.
Proof.
  intros H. unfold clamp. rewrite (Q.min_r 1 x) by lra.
  now apply Q.max_l.
Qed.

Lemma clamp_high (x : Q) : (1 <= x)%Q -> (clamp x == 1)%Q.
Proof.
  intros H. unfold clamp. rewrite (Q.min_l 1 x) by lra.
  apply Q.max_r. lra.
Qed.

Lemma scale_bounds (x : Q) : (-32768 <= scale x /\ scale x <= 32767)%Q.
Proof.
  unfold scale. pose proof (clamp_bounds x) as [L U].
  destruct (Qle_bool 0 (clamp x)) eqn:E.
  - apply Qle_bool_iff in E. lra.
  - assert (~ (0 <= clamp x)%Q) by (rewrite <- Qle_bool_iff; congruence).
    lra.
Qed.

Lemma scale_mono (x y : Q) : (x <= y)%Q -> (scale x <= scale y)%Q.
Proof.
  intros H. pose proof (clamp_mono x y H) as M. unfold scale.
  destruct (Qle_bool 0 (clamp x)) eqn:Ex;
    destruct (Qle_bool 0 (clamp y)) eqn:Ey;
    try (apply Qle_bool_iff in Ex); try (apply Qle_bool_iff in Ey);
    try (assert (~ (0 <= clamp x)%Q)
           by (rewrite <- Qle_bool_iff; congruence));
    try (assert (~ (0 <= clamp y)%Q)
           by (rewrite <- Qle_bool_iff; congruence));
    lra.
Qed.

Lemma toInt16_small (x : Q) :
  -32768 <= truncate x <= 32767 -> toInt16 x = truncate x.
Proof.
  intros H. unfold toInt16. destruct (Z_lt_le_dec (truncate x) 0) as [N | P].
  - replace (truncate x mod 65536) with (truncate x + 65536).
    + destruct (Z.ltb_spec (truncate x + 65536) 32768); lia.
    + apply (Z.mod_unique_pos (truncate x) 65536 (-1)); lia.
  - rewrite Z.mod_small by lia.
    destruct (Z.ltb_spec (truncate x) 32768); lia.
Qed.

Lemma truncate_scale_bounds (x : Q) : -32768 <= truncate (scale x) <= 32767.
Proof.
  pose proof (scale_bounds x) as [L U].
  pose proof (truncate_mono _ _ L) as L'.
  pose proof (truncate_mono _ _ U) as U'.
  change (-32768)%Q with (inject_Z (-32768)) in L'.
  change 32767%Q with (inject_Z 32767) in U'.
  rewrite truncate_Z in L', U'. lia.
Qed.

(** X7. The conversion of a sample to 16 bits clips and never wraps
    around: the stored value is the scaled sample with its fraction
    dropped, it is [-32768] for every sample at or below [-1] and
    [32767] for every sample at or above [1], and a larger sample is
    never stored as a smaller value. *)
Theorem sample_conversion_clips (x y : Q) :
  toInt16 (scale x) = truncate (scale x)
  /\ -32768 <= toInt16 (scale x) <= 32767
  /\ ((x <= -1)%Q -> toInt16 (scale x) = -32768)
  /\ ((1 <= x)%Q -> toInt16 (scale x) = 32767)
  /\ ((x <= y)%Q -> toInt16 (scale x) <= toInt16 (scale y)).
Proof.
  pose proof (truncate_scale_bounds x) as Bx.
  pose proof (truncate_scale_bounds y) as By.
  rewrite !toInt16_small by assumption.
  split; [reflexivity|]. split; [exact Bx|]. split; [|split].
  - intros H. pose proof (clamp_low x H) as C.
    rewrite (truncate_comp (scale x) (inject_Z (-32768))).
    + apply truncate_Z.
    + unfold scale. destruct (Qle_bool 0 (clamp x)) eqn:E.
      * apply Qle_bool_iff in E. lra.
      * rewrite C. reflexivity.
  - intros H. pose proof (clamp_high x H) as C.
    rewrite (truncate_comp (scale x) (inject_Z 32767)).
    + apply truncate_Z.
    + unfold scale. destruct (Qle_bool 0 (clamp x)) eqn:E.
      * rewrite C. reflexivity.
      * assert (~ (0 <= clamp x)%Q) by (rewrite <- Qle_bool_iff; congruence).
        lra.
  - intros H. apply truncate_mono, scale_mono, H.
Qed.

End SampleConversion.

Section EncoderBlocks.

Import Gemini.

Variable Encoder : Type.
Variable Mp3Encoder : Z -> Z -> Z -> Encoder.
Variable encodeBuffer : Encoder -> list Z -> list Byte.byte * Encoder.
Variable flush : Encoder -> list Byte.byte.

Lemma concat_push (mp3Data : list (list Byte.byte)) (mp3buf : list Byte.byte) :
  concat (push mp3Data mp3buf) = concat mp3Data ++ mp3buf.
Proof.
  unfold push. destruct mp3buf as [|b r]; cbn [length Nat.ltb Nat.leb].
  - now rewrite app_nil_r.
  - now rewrite concat_app; cbn; rewrite app_nil_r.
Qed.

Lemma encodeLoop_done (data : list Z) (i : nat) enc mp3Data fed
  (loop : Encoder * list (list Byte.byte) * list (list Z)) :
  length data <= i -> loop = (enc, mp3Data, fed) ->
  exists bs,
    (concat bs = skipn i data
     /\ Forall (fun b => 0 < length b <= blockSize) bs
     /\ (forall k b, nth_error bs k = Some b -> S k < length bs ->
           length b = blockSize)
     /\ length data - i <= length bs * blockSize
        < length data - i + blockSize)
    /\ loop = (snd (encoded Encoder encodeBuffer enc bs), snd (fst loop),
               fed ++ bs)
    /\ concat (snd (fst loop))
       = concat mp3Data ++ fst (encoded Encoder encodeBuffer enc bs).
Proof.
  intros Hi ->. exists []. cbn. rewrite skipn_all2 by lia.
  rewrite !app_nil_r. unfold blockSize.
  split; [split; [|split; [|split]]|split]; try reflexivity.
  - constructor.
  - intros k b H. now destruct k.
  - lia.
Qed.

Lemma encodeLoop_spec (data : list Z) (fuel : nat) :
  forall i enc mp3Data fed,
    length data <= i + fuel ->
    exists bs,
      (concat bs = skipn i data
       /\ Forall (fun b => 0 < length b <= blockSize) bs
       /\ (forall k b, nth_error bs k = Some b -> S k < length bs ->
             length b = blockSize)
       /\ length data - i <= length bs * blockSize
          < length data - i + blockSize)
      /\ encodeLoop Encoder encodeBuffer fuel i data enc mp3Data fed
         = (snd (encoded Encoder encodeBuffer enc bs),
            snd (fst (encodeLoop Encoder encodeBuffer fuel i data enc
                        mp3Data fed)),
            fed ++ bs)
      /\ concat (snd (fst (encodeLoop Encoder encodeBuffer fuel i data enc
                             mp3Data fed)))
         = concat mp3Data ++ fst (encoded Encoder encodeBuffer enc bs).
Proof.
  induction fuel as [|fuel IH]; intros i enc mp3Data fed Hfuel.
  - apply encodeLoop_done; [lia | reflexivity].
  - cbn [encodeLoop]. destruct (Nat.ltb_spec i (length data)) as [Hi | Hi].
    + set (chunk := firstn blockSize (skipn i data)).
      destruct (encodeBuffer enc chunk) as [mp3buf enc'] eqn:E.
      destruct (IH (i + blockSize) enc' (push mp3Data mp3buf) (fed ++ [chunk]))
        as (bs & (Hcat & Hall & Hfull & Hlen) & Hrun & Hout);
        [unfold blockSize; lia|].
      assert (length chunk = Nat.min 1152 (length data - i)) as Lc
        by (unfold chunk, blockSize; now rewrite length_firstn, length_skipn).
      assert (chunk ++ skipn (i + blockSize) data = skipn i data) as Hc
        by (unfold chunk; rewrite Nat.add_comm, <- skipn_skipn;
            apply firstn_skipn).
      clearbody chunk.
      exists (chunk :: bs). unfold blockSize in *.
      split; [split; [|split; [|split]]|split].
      * cbn [concat]. now rewrite Hcat.
      * constructor; [lia | exact Hall].
      * intros [|k] b Hk Hlt; cbn in Hk, Hlt.
        -- injection Hk as <-. lia.
        -- apply (Hfull k b Hk). lia.
      * cbn [length]. lia.
      * cbn [encoded]. rewrite E.
        destruct (encoded Encoder encodeBuffer enc' bs) as [outs enc''] eqn:E'.
        rewrite Hrun at 1. cbn [fst snd]. now rewrite <- app_assoc.
      * rewrite Hout, concat_push. cbn [encoded]. rewrite E.
        destruct (encoded Encoder encodeBuffer enc' bs) as [outs enc''].
        cbn [fst]. now rewrite app_assoc.
    + apply encodeLoop_done; [lia | reflexivity].
Qed.

(** X8. Every sample is handed to the encoder exactly once and in
    order, in blocks of 1152 samples of which only the last may be
    shorter and none is empty; the blob holds what the encoder returned
    for these blocks followed by what it flushed. Without the library
    nothing is encoded and the call throws. *)
Theorem encoder_sees_every_sample (sampleRate : Z) (samples : list Q) :
  let run := convertBufferToMp3 Encoder Mp3Encoder encodeBuffer flush true
               sampleRate samples in
  let fed := snd run in
  let '(out, enc) := encoded Encoder encodeBuffer (Mp3Encoder 1 sampleRate 64)%Z
                       fed in
  concat fed = map (fun x => toInt16 (scale x)) samples
  /\ Forall (fun b => 0 < length b <= blockSize) fed
  /\ (forall k b, nth_error fed k = Some b -> S k < length fed ->
        length b = blockSize)
  /\ length samples <= length fed * blockSize < length samples + blockSize
  /\ fst run = Return (mkBlob (out ++ flush enc) "audio/mp3")
  /\ convertBufferToMp3 Encoder Mp3Encoder encodeBuffer flush false
       sampleRate samples
     = (Throw (mkError "Lamejs library not loaded"), []).
Proof.
  cbv zeta. unfold convertBufferToMp3.
  set (data := map (fun x => toInt16 (scale x)) samples).
  destruct (encodeLoop_spec data (length data) 0 (Mp3Encoder 1 sampleRate 64)%Z
              [] [] ltac:(lia))
    as (bs & (Hcat & Hall & Hfull & Hlen) & Hrun & Hout).
  rewrite Hrun. cbn [snd fst app].
  destruct (encoded Encoder encodeBuffer (Mp3Encoder 1 sampleRate 64)%Z bs)
    as [out enc] eqn:E.
  cbn [snd fst] in *. rewrite Nat.sub_0_r in Hlen.
  assert (length data = length samples) as Ld by apply length_map.
  rewrite Ld in Hlen. cbn [skipn] in Hcat.
  split; [exact Hcat|]. split; [exact Hall|]. split; [exact Hfull|].
  split; [exact Hlen|]. split; [|reflexivity].
  now rewrite concat_push, Hout.
Qed.

End EncoderBlocks.

Section SampleBudget.

Import App.
Local Open Scope Q_scope.

Variable d : Q.
Hypothesis d_positive : 0 < d.

(** A window inside the loop bounds is rendered into a buffer of at
    least one and at most 3 840 000 samples (240 seconds at 16 kHz),
    and every window but the last takes exactly that many. *)
Lemma window_sample_budget (i : nat) :
  (i < chunkCount d)%nat ->
  exists len,
    Gemini.sliceAudioBuffer d (chunkStart i) CHUNK_DURATION = Some len
    /\ (1 <= Gemini.lengthInSamples len <= 3840000)%Z
    /\ ((S i < chunkCount d)%nat -> Gemini.lengthInSamples len = 3840000%Z).
Proof.
  intros Hi. unfold Gemini.lengthInSamples, Math_ceil.
  destruct (Nat.lt_ge_cases (S i) (chunkCount d)) as [Hin | Hlast].
  - destruct (inner_window d d_positive i Hin) as (len & Hs & Hl).
    exists len. split; [exact Hs|].
    assert (Qceiling (len * 16000) = 3840000%Z) as ->.
    { rewrite (Qceiling_comp _ (inject_Z 3840000)); [apply Qceiling_Z|].
      rewrite Hl. reflexivity. }
    split; [lia | reflexivity].
  - replace i with (chunkCount d - 1)%nat by lia.
    destruct (last_window d d_positive) as (len & Hs & _ & Hpos & Hle).
    exists len. split; [exact Hs|]. split; [|lia].
    unfold CHUNK_DURATION in Hle. split.
    + assert (0 < Qceiling (len * 16000))%Z; [|lia].
      pose proof (Qle_ceiling (len * 16000)) as H.
      rewrite Zlt_Qlt. change (inject_Z 0) with 0. lra.
    + change 3840000%Z with (Qceiling (inject_Z 3840000)).
      apply Qceiling_resp_le. change (inject_Z 3840000) with 3840000. lra.
Qed.

End SampleBudget.

Section SlicedBuffers.

Import App.

Variable env : Env.
Variable f : File.
Variable d : Q.

Hypothesis decodes : decodeAudioFile env f = Return d.
Hypothesis d_positive : (0 < d)%Q.

Lemma slicedWindows_send (l : list nat) :
  slicedWindows (map (sendChunk d) l)
  = map (fun i => (i, chunkStart i,
                   Gemini.sliceAudioBuffer d (chunkStart i) CHUNK_DURATION)) l.
Proof. induction l as [|x l IH]; cbn; [reflexivity | now rewrite IH]. Qed.

Lemma resolveTotal_bound (item : MediaItem) (k : nat) :
  totalChunks item <= chunkCount d -> resolveTotal item k d <= chunkCount d.
Proof.
  intros H. unfold resolveTotal.
  destruct ((k =? 0) || Qeq_bool (duration item) 0).
  - now destruct (chunkCount d =? 0).
  - now destruct (totalChunks item =? 0).
Qed.

(** What a [try ... catch] slices: consecutive windows from [k] on,
    inside the number of chunks the loop was given. *)
Lemma tryCatch_slices (item : MediaItem) (k : nat) (base full : string)
  (iv : list Version) (w : Run) :
  exists m,
    slicedWindows (effects (tryCatch env item f k base full iv w))
    = slicedWindows (effects w) ++ slicedWindows (map (sendChunk d) (seq k m))
    /\ (m = 0 \/ k + m <= resolveTotal item k d).
Proof.
  unfold tryCatch, tryBlock.
  destruct (decodeStep_ok env item f d decodes k w)
    as (cd & g & ds & -> & _ & _ & _ & _ & _ & _ & _ & _ & Dwin).
  set (total := resolveTotal item k d).
  match goal with
  | |- context [chunkLoop env ?a ?b d total ?rem k ?s ?rf ?w1] =>
      destruct (chunkLoop_sends env a b d total rem k s rf w1)
        as (m & Hm & He);
      destruct (chunkLoop env a b d total rem k s rf w1)
        as [[exit full'] w']
  end.
  cbn [snd effects] in He. exists m. split.
  - destruct exit; cbn [afterLoop catchBlock effects];
      rewrite ?slicedWindows_app, He, !slicedWindows_app, Dwin;
      cbn [slicedWindows]; now rewrite ?app_nil_r.
  - destruct m; [now left | right; lia].
Qed.

(** X9. Every window a transcription run slices from a source of
    positive duration is rendered into a buffer of at least one and at
    most 3 840 000 samples (240 seconds at 16 kHz), every window but
    the last of the source into exactly that many: the early return of
    an empty blob is never taken inside the loop. This holds for every
    run, first start, resume or restart, however it ends, on an item
    whose stored [totalChunks] does not exceed the number of chunks of
    the source. *)
Theorem chunk_sample_budget (item : MediaItem) (isResuming : bool)
  (w : Run) :
  file item = Some f ->
  totalChunks item <= chunkCount d ->
  exists sliced,
    slicedWindows (effects (startTranscription env item isResuming w))
    = slicedWindows (effects w) ++ sliced
    /\ Forall
         (fun win =>
            exists len,
              win = (fst (fst win), chunkStart (fst (fst win)), Some len)
              /\ (1 <= Gemini.lengthInSamples len <= 3840000)%Z
              /\ (S (fst (fst win)) < chunkCount d ->
                  Gemini.lengthInSamples len = 3840000%Z))
         sliced.
Proof.
  intros Hfile Htotal.
  assert (Hbudget :
    forall it k base full iv w0,
      totalChunks it <= chunkCount d ->
      exists sliced,
        slicedWindows (effects (tryCatch env it f k base full iv w0))
        = slicedWindows (effects w0) ++ sliced
        /\ Forall
             (fun win =>
                exists len,
                  win = (fst (fst win), chunkStart (fst (fst win)), Some len)
                  /\ (1 <= Gemini.lengthInSamples len <= 3840000)%Z
                  /\ (S (fst (fst win)) < chunkCount d ->
                      Gemini.lengthInSamples len = 3840000%Z))
             sliced).
  { intros it k base full iv w0 Hit.
    destruct (tryCatch_slices it k base full iv w0) as (m & Hm & Hin).
    eexists. split; [exact Hm|].
    rewrite slicedWindows_send. apply Forall_map, Forall_forall.
    intros i Hi. apply in_seq in Hi. cbn [fst snd].
    assert (Hlt : i < chunkCount d).
    { pose proof (resolveTotal_bound it k Hit). destruct Hin; lia. }
    destruct (window_sample_budget d d_positive i Hlt) as (len & -> & Hb & Hfull).
    exists len. split; [reflexivity | split; assumption]. }
  destruct (String.eqb (apiKey env) "") eqn:Hkey.
  { exists []. unfold startTranscription, startTranscription_step.
    rewrite Hkey. cbn [effects]. rewrite slicedWindows_app.
    split; [reflexivity | constructor]. }
  apply String.eqb_neq in Hkey.
  destruct (restarts env item isResuming) eqn:Hre.
  - rewrite (start_restarts env item isResuming f w Hkey Hfile Hre).
    destruct (step_proceeds env (startTranscription_restarted env)
                (restartItem item) false f
                (mkRun (restartQueue item (queue w)) (effects w ++ [Confirm]))
                Hkey Hfile eq_refl)
      as (base & full & iv & g & Hrun & _).
    unfold startTranscription at 1. rewrite Hrun.
    match goal with
    | |- context [tryCatch env ?it f ?k base full iv ?w0] =>
        destruct (Hbudget it k base full iv w0 Htotal) as (sliced & Hs & Hall)
    end.
    exists sliced. split; [| exact Hall]. rewrite Hs. cbn [effects].
    rewrite !slicedWindows_app. cbn [slicedWindows].
    now rewrite !app_nil_r.
  - destruct (step_proceeds env (startTranscription_restarted env) item
                isResuming f w Hkey Hfile Hre)
      as (base & full & iv & g & Hrun & _).
    unfold startTranscription. rewrite Hrun.
    match goal with
    | |- context [tryCatch env ?it f ?k base full iv ?w0] =>
        destruct (Hbudget it k base full iv w0 Htotal) as (sliced & Hs & Hall)
    end.
    exists sliced. split; [| exact Hall]. rewrite Hs. cbn [effects].
    rewrite !slicedWindows_app.
    destruct (asks item isResuming); cbn [slicedWindows];
      now rewrite !app_nil_r.
Qed.

End SlicedBuffers.

(** Resuming the sample item at checkpoint 1 slices chunks 1 and 2, into
    buffers of 3 840 000 and 320 000 samples. *)
Example chunk_sample_budget_witness :
  let run :=
    App.startTranscription Sample.healthy Sample.checkpointed true
      (App.mkRun [Sample.checkpointed] []) in
  map (fun win => option_map Gemini.lengthInSamples (snd win))
    (App.slicedWindows (App.effects run))
  = [Some 3840000%Z; Some 320000%Z]
  /\ Forall (fun win =>
               exists len,
                 snd win = Some len
                 /\ (1 <= Gemini.lengthInSamples len <= 3840000)%Z)
       (App.slicedWindows (App.effects run)).
Proof.
  cbv zeta. split; [reflexivity|].
  destruct (chunk_sample_budget Sample.healthy Sample.audio 500%Q eq_refl
              ltac:(reflexivity) Sample.checkpointed true
              (App.mkRun [Sample.checkpointed] []) eq_refl
              ltac:(vm_compute; lia))
    as (sliced & -> & Hall).
  cbn [App.slicedWindows App.effects app].
  eapply Forall_impl; [| exact Hall].
  intros win (len & Hwin & Hb & _). exists len.
  split; [now rewrite Hwin | exact Hb].
Defined.

(** * The first successful attempt ends the retries *)

Section FirstSuccess.

Import Gemini.

Variable generateContent : nat -> string -> Exc Response.
Variable cleanResponse : string -> string.
Variable failure : nat -> string -> JsError.
Variable response : Response.

(** Calls number [from] to [from + n - 1] fail, call number [from + n]
    answers. *)
Local Abbreviation failsThenAnswers from n :=
  ((forall k m, from <= k < from + n ->
                generateContent k m = Throw (failure k m))
   /\ (forall m, generateContent (from + n) m = Return response)).

Local Abbreviation cleaned :=
  (cleanResponse (optStrOr (text response) "")).

Lemma flat_map_seq_shift {A : Type} (f : nat -> list A) (i n : nat) :
  flat_map f (seq (S i) n) = flat_map (fun a => f (S a)) (seq i n).
Proof.
  rewrite <- seq_shift, !flat_map_concat_map, map_map. reflexivity.
Qed.

Lemma attemptLoop_answers (model : string) (r : nat) :
  forall remaining attempt st,
    r < remaining ->
    failsThenAnswers (calls st) r ->
    exists st',
      attemptLoop generateContent cleanResponse model remaining attempt st
      = (Some cleaned, st')
      /\ trace st'
         = trace st
           ++ flat_map (fun a => [Call model;
                                  Sleep (1000 * 2 ^ (Z.of_nat (attempt + a) - 1))])
                (seq 0 r)
           ++ [Call model].
Proof.
  induction r as [|r IH]; intros remaining attempt st Hr [Hf Ha];
    (destruct remaining as [|remaining]; [lia|]); cbn [attemptLoop].
  - rewrite Nat.add_0_r in Ha. rewrite Ha. eexists. split; [reflexivity|].
    reflexivity.
  - rewrite (Hf (calls st) model) by lia.
    destruct (IH remaining (S attempt)
                (mkRetry (S (calls st)) (Some (failure (calls st) model))
                   (trace st ++ [Call model;
                                 Sleep (1000 * 2 ^ (Z.of_nat attempt - 1))])))
      as (st' & -> & Ht).
    + lia.
    + split; cbn [calls].
      * intros k m Hk. apply Hf. lia.
      * intros m.
        replace (S (calls st) + r) with (calls st + S r) by lia. apply Ha.
    + exists st'. split; [reflexivity|]. rewrite Ht. cbn [trace].
      rewrite <- app_assoc. f_equal. cbn [seq flat_map].
      rewrite Nat.add_0_r, flat_map_seq_shift. cbn [app]. do 2 f_equal.
      f_equal. apply flat_map_ext. intros a. now rewrite Nat.add_succ_r.
Qed.

Lemma attemptLoop_thrice (model : string) (st : Retry) :
  (forall k m, calls st <= k < calls st + 3 ->
               generateContent k m = Throw (failure k m)) ->
  attemptLoop generateContent cleanResponse model 3 1 st
  = (None,
     mkRetry (3 + calls st) (Some (failure (2 + calls st) model))
       (trace st ++ threeAttempts model)).
Proof.
  intros Hf. cbn [attemptLoop]. rewrite (Hf (calls st)) by lia.
  cbn [calls]. rewrite (Hf (S (calls st))) by lia.
  cbn [calls]. rewrite (Hf (S (S (calls st)))) by lia.
  cbn [calls lastErr trace]. rewrite <- !app_assoc. reflexivity.
Qed.

Lemma modelLoop_answers (q r : nat) :
  forall models st,
    q < length models -> r < 3 ->
    failsThenAnswers (calls st) (3 * q + r) ->
    exists st',
      modelLoop generateContent cleanResponse models st = (Some cleaned, st')
      /\ trace st'
         = trace st
           ++ flat_map threeAttempts (firstn q models)
           ++ failedAttempts r (nth q models "")
           ++ [Call (nth q models "")].
Proof.
  induction q as [|q IH]; intros models st Hq Hr [Hf Ha];
    (destruct models as [|m ms]; [cbn in Hq; lia|]); cbn [modelLoop].
  - destruct (attemptLoop_answers m r 3 1 st Hr) as (st' & -> & Ht).
    { split; [intros k m' Hk; apply Hf; lia|].
      intros m'. rewrite <- (Ha m'). f_equal. }
    exists st'. split; [reflexivity|]. rewrite Ht. cbn [firstn flat_map nth app].
    unfold failedAttempts. do 2 f_equal.
    apply flat_map_ext. intros a.
    now replace (Z.of_nat (1 + a) - 1)%Z with (Z.of_nat a) by lia.
  - rewrite attemptLoop_thrice by (intros k m' Hk; apply Hf; lia).
    destruct (IH ms (mkRetry (3 + calls st)
                       (Some (failure (2 + calls st) m))
                       (trace st ++ threeAttempts m)))
      as (st' & -> & Ht).
    + cbn in Hq. lia.
    + exact Hr.
    + split; cbn [calls].
      * intros k m' Hk. apply Hf. lia.
      * intros m'. rewrite <- (Ha m'). f_equal. lia.
    + exists st'. split; [reflexivity|]. rewrite Ht. cbn [trace firstn flat_map nth].
      now rewrite <- !app_assoc.
Qed.

(** X10. If the first [3 q + r] calls of [transcribeSegment] fail and
    the next one answers, then the first [q] candidates were given
    three attempts each, candidate [q] failed [r] times (sleeping 1000,
    2000 ms after the first and second failure) and then answered; no
    call and no sleep follows the answer, and the result is the cleaned
    text of that answer (the empty text if the answer carries none). *)
Theorem transcribe_stops_at_first_answer (selectedModel : string) (q r : nat) :
  let models := uniqueModels selectedModel in
  q < length models -> r < 3 ->
  (forall k m, k < 3 * q + r -> generateContent k m = Throw (failure k m)) ->
  (forall m, generateContent (3 * q + r) m = Return response) ->
  transcribeSegment generateContent cleanResponse selectedModel
  = (Return (cleanResponse (optStrOr (text response) "")),
     flat_map threeAttempts (firstn q models)
     ++ failedAttempts r (nth q models "")
     ++ [Call (nth q models "")]).
Proof.
  intros models Hq Hr Hf Ha. unfold transcribeSegment. fold models.
  destruct (modelLoop_answers q r models start Hq Hr) as (st' & -> & Ht).
  { split; cbn [calls start]; [intros k m Hk; apply Hf; lia | exact Ha]. }
  rewrite Ht. reflexivity.
Qed.

Lemma not_last_model (pre ms : list string) (m m' : string) :
  NoDup (pre ++ m :: m' :: ms) ->
  isLastModel m (pre ++ m :: m' :: ms) = false.
Proof.
  intros Hnd. unfold isLastModel, lastModel.
  destruct (nth_error _ _) as [z|] eqn:Hz; [| reflexivity].
  apply String.eqb_neq. intros <-.
  rewrite length_app in Hz. cbn [length] in Hz.
  rewrite nth_error_app2 in Hz by lia.
  replace (length pre + S (S (length ms)) - 1 - length pre)
    with (S (length ms)) in Hz by lia.
  cbn [nth_error] in Hz. apply nth_error_In in Hz.
  apply NoDup_remove_2 in Hnd. apply Hnd.
  apply in_or_app. right. exact Hz.
Qed.

Lemma textLoop_answers (all : list string) (q : nat) :
  forall models pre st,
    all = pre ++ models -> NoDup all -> q < length models ->
    failsThenAnswers (calls st) q ->
    exists st',
      textLoop generateContent cleanResponse all models st
      = (Return cleaned, st')
      /\ trace st' = trace st ++ map Call (firstn (S q) models).
Proof.
  induction q as [|q IH]; intros models pre st Hall Hnd Hq [Hf Ha];
    (destruct models as [|m ms]; [cbn in Hq; lia|]); cbn [textLoop].
  - rewrite Nat.add_0_r in Ha. rewrite Ha. eexists. split; reflexivity.
  - rewrite (Hf (calls st) m) by lia.
    destruct ms as [|m' ms']; [cbn in Hq; lia|].
    subst all. rewrite (not_last_model pre ms' m m' Hnd).
    destruct (IH (m' :: ms') (pre ++ [m])
                (mkRetry (S (calls st)) (lastErr st) (trace st ++ [Call m])))
      as (st' & Hrun & Ht).
    + now rewrite <- app_assoc.
    + exact Hnd.
    + cbn in Hq |- *. lia.
    + split; cbn [calls].
      * intros k m0 Hk. apply Hf. lia.
      * intros m0. rewrite <- (Ha m0). f_equal. lia.
    + exists st'. split; [exact Hrun|]. rewrite Ht. cbn [trace].
      now rewrite <- app_assoc.
Qed.

(** X11. If the first [q] calls of [processTextStage] fail and the next
    one answers, it has called the first [q + 1] candidates once each,
    in order, without sleeping, and returns the cleaned text of the
    answer; a stage without prompt throws before any call. *)
Theorem text_stage_stops_at_first_answer
  (s : ProcessingStage) (selectedModel : string) (q : nat) :
  let models := uniqueModels selectedModel in
  q < length models ->
  (forall k m, k < q -> generateContent k m = Throw (failure k m)) ->
  (forall m, generateContent q m = Return response) ->
  processTextStage generateContent cleanResponse s selectedModel
  = if hasPrompt s
    then (Return (cleanResponse (optStrOr (text response) "")),
          map Call (firstn (S q) models))
    else (Throw (mkError "Invalid stage"), []).
Proof.
  intros models Hq Hf Ha. unfold processTextStage. fold models.
  destruct (hasPrompt s); [|reflexivity].
  destruct (textLoop_answers models q models [] start eq_refl) as (st' & -> & Ht).
  - apply spreadSet_NoDup.
  - exact Hq.
  - split; cbn [calls start]; [intros k m Hk; apply Hf; lia | exact Ha].
  - rewrite Ht. reflexivity.
Qed.

End FirstSuccess.

(** The selected model fails four times and the second candidate answers
    at its second attempt with a fenced transcript. *)
Example transcribe_stops_at_first_answer_witness :
  Gemini.transcribeSegment
    (fun k _ => if k <? 4 then Throw (mkError "busy")
                else Return (Gemini.mkResponse (Some "```salam```")))
    Gemini.cleanResponse "gemini-1.5-pro"
  = (Return "salam",
     [Gemini.Call "gemini-1.5-pro"; Gemini.Sleep 1000;
      Gemini.Call "gemini-1.5-pro"; Gemini.Sleep 2000;
      Gemini.Call "gemini-1.5-pro"; Gemini.Sleep 4000;
      Gemini.Call "gemini-3-flash-preview"; Gemini.Sleep 1000;
      Gemini.Call "gemini-3-flash-preview"]).
Proof.
  refine (transcribe_stops_at_first_answer
            (fun k _ => if k <? 4 then Throw (mkError "busy")
                        else Return (Gemini.mkResponse (Some "```salam```")))
            Gemini.cleanResponse (fun _ _ => mkError "busy")
            (Gemini.mkResponse (Some "```salam```"))
            "gemini-1.5-pro" 1 1 _ _ _ _).
  - vm_compute. lia.
  - lia.
  - intros k m Hk. destruct (Nat.ltb_spec k 4); [reflexivity | cbn in Hk; lia].
  - reflexivity.
Defined.

(** The selected model fails once and the second candidate answers. *)
Example text_stage_stops_at_first_answer_witness :
  Gemini.processTextStage
    (fun k _ => if k <? 1 then Throw (mkError "busy")
                else Return (Gemini.mkResponse (Some " matn ")))
    Gemini.cleanResponse FORMAL "gemini-1.5-pro"
  = (Return "matn",
     [Gemini.Call "gemini-1.5-pro"; Gemini.Call "gemini-3-flash-preview"]).
Proof.
  refine (text_stage_stops_at_first_answer
            (fun k _ => if k <? 1 then Throw (mkError "busy")
                        else Return (Gemini.mkResponse (Some " matn ")))
            Gemini.cleanResponse (fun _ _ => mkError "busy")
            (Gemini.mkResponse (Some " matn "))
            FORMAL "gemini-1.5-pro" 1 _ _ _).
  - vm_compute. lia.
  - intros k m Hk. destruct (Nat.ltb_spec k 1); [reflexivity | lia].
  - reflexivity.
Defined.

(** * The library: saving, restoring and deleting projects *)

Section Library.

Import Supabase.

Variable size : File -> Z.
Variable type : File -> string.
Variable upsert : SavedProject -> UpsertResult.

(** X12. What [saveProjectToSupabase] sends, loaded back from the
    library, is the item it was given without its file: same
    identifier, duration, status, progress, versions, current version,
    error and chunk counters. The restored item is marked as restored
    and named after the file (or by the default name if the file name
    is empty). Saving the restored item and loading it again gives the
    same item under the same name. *)
Theorem saved_project_restores_the_item
  (savedAt updatedAt savedAt' updatedAt' : string)
  (item : MediaItem) (x0 : Extras) (f : File) :
  file item = Some f ->
  let row := snd (saveProjectToSupabase size type upsert savedAt updatedAt
                    item x0) in
  let restored := fst (FileManager.handleLoad row) in
  let x := snd (FileManager.handleLoad row) in
  let row' := snd (saveProjectToSupabase size type upsert savedAt' updatedAt'
                     restored x) in
  restored = withoutFile item
  /\ x = mkExtras (Some (strOr (fileName f) FileManager.RESTORED_NAME))
           (Some (size f)) (Some (type f)) (Some savedAt) true
  /\ fst (FileManager.handleLoad row') = restored
  /\ x_fileName (snd (FileManager.handleLoad row')) = x_fileName x
  /\ x_fileSize (snd (FileManager.handleLoad row')) = x_fileSize x.
Proof.
  intros Hf. cbv zeta.
  unfold saveProjectToSupabase, serializeItem, FileManager.handleLoad.
  destruct (upsert_error (upsert _)); cbn [fst snd sp_content sp_id rest
    c_fileName c_fileSize c_fileType c_savedAt]; rewrite ?Hf;
    cbn [withoutFile fst snd id file duration status progress
           currentVersionId versions lastError processedChunks totalChunks
           x_fileName x_fileSize x_fileType x_savedAt];
    (destruct (upsert_error (upsert _));
     cbn [fst snd sp_content sp_id rest c_fileName c_fileSize c_fileType
            c_savedAt withoutFile id file duration status progress
            currentVersionId versions lastError processedChunks totalChunks
            x_fileName x_fileSize x_fileType x_savedAt optStrOr]);
    (repeat split; try reflexivity);
    unfold strOr, FileManager.RESTORED_NAME;
    destruct (String.eqb (fileName f) "") eqn:E; cbn; now rewrite ?E.
Qed.

(** X13. A project restored from the library has no audio: the player
    shows the cloud notice under the project's name, the play button and
    the start overlay are not rendered for it, and a start on it (by
    the retry overlay or the reconnection listener) only alerts: the
    queue is left as it was and nothing is decoded, sent or saved. *)
Theorem restored_project_is_text_only
  (project : SavedProject) (env : App.Env) (isResuming : bool) (w : App.Run)
  (objectUrl : option string) :
  let restored := fst (FileManager.handleLoad project) in
  let x := snd (FileManager.handleLoad project) in
  file restored = None
  /\ App.playerView (Some (restored, x)) objectUrl
     = MediaPlayer.CloudNotice
         (strOr (c_fileName (sp_content project)) FileManager.RESTORED_NAME)
  /\ App.rowPlayButton restored = None
  /\ App.startOverlayButton (Some restored) = None
  /\ (App.apiKey env <> "" ->
      App.startTranscription env restored isResuming w
      = App.mkRun (App.queue w) (App.effects w ++ [App.Alert])).
Proof.
  cbv zeta. unfold FileManager.handleLoad. cbn [fst snd].
  split; [reflexivity|]. split; [|split; [|split]].
  - unfold App.playerView, MediaPlayer.render. cbn [file x_fileName].
    unfold truthy, optStrOr, strOr, FileManager.RESTORED_NAME.
    destruct (String.eqb (c_fileName (sp_content project)) "") eqn:E.
    + reflexivity.
    + now rewrite E.
  - unfold App.rowPlayButton. cbn [file]. now rewrite andb_false_r.
  - unfold App.startOverlayButton. cbn [file]. now rewrite andb_false_r.
  - intros Hkey. unfold App.startTranscription, App.startTranscription_step.
    now rewrite (proj2 (String.eqb_neq _ _) Hkey).
Qed.

End Library.

Section DeletingProjects.

Import Supabase FileManager.

Variable selectSingle : string -> CheckResult.
Variable deleteExact : string -> DeleteResult.

(** X14. Confirming a deletion closes the dialog and, whatever the
    store answers, ends with no row marked as being deleted. The row
    leaves the list only when the store reports that it deleted
    something; then every project with that identifier goes and the
    others stay in order. When the row cannot be read, or the store
    deletes nothing, the list is kept and the banner shows the
    corresponding message. *)
Theorem delete_removes_only_what_the_store_deleted
  (st : State) (rowId : string) :
  target (deleteConfirmation st) = Some rowId -> rowId <> "" ->
  let st' := fst (performDelete selectSingle deleteExact st) in
  let reqs := snd (performDelete selectSingle deleteExact st) in
  deleteConfirmation st' = mkConfirmation false None
  /\ deletingId st' = None
  /\ (check_error (selectSingle rowId) <> None ->
      projects st' = projects st
      /\ errorText st' = Some (DELETE_FAILED ++ NOT_FOUND)%string
      /\ reqs = [SelectId rowId])
  /\ (check_error (selectSingle rowId) = None ->
      delete_error (deleteExact rowId) = None ->
      count (deleteExact rowId) = None
      \/ count (deleteExact rowId) = Some 0%N ->
      projects st' = projects st
      /\ errorText st' = Some (DELETE_FAILED ++ POLICY_BLOCKED)%string)
  /\ (projects st' <> projects st ->
      (exists c, count (deleteExact rowId) = Some c /\ c <> 0%N)
      /\ projects st'
         = filter (fun p => negb (String.eqb (sp_id p) rowId)) (projects st)
      /\ errorText st' = errorText st).
Proof.
  intros Ht Hne. cbv zeta. unfold performDelete. rewrite Ht.
  rewrite (proj2 (String.eqb_neq _ _) Hne).
  unfold deleteProjectFromSupabase.
  destruct (check_error (selectSingle rowId)) as [e|] eqn:Ec.
  { cbn. repeat split; try reflexivity; try congruence; intros; congruence. }
  destruct (delete_error (deleteExact rowId)) as [e|] eqn:Ed.
  { cbn. repeat split; try reflexivity; try congruence; intros; congruence. }
  destruct (count (deleteExact rowId)) as [c|] eqn:En.
  2: { cbn. repeat split; try reflexivity; try congruence;
       intros; congruence. }
  destruct (N.eqb_spec c 0) as [-> | Hc].
  { cbn. repeat split; try reflexivity; try congruence; intros; congruence. }
  cbn [fst snd projects errorText deletingId deleteConfirmation].
  split; [reflexivity|]. split; [reflexivity|].
  split; [congruence|]. split.
  - intros _ _ [H | H]; congruence.
  - intros _. split; [|split; reflexivity]. exists c. now split.
Qed.

End DeletingProjects.

Example saved_project_restores_the_item_witness :
  fst (FileManager.handleLoad
         (snd (Supabase.saveProjectToSupabase (fun _ => 1024%Z)
                 (fun _ => "audio/mpeg")
                 (fun _ => Supabase.mkUpsert None None)
                 "2024-01-01T00:00:00.000Z" "2024-01-01T00:00:00.001Z"
                 Sample.transcribed Supabase.noExtras)))
  = Supabase.withoutFile Sample.transcribed.
Proof.
  exact (proj1 (saved_project_restores_the_item (fun _ => 1024%Z)
                  (fun _ => "audio/mpeg")
                  (fun _ => Supabase.mkUpsert None None)
                  "2024-01-01T00:00:00.000Z" "2024-01-01T00:00:00.001Z"
                  "" "" Sample.transcribed Supabase.noExtras Sample.audio
                  eq_refl)).
Defined.

(** The store reads the row but deletes nothing: the project stays in the
    list and the banner names the policy. *)
Example delete_removes_only_what_the_store_deleted_witness :
  let row := Supabase.mkProject "m1"
               (Supabase.mkContent (Supabase.withoutFile Sample.transcribed)
                  "lecture.mp3" 1024 "audio/mpeg" "2024-01-01T00:00:00.000Z"
                  false)
               "2024-01-01T00:00:00.001Z" in
  let st := FileManager.promptDelete "m1"
              (FileManager.mkState [row] None None
                 (FileManager.mkConfirmation false None)) in
  let st' := fst (FileManager.performDelete
                    (fun _ => Supabase.mkCheck None)
                    (fun _ => Supabase.mkDelete None (Some 0%N)) st) in
  FileManager.projects st' = [row]
  /\ FileManager.errorText st'
     = Some (FileManager.DELETE_FAILED ++ Supabase.POLICY_BLOCKED)%string.
Proof.
  intros row st st'.
  destruct (delete_removes_only_what_the_store_deleted
              (fun _ => Supabase.mkCheck None)
              (fun _ => Supabase.mkDelete None (Some 0%N)) st "m1"
              eq_refl ltac:(discriminate))
    as (_ & _ & _ & Hblocked & _).
  exact (Hblocked eq_refl eq_refl (or_intror eq_refl)).
Defined.

(** * The queue, the selection and the text of the App component *)

Section QueueHandlers.

Import App.

Lemma findItem_none (a : string) (q : Queue) :
  findItem a q = None <-> ~ In a (map id q).
Proof.
  unfold findItem. induction q as [|x r IH]; cbn; [tauto|].
  destruct (String.eqb_spec (id x) a) as [E | N].
  - split; [discriminate | intros H; exfalso; apply H; now left].
  - rewrite IH. tauto.
Qed.

Lemma findItem_app (a : string) (q r : Queue) :
  findItem a (q ++ r)
  = match findItem a q with
    | Some x => Some x
    | None => findItem a r
    end.
Proof.
  unfold findItem. induction q as [|x q IH]; cbn; [reflexivity|].
  destruct (String.eqb (id x) a); [reflexivity | exact IH].
Qed.

(** X15. Loading a project keeps the identifiers of the queue distinct
    and the items that were there in place; an item already in the
    queue under that identifier is kept as it is (the stored copy is
    dropped) and becomes the selection; loading the same project again
    changes nothing. *)
Theorem load_project_adds_at_most_once (item : MediaItem) (q : Queue) :
  NoDup (map id q) ->
  let q' := fst (handleLoadProject item q) in
  let active := snd (handleLoadProject item q) in
  NoDup (map id q')
  /\ active = Some (id item)
  /\ (forall old, findItem (id item) q = Some old ->
        q' = q /\ activeItem active q' = Some old)
  /\ (findItem (id item) q = None ->
        q' = q ++ [item] /\ activeItem active q' = Some item)
  /\ handleLoadProject item q' = (q', active).
Proof.
  intros Hnd. unfold handleLoadProject. cbn [fst snd].
  destruct (findItem (id item) q) as [old|] eqn:E.
  - split; [exact Hnd|]. split; [reflexivity|]. split; [|split].
    + intros ? [= <-]. split; [reflexivity | exact E].
    + discriminate.
    + now rewrite E.
  - assert (findItem (id item) (q ++ [item]) = Some item) as F.
    { rewrite findItem_app, E. unfold findItem. cbn.
      now rewrite String.eqb_refl. }
    split; [|split; [reflexivity|split; [discriminate|split]]].
    + rewrite map_app. cbn. apply NoDup_app; [exact Hnd | | ].
      * constructor; [tauto | constructor].
      * intros a Ha [<- | []]. now apply findItem_none in E.
    + intros _. split; [reflexivity | exact F].
    + now rewrite F.
Qed.

Lemma findIndex_nth (q : Queue) (k : nat) (cur : MediaItem) :
  NoDup (map id q) -> nth_error q k = Some cur ->
  findIndex (fun i => String.eqb (id i) (id cur)) q = Some k.
Proof.
  revert k. induction q as [|x r IH]; intros k Hnd Hk.
  - now destruct k.
  - cbn [findIndex]. inversion Hnd as [|? ? Hx Hr]; subst.
    destruct k as [|k]; cbn in Hk.
    + injection Hk as ->. now rewrite String.eqb_refl.
    + destruct (String.eqb_spec (id x) (id cur)) as [E | N].
      * exfalso. apply Hx. rewrite E. apply in_map.
        exact (nth_error_In _ _ Hk).
      * now rewrite (IH k Hr Hk).
Qed.

Lemma playback_next (q : Queue) (k : nat) (cur : MediaItem) :
  NoDup (map id q) -> nth_error q k = Some cur ->
  handlePlaybackEnded q (Some (id cur))
  = option_map id (nth_error q (Nat.min (k + 1) (length q - 1))).
Proof.
  intros Hnd Hk. unfold handlePlaybackEnded.
  rewrite (findIndex_nth q k cur Hnd Hk).
  assert (k < length q) as Hlt by (apply nth_error_Some; congruence).
  destruct (Nat.ltb_spec k (length q - 1)) as [L | L].
  - rewrite Nat.min_l by lia.
    destruct (nth_error q (k + 1)) eqn:E; [reflexivity|].
    apply nth_error_None in E. lia.
  - replace (Nat.min (k + 1) (length q - 1)) with k by lia.
    now rewrite Hk.
Qed.

(** X16. With distinct identifiers in the queue, the end of a playback
    moves the selection to the next item and leaves it on the last one:
    starting on item [k], after [n] playbacks have ended the selection
    is item [k + n], or the last item if the queue is shorter. *)
Theorem playback_walks_the_queue (q : Queue) (k n : nat) (cur : MediaItem) :
  NoDup (map id q) -> nth_error q k = Some cur ->
  Nat.iter n (handlePlaybackEnded q) (Some (id cur))
  = option_map id (nth_error q (Nat.min (k + n) (length q - 1))).
Proof.
  intros Hnd Hk.
  assert (k < length q) as Hlt by (apply nth_error_Some; congruence).
  induction n as [|n IH].
  - cbn [Nat.iter]. rewrite Nat.add_0_r, Nat.min_l by lia. now rewrite Hk.
  - rewrite Nat.iter_succ, IH.
    destruct (nth_error q (Nat.min (k + n) (length q - 1))) as [c|] eqn:E.
    + cbn [option_map]. rewrite (playback_next q _ c Hnd E).
      do 2 f_equal. lia.
    + apply nth_error_None in E. lia.
Qed.

(** ** Editing the text *)

Lemma findVersion_patched (c : string) (f : Version -> Version)
  (vs : list Version) (cv : Version) :
  (forall v, vid (f v) = vid v) ->
  findVersion c vs = Some cv ->
  findVersion c (patchVersion c f vs) = Some (f cv).
Proof.
  intros Hf. unfold findVersion, patchVersion.
  induction vs as [|v r IH]; cbn; [discriminate|].
  destruct (String.eqb (vid v) c) eqn:E.
  - intros [= <-]. cbn. now rewrite Hf, E.
  - intros H. cbn. rewrite E. exact (IH H).
Qed.

Lemma findVersion_vid (c : string) (vs : list Version) (cv : Version) :
  findVersion c vs = Some cv -> vid cv = c.
Proof.
  unfold findVersion. intros H. apply find_some in H as [_ H].
  now apply String.eqb_eq in H.
Qed.

Lemma mapItem_ids (a : string) (f : MediaItem -> MediaItem) (q : Queue) :
  (forall x, id (f x) = id x) -> map id (mapItem a f q) = map id q.
Proof.
  intros Hf. unfold mapItem. rewrite map_map. apply map_ext.
  intros x. destruct (String.eqb (id x) a); [apply Hf | reflexivity].
Qed.

Lemma mapItem_others (a : string) (f : MediaItem -> MediaItem) (q : Queue)
  (it : MediaItem) :
  In it q -> id it <> a -> In it (mapItem a f q).
Proof.
  intros Hin Hne. unfold mapItem. apply in_map_iff. exists it.
  split; [|exact Hin]. now rewrite (proj2 (String.eqb_neq _ _) Hne).
Qed.

(** X17. The editor changes the text on display and nothing else, and
    only outside processing. While the selected item is processing no
    typing and no toolbar command changes the queue. Otherwise the
    HTML the editor holds becomes the content of the current version:
    reading the current version back gives the old one with the new
    content; the item keeps its status and the identifiers, stages and
    parents of its versions; versions with another identifier, and
    items with another identifier, stay as they were. *)
Theorem editor_changes_only_current_content
  (a : option string) (q : Queue) (active : MediaItem) (cv : Version)
  (e : RichTextEditor.Event) :
  activeItem a q = Some active ->
  currentVersionId active <> Some "" ->
  currentVersion active = Some cv ->
  let q' := editorEvent a e q in
  let html := match e with
              | RichTextEditor.Input h => h
              | RichTextEditor.Command _ _ h => h
              end in
  (status active = processing -> q' = q)
  /\ (status active <> processing ->
      (exists active',
          activeItem a q' = Some active'
          /\ currentVersion active' = Some (v_content html cv)
          /\ status active' = status active
          /\ map vid (versions active') = map vid (versions active)
          /\ map stage (versions active') = map stage (versions active)
          /\ map parentId (versions active') = map parentId (versions active)
          /\ (forall v, In v (versions active) -> vid v <> vid cv ->
                In v (versions active')))
      /\ map id q' = map id q
      /\ (forall it, In it q -> id it <> id active -> In it q')).
Proof.
  intros Ha Hne Hcv q' html. subst q'. unfold editorEvent. rewrite Ha.
  split.
  { intros ->. now destruct e. }
  intros Hs.
  assert (status_eqb (status active) processing = false) as ->
    by (destruct (status active); try reflexivity; congruence).
  assert (RichTextEditor.handle false e = Some html) as ->
    by now destruct e.
  unfold handleContentUpdate. rewrite Ha.
  unfold currentVersion in Hcv.
  destruct (currentVersionId active) as [c|] eqn:Ec; [|discriminate].
  assert (c <> "") as Hc by congruence.
  cbn [truthy optStrOr]. rewrite (proj2 (String.eqb_neq _ _) Hc).
  cbn [negb]. unfold strOr. rewrite (proj2 (String.eqb_neq _ _) Hc).
  destruct a as [a|]; [|discriminate]. cbn [activeItem] in Ha |- *.
  pose proof (findItem_id _ _ _ Ha) as Hid. subst a.
  set (f := fun qItem : MediaItem =>
              i_versions (patchVersion c (v_content html) (versions qItem))
                qItem).
  split; [|split].
  - exists (f active).
    split; [|split; [|split; [|split; [|split; [|split]]]]].
    + rewrite findItem_mapItem by reflexivity. now rewrite Ha.
    + unfold currentVersion, f. cbn. rewrite Ec.
      now apply findVersion_patched.
    + reflexivity.
    + unfold f, patchVersion. cbn. rewrite map_map. apply map_ext.
      intros v. now destruct (String.eqb (vid v) c).
    + unfold f, patchVersion. cbn. rewrite map_map. apply map_ext.
      intros v. now destruct (String.eqb (vid v) c).
    + unfold f, patchVersion. cbn. rewrite map_map. apply map_ext.
      intros v. now destruct (String.eqb (vid v) c).
    + intros v Hin Hv. unfold f, patchVersion. cbn.
      apply in_map_iff. exists v. split; [|exact Hin].
      rewrite (findVersion_vid _ _ _ Hcv) in Hv.
      now rewrite (proj2 (String.eqb_neq _ _) Hv).
  - apply mapItem_ids. reflexivity.
  - intros it Hin Hit. now apply mapItem_others.
Qed.

Lemma findVersion_unique (vs : list Version) (v : Version) :
  NoDup (map vid vs) -> In v vs -> findVersion (vid v) vs = Some v.
Proof.
  unfold findVersion. induction vs as [|u r IH]; cbn; [tauto|].
  intros Hnd [-> | Hin].
  - now rewrite String.eqb_refl.
  - inversion Hnd as [|? ? Hu Hr]; subst.
    destruct (String.eqb_spec (vid u) (vid v)) as [E | _]; [|now apply IH].
    exfalso. apply Hu. rewrite E. now apply in_map.
Qed.

(** X18. Picking a version in the stage panel puts that version on
    display (the identifiers of the item's versions being distinct) and
    changes nothing else of the item: its versions, status and progress
    stay as they were. *)
Theorem view_version_selects_it
  (a : option string) (q : Queue) (active : MediaItem) (v : Version) :
  activeItem a q = Some active ->
  In v (versions active) ->
  NoDup (map vid (versions active)) ->
  exists active',
    activeItem a (viewVersion active v q) = Some active'
    /\ currentVersion active' = Some v
    /\ versions active' = versions active
    /\ status active' = status active
    /\ progress active' = progress active.
Proof.
  intros Ha Hin Hnd. destruct a as [a|]; [|discriminate]. cbn in Ha.
  pose proof (findItem_id _ _ _ Ha) as Hid. subst a.
  exists (i_currentVersionId (Some (vid v)) active).
  unfold viewVersion, updateItem. cbn [activeItem]. split.
  - rewrite findItem_mapItem by reflexivity. now rewrite Ha.
  - unfold currentVersion. cbn. split; [|repeat split].
    now apply findVersion_unique.
Qed.

End QueueHandlers.

Example load_project_adds_at_most_once_witness :
  App.handleLoadProject Sample.checkpointed [Sample.transcribed]
  = ([Sample.transcribed], Some "m1").
Proof.
  pose proof (load_project_adds_at_most_once Sample.checkpointed
                [Sample.transcribed]
                ltac:(repeat constructor; cbn; tauto)) as H.
  cbv zeta in H. destruct H as (_ & Hact & Hold & _ & _).
  destruct (Hold Sample.transcribed eq_refl) as [Hq _].
  rewrite (surjective_pairing (App.handleLoadProject _ _)).
  now rewrite Hq, Hact.
Defined.

Example playback_walks_the_queue_witness :
  let q := [App.uploaded "a" Sample.audio; App.uploaded "b" Sample.audio;
            App.uploaded "c" Sample.audio] in
  Nat.iter 5 (App.handlePlaybackEnded q) (Some "a") = Some "c".
Proof.
  intros q.
  exact (playback_walks_the_queue q 0 5 (App.uploaded "a" Sample.audio)
           ltac:(repeat constructor; cbn; intuition discriminate) eq_refl).
Defined.

Example editor_changes_only_current_content_witness :
  App.editorEvent (Some "m1") (RichTextEditor.Input "<p>x</p>")
    [Sample.running] = [Sample.running]
  /\ exists active',
       App.activeItem (Some "m1")
         (App.editorEvent (Some "m1")
            (RichTextEditor.Command "bold" None "<p><b>x</b></p>")
            [Sample.transcribed]) = Some active'
       /\ option_map content (App.currentVersion active')
          = Some "<p><b>x</b></p>".
Proof.
  split.
  - exact (proj1 (editor_changes_only_current_content (Some "m1")
                    [Sample.running] Sample.running
                    (mkVersion "v1" RAW App.NAME_COMPLETING "a " None 7 None)
                    (RichTextEditor.Input "<p>x</p>") eq_refl
                    ltac:(discriminate) eq_refl) eq_refl).
  - destruct (proj2 (editor_changes_only_current_content (Some "m1")
                       [Sample.transcribed] Sample.transcribed
                       (mkVersion "v1" RAW App.NAME_COMPLETE "a b c " None 7
                          None)
                       (RichTextEditor.Command "bold" None "<p><b>x</b></p>")
                       eq_refl ltac:(discriminate) eq_refl)
                ltac:(discriminate))
      as [(active' & Hact & Hcur & _) _].
    exists active'. split; [exact Hact|]. now rewrite Hcur.
Defined.

Example view_version_selects_it_witness :
  exists active',
    App.activeItem (Some "m1")
      (App.viewVersion Sample.transcribed
         (mkVersion "v1" RAW App.NAME_COMPLETE "a b c " None 7 None)
         [Sample.transcribed]) = Some active'
    /\ option_map vid (App.currentVersion active') = Some "v1".
Proof.
  destruct (view_version_selects_it (Some "m1") [Sample.transcribed]
              Sample.transcribed
              (mkVersion "v1" RAW App.NAME_COMPLETE "a b c " None 7 None)
              eq_refl (or_introl eq_refl)
              ltac:(repeat constructor; cbn; tauto))
    as (active' & Hact & Hcur & _).
  exists active'. split; [exact Hact|]. now rewrite Hcur.
Defined.

(** * Uploading files, naming the exported document *)

Section UploadAndExport.

Import App.

Lemma nth_error_combine_seq {A : Type} (l : list A) :
  forall s k,
    nth_error (combine (seq s (length l)) l) k
    = option_map (fun x => (s + k, x)) (nth_error l k).
Proof.
  induction l as [|x r IH]; intros s k.
  - now destruct k.
  - destruct k as [|k]; cbn.
    + now rewrite Nat.add_0_r.
    + rewrite IH. destruct (nth_error r k); cbn; [|reflexivity].
      now rewrite Nat.add_succ_r.
Qed.

Lemma nth_error_newItems (uuid : nat -> string) (files : list File) (k : nat) :
  nth_error (newItems uuid files) k
  = option_map (uploaded (uuid k)) (nth_error files k).
Proof.
  unfold newItems. rewrite nth_error_map, nth_error_combine_seq.
  now destruct (nth_error files k).
Qed.

Lemma length_newItems (uuid : nat -> string) (files : list File) :
  length (newItems uuid files) = length files.
Proof.
  unfold newItems. rewrite length_map, length_combine, length_seq. lia.
Qed.

Lemma ids_newItems (uuid : nat -> string) (files : list File) :
  map id (newItems uuid files) = map uuid (seq 0 (length files)).
Proof.
  apply nth_error_ext. intros k.
  rewrite !nth_error_map, nth_error_newItems.
  destruct (nth_error files k) as [f|] eqn:E; cbn.
  - assert (k < length files) by (apply nth_error_Some; congruence).
    rewrite nth_error_seq. destruct (Nat.ltb_spec k (length files)); [|lia].
    reflexivity.
  - apply nth_error_None in E.
    rewrite (proj2 (nth_error_None (seq 0 (length files)) k))
      by (rewrite length_seq; lia).
    reflexivity.
Qed.

(** X19. An upload appends one idle item per file, in order, behind
    the items that were there, which keep their places; the selection
    stays where it was, or moves to the first new item if nothing was
    selected; and if the identifiers drawn are new and pairwise
    distinct, the identifiers of the queue stay distinct. *)
Theorem upload_appends_idle_items
  (uuid : nat -> string) (files : list File) (q : Queue)
  (activeItemId : option string) :
  NoDup (map id q) ->
  (forall j k, j < length files -> k < length files ->
               uuid j = uuid k -> j = k) ->
  (forall k, k < length files -> ~ In (uuid k) (map id q)) ->
  let q' := fst (handleFileUpload uuid files q activeItemId) in
  let active' := snd (handleFileUpload uuid files q activeItemId) in
  NoDup (map id q')
  /\ length q' = length q + length files
  /\ (forall k it, nth_error q k = Some it -> nth_error q' k = Some it)
  /\ (forall k f, nth_error files k = Some f ->
        nth_error q' (length q + k) = Some (uploaded (uuid k) f))
  /\ active' = (if truthy activeItemId then activeItemId
                else match files with
                     | [] => activeItemId
                     | _ :: _ => Some (uuid 0)
                     end).
Proof.
  intros Hnd Hinj Hnew. unfold handleFileUpload. cbn [fst snd].
  split; [|split; [|split; [|split]]].
  - rewrite map_app, ids_newItems. apply NoDup_app; [exact Hnd | |].
    + apply NoDup_map_NoDup_ForallPairs; [|apply seq_NoDup].
      intros j k Hj Hk. apply in_seq in Hj, Hk. apply Hinj; lia.
    + intros a Ha Hb. apply in_map_iff in Hb as (k & <- & Hk).
      apply in_seq in Hk. apply (Hnew k); [lia | exact Ha].
  - now rewrite length_app, length_newItems.
  - intros k it Hk. rewrite nth_error_app1; [exact Hk|].
    apply nth_error_Some. congruence.
  - intros k f Hk. rewrite nth_error_app2 by lia.
    replace (length q + k - length q) with k by lia.
    now rewrite nth_error_newItems, Hk.
  - destruct (truthy activeItemId); [reflexivity|].
    destruct files as [|f r]; reflexivity.
Qed.

(** ** The name of the exported document *)

Lemma plainTail_dot (r e : string) : plainTail (r ++ String "." e) = false.
Proof.
  induction r as [|c r IH]; cbn.
  - reflexivity.
  - rewrite IH. now rewrite andb_false_r.
Qed.

Lemma stripExtension_at (s : string) :
  extensionAt s = true -> stripExtension s = "".
Proof. intros H. destruct s; cbn [stripExtension]; now rewrite H. Qed.

Lemma stripExtension_last (base ext : string) :
  ext <> "" -> plainTail ext = true ->
  stripExtension (base ++ String "." ext) = base.
Proof.
  intros Hne Hp. induction base as [|c r IH].
  - apply stripExtension_at. cbn. rewrite Hp.
    now rewrite (proj2 (String.eqb_neq _ _) Hne).
  - cbn [append stripExtension extensionAt].
    rewrite plainTail_dot, !andb_false_r. now rewrite IH.
Qed.

Lemma stripExtension_no_dot (s : string) :
  JsString.includes "." s = false -> stripExtension s = s.
Proof.
  induction s as [|c r IH]; [reflexivity|].
  rewrite includes_char_cons. intros H.
  apply orb_false_elim in H as [Hc Hr].
  cbn [stripExtension extensionAt]. rewrite Hc. cbn [andb].
  now rewrite (IH Hr).
Qed.

Lemma dashes_no_colon (s : string) :
  JsString.includes ":" (dashes s) = false.
Proof.
  induction s as [|c r IH]; [reflexivity|].
  cbn [dashes]. rewrite includes_char_cons, IH.
  destruct (Ascii.eqb_spec c ":") as [-> | N]; [reflexivity|].
  now rewrite (proj2 (Ascii.eqb_neq _ _) N).
Qed.

(** X20. The exported document is named after the stage of the version
    and the name of the item without its last extension: for an item
    named [base.ext] (the extension not empty, without dot or slash)
    the name is the stage prefix, [base], the time with its colons
    turned into dashes, and [.doc]; a name without any dot is used
    whole. *)
Theorem export_name_drops_last_extension
  (version : Version) (active : MediaItem) (x : Supabase.Extras)
  (localTime base ext : string) :
  optStrOr (Supabase.x_fileName x)
    (optStrOr (option_map fileName (file active)) "فایل")
  = (base ++ "." ++ ext)%string ->
  ext <> "" -> plainTail ext = true ->
  exportFileName version active x localTime
  = (stagePrefix (stage version) ++ " " ++ base ++ " ساعت "
     ++ dashes localTime ++ ".doc")%string
  /\ JsString.includes ":" (dashes localTime) = false
  /\ (forall s, JsString.includes "." s = false -> stripExtension s = s).
Proof.
  intros Hname Hne Hp. unfold exportFileName. rewrite Hname.
  cbn [append]. rewrite (stripExtension_last base ext Hne Hp).
  split; [|split].
  - now destruct (stage version).
  - apply dashes_no_colon.
  - apply stripExtension_no_dot.
Qed.

End UploadAndExport.

Example upload_appends_idle_items_witness :
  App.handleFileUpload (fun k => if k =? 0 then "u0" else "u1")
    [Sample.audio; mkFile "talk.wav"] [Sample.transcribed] None
  = ([Sample.transcribed; App.uploaded "u0" Sample.audio;
      App.uploaded "u1" (mkFile "talk.wav")], Some "u0").
Proof.
  pose proof (upload_appends_idle_items
                (fun k => if k =? 0 then "u0" else "u1")
                [Sample.audio; mkFile "talk.wav"] [Sample.transcribed] None
                ltac:(repeat constructor; cbn; tauto)) as H.
  cbv zeta in H. destruct H as (_ & _ & _ & _ & Hact).
  - intros [|[|j]] [|[|k]]; cbn; intros; try lia; discriminate.
  - intros [|[|k]]; cbn; intros ? [E | []]; try lia; discriminate.
  - rewrite (surjective_pairing (App.handleFileUpload _ _ _ _)), Hact.
    reflexivity.
Defined.

Example export_name_drops_last_extension_witness :
  App.exportFileName (mkVersion "v1" RAW App.NAME_COMPLETE "a b c " None 7 None)
    Sample.transcribed Supabase.noExtras "10:15:00"
  = (App.stagePrefix RAW ++ " lecture ساعت 10-15-00.doc")%string.
Proof.
  exact (proj1 (export_name_drops_last_extension
                  (mkVersion "v1" RAW App.NAME_COMPLETE "a b c " None 7 None)
                  Sample.transcribed Supabase.noExtras "10:15:00"
                  "lecture" "mp3" eq_refl ltac:(discriminate) eq_refl)).
Defined.

(** * Runs and the rest of the queue; progress; the saved snapshot *)

Section Frame.

Import App.

Lemma sameElsewhere_refl (a : string) (q : Queue) : sameElsewhere a q q.
Proof. split; [reflexivity | auto]. Qed.

Lemma sameElsewhere_trans (a : string) (q1 q2 q3 : Queue) :
  sameElsewhere a q1 q2 -> sameElsewhere a q2 q3 -> sameElsewhere a q1 q3.
Proof.
  intros [I1 H1] [I2 H2]. split; [congruence|].
  intros k x Hk Hx. apply H2; [now apply H1 | exact Hx].
Qed.

Lemma sameElsewhere_mapItem (a : string) (f : MediaItem -> MediaItem)
  (q : Queue) :
  (forall x, id (f x) = id x) -> sameElsewhere a q (mapItem a f q).
Proof.
  intros Hf. split.
  - unfold mapItem. rewrite map_map. apply map_ext. intros x.
    destruct (String.eqb (id x) a); [apply Hf | reflexivity].
  - intros k x Hk Hx. unfold mapItem. rewrite nth_error_map, Hk. cbn.
    now rewrite (proj2 (String.eqb_neq _ _) Hx).
Qed.

Lemma sameElsewhere_step (a : string) (f : MediaItem -> MediaItem)
  (q q1 : Queue) :
  sameElsewhere a q q1 -> (forall x, id (f x) = id x) ->
  sameElsewhere a q (mapItem a f q1).
Proof.
  intros H Hf. eapply sameElsewhere_trans; [exact H|].
  now apply sameElsewhere_mapItem.
Qed.

Ltac frame :=
  repeat (apply sameElsewhere_step;
          [| solve [intros; reflexivity | assumption]]);
  try apply sameElsewhere_refl.

Variable env : Env.
Hypothesis quiet : forall j q, interleave env j q = q.

Lemma chunkLoop_frame (a base : string) (d : Q) (total remaining : nat) :
  forall i full ref w,
    sameElsewhere a (queue w)
      (queue (snd (chunkLoop env a base d total remaining i full ref w))).
Proof.
  induction remaining as [|n IH]; intros i full ref w; cbn [chunkLoop].
  - apply sameElsewhere_refl.
  - rewrite quiet.
    destruct (manuallyPaused _);
      [apply sameElsewhere_refl|].
    destruct (transcribe env i) as [t | e]; cbn [snd queue].
    + eapply sameElsewhere_trans; [|apply IH]. cbn [queue].
      unfold updateItem. frame.
    + unfold updateItem. frame.
Qed.

Lemma tryCatch_frame (item : MediaItem) (f : File) (k : nat)
  (base full : string) (vs : list Version) (w : Run) :
  sameElsewhere (id item) (queue w)
    (queue (tryCatch env item f k base full vs w)).
Proof.
  unfold tryCatch, tryBlock, decodeStep.
  destruct ((k =? 0) || Qeq_bool (duration item) 0);
    destruct (decodeAudioFile env f) as [d | e];
    cbn [queue catchBlock]; unfold updateItem; try solve [frame].
  all: match goal with
       | |- context [chunkLoop env ?a ?b ?d ?t ?r ?i ?s ?rf ?w0] =>
           pose proof (chunkLoop_frame a b d t r i s rf w0) as L;
           destruct (chunkLoop env a b d t r i s rf w0)
             as [[[| |e] full'] w']
       end;
    cbn [afterLoop snd queue catchBlock] in *; unfold updateItem;
    frame; (eapply sameElsewhere_trans; [|exact L]); cbn [queue]; frame.
Qed.

Lemma step_frame (self : MediaItem -> bool -> Run -> Run) (item : MediaItem)
  (isResuming : bool) (w : Run) :
  (forall it r w', id it = id item ->
     sameElsewhere (id item) (queue w') (queue (self it r w'))) ->
  sameElsewhere (id item) (queue w)
    (queue (startTranscription_step self env item isResuming w)).
Proof.
  intros Hself. unfold startTranscription_step.
  destruct (String.eqb (apiKey env) ""); [apply sameElsewhere_refl|].
  destruct (file item) as [f|]; [|apply sameElsewhere_refl].
  unfold resolveVersion, addVersionToItem, updateItem.
  destruct (isResuming && (0 <? length (versions item))).
  - destruct (findRaw (versions item));
      (eapply sameElsewhere_trans; [|apply tryCatch_frame]); cbn [queue];
      frame.
  - destruct ((0 <? processedChunks item) && negb (confirm env)).
    + eapply sameElsewhere_trans; [|apply Hself; reflexivity].
      cbn [queue]. frame.
    + destruct (processedChunks item =? 0);
        (eapply sameElsewhere_trans; [|apply tryCatch_frame]); cbn [queue];
        frame.
Qed.

(** X21. With no other handler at work, a transcription run changes
    the item it was started on and nothing else: the queue keeps its
    identifiers at their places, and every item with another identifier
    is afterwards what it was before, at the same place. The same holds
    for a stage run and the active item. *)
Theorem run_leaves_other_items_alone
  (item : MediaItem) (isResuming : bool) (w : Run)
  (a : option string) (s : ProcessingStage) (parentVersionId : string)
  (customPrompt : option string) (active : MediaItem) :
  sameElsewhere (id item) (queue w)
    (queue (startTranscription env item isResuming w))
  /\ (activeItem a (queue w) = Some active ->
      sameElsewhere (id active) (queue w)
        (queue (runStage env a s parentVersionId customPrompt w))).
Proof.
  split.
  - unfold startTranscription. apply step_frame.
    intros it r w' Hit. unfold startTranscription_restarted.
    rewrite <- Hit. apply step_frame. intros. apply sameElsewhere_refl.
  - intros Hact. unfold runStage. rewrite Hact.
    destruct (String.eqb (apiKey env) ""); [apply sameElsewhere_refl|].
    destruct (findVersion parentVersionId (versions active)) as [pv|];
      [|apply sameElsewhere_refl].
    destruct (ticks_shape (id active) (ticks env)
                (stageStart env active s parentVersionId customPrompt
                   (queue w))) as (g & Hg & Gid & _).
    unfold stageSettle.
    destruct (processText env (content pv) s customPrompt);
      cbn [queue]; rewrite Hg;
      unfold stageStart, addVersionToItem, updateItem.
    + frame.
    + frame.
Qed.

End Frame.

Example run_leaves_other_items_alone_witness :
  nth_error
    (App.queue
       (App.startTranscription Sample.healthy (App.uploaded "m2" Sample.audio)
          false
          (App.mkRun [Sample.transcribed; App.uploaded "m2" Sample.audio] [])))
    0
  = Some Sample.transcribed.
Proof.
  destruct (run_leaves_other_items_alone Sample.healthy
              (fun _ _ => eq_refl) (App.uploaded "m2" Sample.audio) false
              (App.mkRun [Sample.transcribed; App.uploaded "m2" Sample.audio] [])
              None FORMAL "" None Sample.transcribed)
    as [[_ H] _].
  apply (H 0); [reflexivity | discriminate].
Defined.

Section Progress.

Import App.

Lemma percent_mono (i j total : nat) :
  i <= j -> 0 < total -> (percent i total <= percent j total)%Z.
Proof.
  intros Hij Ht. unfold percent, Math_round. apply Qfloor_resp_le.
  assert (inject_Z (Z.of_nat i) / inject_Z (Z.of_nat total)
          <= inject_Z (Z.of_nat j) / inject_Z (Z.of_nat total))%Q as H.
  { apply Qmult_le_compat_r.
    - rewrite <- Zle_Qle. lia.
    - apply Qinv_le_0_compat. change 0%Q with (inject_Z 0).
      rewrite <- Zle_Qle. lia. }
  lra.
Qed.

Lemma percent_zero (total : nat) : 0 < total -> percent 0 total = 0%Z.
Proof.
  intros Ht. unfold percent, Math_round.
  rewrite (Qfloor_comp _ (1 # 2)); [reflexivity|].
  change (inject_Z (Z.of_nat 0)) with 0%Q. field.
  change 0%Q with (inject_Z 0). rewrite inject_Z_injective. lia.
Qed.

Lemma percent_full (total : nat) : 0 < total -> percent total total = 100%Z.
Proof.
  intros Ht. unfold percent, Math_round.
  rewrite (Qfloor_comp _ (201 # 2)); [reflexivity|]. field.
  change 0%Q with (inject_Z 0). rewrite inject_Z_injective. lia.
Qed.

Lemma ticks_progress (a : string) (n : nat) (q : Queue) (x : MediaItem) :
  findItem a q = Some x -> status x = processing ->
  (0 <= progress x <= 95)%Z ->
  exists mid,
    findItem a (Nat.iter n (progressTick a) q) = Some mid
    /\ status mid = processing
    /\ progress mid = Z.min (progress x + 5 * Z.of_nat n) 95.
Proof.
  intros Hx Hs Hp. induction n as [|n (mid & Hmid & Hst & Hpr)].
  - exists x. cbn [Nat.iter]. repeat split; try assumption. lia.
  - rewrite Nat.iter_succ. unfold progressTick at 1. rewrite Hmid, Hst.
    cbn [status_eqb].
    exists (i_progress (Z.min (progress mid + 5) 95) mid).
    split; [|split].
    + pose proof (findItem_id _ _ _ Hmid) as Hid.
      rewrite (findItem_mapItem a _ _ ) by reflexivity. now rewrite Hmid.
    + exact Hst.
    + cbn. lia.
Qed.

(** X22. While chunks complete the progress shown is a percentage
    that never decreases: it is 0 before the first chunk, 100 exactly
    when the last chunk is done, and for [i <= j] the progress at
    checkpoint [i] is at most the progress at checkpoint [j]. *)
Theorem chunk_progress_never_decreases (i j total : nat) :
  i <= j -> j <= total -> 0 < total ->
  (0 <= percent i total <= percent j total)%Z
  /\ (percent j total <= 100)%Z
  /\ percent 0 total = 0%Z
  /\ percent total total = 100%Z.
Proof.
  intros Hij Hjt Ht.
  split; [split|split; [|split]].
  - rewrite <- (percent_zero total Ht). apply percent_mono; lia.
  - now apply percent_mono.
  - rewrite <- (percent_full total Ht). now apply percent_mono.
  - now apply percent_zero.
  - now apply percent_full.
Qed.

(** X23. During a stage run the bar starts at 0 and after [n] firings
    of the timer shows [min (5 n) 95]: it waits below 100 until the
    remote call has settled, and the item stays in processing. *)
Theorem stage_progress_waits_below_full
  (env : Env) (active : MediaItem) (s : ProcessingStage)
  (parentVersionId : string) (customPrompt a : option string) (q : Queue)
  (n : nat) :
  activeItem a q = Some active ->
  exists mid,
    findItem (id active)
      (Nat.iter n (progressTick (id active))
         (stageStart env active s parentVersionId customPrompt q))
    = Some mid
    /\ status mid = processing
    /\ progress mid = Z.min (5 * Z.of_nat n) 95.
Proof.
  intros Hact.
  assert (findItem (id active) q = Some active) as Hf.
  { destruct a as [a0|]; [|discriminate]. cbn in Hact.
    now rewrite (findItem_id _ _ _ Hact). }
  destruct (ticks_progress (id active) n
              (stageStart env active s parentVersionId customPrompt q)
              (i_progress 0
                 (i_status processing
                    (i_currentVersionId
                       (Some (uuidv4 env))
                       (i_versions
                          (versions active
                           ++ [newStageVersion env s parentVersionId
                                 customPrompt]) active)))))
    as (mid & Hmid & Hst & Hpr).
  - unfold stageStart, updateItem, addVersionToItem.
    rewrite mapItem_compose by reflexivity.
    rewrite findItem_mapItem by reflexivity. now rewrite Hf.
  - reflexivity.
  - cbn. lia.
  - exists mid. repeat split; assumption.
Qed.

End Progress.

Section SavedSnapshot.

Import App.

(** X24. A stage run asks the remote service once, with the content of
    the parent version. If the call succeeds it requests exactly one
    save, of the item as it was when the run started, marked completed
    with progress 100 and with the new version appended -- so the copy
    sent to the store still points at the version that was current
    before the run, while the item in the queue points at the new one.
    If the call fails nothing is saved. *)
Theorem stage_run_saves_the_starting_snapshot
  (env : Env) (a : option string) (s : ProcessingStage)
  (parentVersionId : string) (customPrompt : option string) (w : Run)
  (active : MediaItem) (parentVersion : Version) :
  apiKey env <> "" ->
  activeItem a (queue w) = Some active ->
  findVersion parentVersionId (versions active) = Some parentVersion ->
  let run := runStage env a s parentVersionId customPrompt w in
  match processText env (content parentVersion) s customPrompt with
  | Return result =>
      effects run
      = effects w
        ++ [ProcessText s (content parentVersion);
            SaveToCloud
              (mkItem (id active) (file active) (duration active) completed
                 100 (currentVersionId active)
                 (versions active
                  ++ [mkVersion (uuidv4 env) s (stageName s) result
                        (Some parentVersionId) (now env) customPrompt])
                 (lastError active) (processedChunks active)
                 (totalChunks active))]
      /\ exists fin,
           findItem (id active) (queue run) = Some fin
           /\ currentVersionId fin = Some (uuidv4 env)
  | Throw _ =>
      effects run = effects w ++ [ProcessText s (content parentVersion)]
  end.
Proof.
  intros Hkey Hact Hpv run.
  destruct (runStage_shape env s parentVersionId customPrompt a w active
              parentVersion Hkey Hact Hpv) as (H & Hq & Hid & Hcur & _).
  assert (findItem (id active) (queue w) = Some active) as Hf.
  { destruct a as [a0|]; [|discriminate]. cbn in Hact.
    now rewrite (findItem_id _ _ _ Hact). }
  subst run. unfold runStage in *.
  rewrite Hact, (proj2 (String.eqb_neq _ _) Hkey), Hpv in *.
  destruct (processText env (content parentVersion) s customPrompt).
  - split.
    + cbn [stageSettle effects]. now rewrite <- app_assoc.
    + exists (H active). rewrite Hq, findItem_mapItem by exact Hid.
      now rewrite Hf, Hcur.
  - reflexivity.
Qed.

End SavedSnapshot.

Example chunk_progress_never_decreases_witness :
  (App.percent 1 3 <= App.percent 2 3)%Z /\ App.percent 3 3 = 100%Z.
Proof.
  destruct (chunk_progress_never_decreases 1 2 3 ltac:(lia) ltac:(lia)
              ltac:(lia)) as ([_ H] & _ & _ & F).
  exact (conj H F).
Defined.

Example stage_progress_waits_below_full_witness :
  exists mid,
    App.findItem "m1"
      (Nat.iter 30 (App.progressTick "m1")
         (App.stageStart Sample.healthy Sample.transcribed FORMAL "v1" None
            [Sample.transcribed]))
    = Some mid
    /\ progress mid = 95%Z.
Proof.
  destruct (stage_progress_waits_below_full Sample.healthy Sample.transcribed
              FORMAL "v1" None (Some "m1") [Sample.transcribed] 30 eq_refl)
    as (mid & Hmid & _ & Hp).
  exists mid. split; [exact Hmid | exact Hp].
Defined.

Example stage_run_saves_the_starting_snapshot_witness :
  option_map currentVersionId
    (hd_error
       (App.saves
          (App.effects
             (App.runStage Sample.healthy (Some "m1") FORMAL "v1" None
                (App.mkRun [Sample.transcribed] [])))))
  = Some (Some "v1").
Proof.
  pose proof (stage_run_saves_the_starting_snapshot Sample.healthy (Some "m1")
                FORMAL "v1" None (App.mkRun [Sample.transcribed] [])
                Sample.transcribed
                (mkVersion "v1" RAW App.NAME_COMPLETE "a b c " None 7 None)
                ltac:(discriminate) eq_refl eq_refl) as H.
  cbv zeta in H. cbn [App.processText Sample.healthy Sample.service] in H.
  destruct H as [H _]. rewrite H. reflexivity.
Defined.

(** * What a finished first run saves *)

Section CompletionSave.

Import App.

Variable env : Env.
Variable f : File.
Variable d : Q.
Variable r : nat -> string.
Variable a : string.
Variable q : Queue.

Hypothesis has_key : apiKey env <> "".
Hypothesis decodes : decodeAudioFile env f = Return d.
Hypothesis quiet : forall j q', interleave env j q' = q'.
Hypothesis answers :
  forall j, j < chunkCount d -> transcribe env j = Return (r j).
Hypothesis queued : findItem a q = Some (uploaded a f).

(** X25. A first run on a fresh upload whose chunk calls all succeed,
    undisturbed, ends with exactly one save, and the copy it sends to
    the store is the item the queue then holds: completed, with
    progress 100, both chunk counters at the number of chunks, no
    error, and one RAW version -- the current one -- that holds the
    whole transcript under its final name. *)
Theorem first_run_saves_the_finished_item :
  let run := startTranscription env (uploaded a f) false (mkRun q []) in
  let n := chunkCount d in
  let fin :=
    mkItem a (Some f) d completed 100 (Some (uuidv4 env))
      [mkVersion (uuidv4 env) RAW NAME_COMPLETE (transcriptOf r 0 n) None
         (now env) None]
      None n n in
  findItem a (queue run) = Some fin
  /\ saves (effects run) = [fin].
Proof.
  cbv zeta. unfold startTranscription, startTranscription_step.
  rewrite (proj2 (String.eqb_neq _ _) has_key).
  cbn [file uploaded id processedChunks].
  unfold resolveVersion. cbn [uploaded processedChunks versions id andb
    Nat.ltb Nat.leb Nat.eqb length negb app].
  unfold tryCatch, tryBlock, decodeStep.
  cbn [Nat.eqb orb uploaded id duration totalChunks]. rewrite decodes.
  cbn [queue effects app].
  assert ((if chunkCount d =? 0 then chunkCount d else chunkCount d)
          = chunkCount d) as -> by now destruct (chunkCount d =? 0).
  rewrite Nat.sub_0_r.
  match goal with
  | |- context [chunkLoop env a ?b d ?n ?n 0 ?s ?rf ?w] =>
      replace (chunkLoop env a b d n n 0 s rf w)
        with (chunkLoop env a b d n (n + 0) 0 s rf w)
        by now rewrite Nat.add_0_r
  end.
  rewrite (chunkLoop_prefix env a (uuidv4 env) d (chunkCount d) r).
  - cbn [chunkLoop afterLoop queue effects Nat.add append].
    unfold updateItem, addVersionToItem, finalItemToSave.
    rewrite !saves_app, saves_send. cbn [saves app].
    destruct (chunkCount d) as [|n] eqn:En.
    + rewrite transcriptOf_nil.
      rewrite !findItem_mapItem by reflexivity. rewrite queued.
      do 3 (cbn; rewrite ?String.eqb_refl).
      split; reflexivity.
    + rewrite !findItem_mapItem by reflexivity. rewrite queued.
      do 3 (cbn -[transcriptOf percent]; rewrite ?String.eqb_refl).
      split; reflexivity.
  - intros j q' _. apply quiet.
  - intros j Hj. apply answers. lia.
  - cbn [queue]. unfold updateItem, addVersionToItem.
    rewrite !findItem_mapItem by reflexivity. rewrite queued. reflexivity.
Qed.

End CompletionSave.

Example first_run_saves_the_finished_item_witness :
  App.saves
    (App.effects
       (App.startTranscription Sample.healthy (App.uploaded "m1" Sample.audio)
          false (App.mkRun [App.uploaded "m1" Sample.audio] [])))
  = [mkItem "m1" (Some Sample.audio) 500 completed 100 (Some "v2")
       [mkVersion "v2" RAW App.NAME_COMPLETE "a b c " None 7 None] None 3 3].
Proof.
  exact (proj2 (first_run_saves_the_finished_item Sample.healthy Sample.audio
                  500 Sample.answers "m1" [App.uploaded "m1" Sample.audio]
                  ltac:(discriminate) eq_refl ltac:(reflexivity)
                  ltac:(reflexivity) eq_refl)).
Defined.

Section SavedCopies.

Import App.

Variable env : Env.

(** What holds of a copy sent to the store by a run started on [item]. *)
Local Abbreviation snapshotOf item saved :=
  (id saved = id item
   /\ file saved = file item
   /\ lastError saved = lastError item
   /\ status saved = completed
   /\ progress saved = 100%Z
   /\ processedChunks saved = totalChunks saved
   /\ currentVersion saved <> None).

Lemma findVersion_last (b : string) (vs : list Version) (v : Version) :
  findVersion b vs = None -> vid v = b -> findVersion b (vs ++ [v]) = Some v.
Proof.
  unfold findVersion. intros Hn Hv. induction vs as [|x vs IH]; cbn in *.
  - now rewrite Hv, String.eqb_refl.
  - destruct (String.eqb (vid x) b); [discriminate | now apply IH].
Qed.

Lemma finalItemToSave_snapshot (item : MediaItem) (base full : string)
  (iv : list Version) (cd : Q) (total : nat) :
  snapshotOf item (finalItemToSave env item base full iv cd total).
Proof.
  unfold finalItemToSave. cbn [id file lastError status progress
    processedChunks totalChunks]. repeat split.
  unfold currentVersion. cbn [currentVersionId versions].
  destruct (findVersion base (patchVersion base _ iv)) eqn:E.
  - rewrite E. discriminate.
  - rewrite (findVersion_last base _ (mkVersion base RAW NAME_COMPLETE full None
                                       (now env) None) E eq_refl).
    discriminate.
Qed.

Lemma chunkLoop_saves (a base : string) (d : Q) (total remaining i : nat)
  (full : string) (ref : Queue) (w : Run) :
  saves (effects (snd (chunkLoop env a base d total remaining i full ref w)))
  = saves (effects w).
Proof.
  destruct (chunkLoop_sends env a base d total remaining i full ref w)
    as (m & _ & ->).
  now rewrite saves_app, saves_send, app_nil_r.
Qed.

Lemma tryCatch_saves (item : MediaItem) (f : File) (k : nat)
  (base full : string) (iv : list Version) (w : Run) :
  exists tail,
    saves (effects (tryCatch env item f k base full iv w))
    = saves (effects w) ++ tail
    /\ length tail <= 1
    /\ Forall (fun saved => snapshotOf item saved) tail.
Proof.
  unfold tryCatch, tryBlock.
  destruct (decodeStep_effects env item f k w)
    as (g & ds & _ & He & _ & _ & _ & Dsaves & _).
  destruct (decodeStep env item f k w) as [[[[cd ad] total] | e] w1];
    cbn [snd] in He.
  - pose proof (chunkLoop_saves (id item) base ad total (total - k) k full
                  (queue w1) w1)
      as Hl.
    destruct (chunkLoop env (id item) base ad total (total - k) k full
                (queue w1) w1)
      as [[[| |e] full'] w']; cbn [snd] in Hl;
      cbn [afterLoop catchBlock effects].
    + eexists [_]. rewrite saves_app, Hl, He, saves_app, Dsaves, app_nil_r.
      cbn [saves]. split; [reflexivity|]. split; [cbn; lia|].
      constructor; [apply finalItemToSave_snapshot | constructor].
    + exists []. rewrite Hl, He, saves_app, Dsaves, !app_nil_r.
      split; [reflexivity|]. split; [cbn; lia | constructor].
    + exists []. rewrite Hl, He, saves_app, Dsaves, !app_nil_r.
      split; [reflexivity|]. split; [cbn; lia | constructor].
  - exists []. cbn [catchBlock effects].
    rewrite He, saves_app, Dsaves, !app_nil_r.
    split; [reflexivity|]. split; [cbn; lia | constructor].
Qed.

Lemma step_saves (self : MediaItem -> bool -> Run -> Run) (item : MediaItem)
  (isResuming : bool) (w : Run) :
  (forall w',
     exists tail,
       saves (effects (self (i_processedChunks 0 item) false w'))
       = saves (effects w') ++ tail
       /\ length tail <= 1
       /\ Forall (fun saved => snapshotOf item saved) tail) ->
  exists tail,
    saves (effects (startTranscription_step self env item isResuming w))
    = saves (effects w) ++ tail
    /\ length tail <= 1
    /\ Forall (fun saved => snapshotOf item saved) tail.
Proof.
  intros Hself. unfold startTranscription_step.
  assert (forall l : list Effect,
            exists tail,
              saves (l ++ [ShowKeyModal]) = saves l ++ tail
              /\ length tail <= 1
              /\ Forall (fun saved => snapshotOf item saved) tail) as Hk.
  { intros l. exists []. rewrite saves_app, !app_nil_r.
    split; [reflexivity|]. split; [cbn; lia | constructor]. }
  assert (forall l : list Effect,
            exists tail,
              saves (l ++ [Alert]) = saves l ++ tail
              /\ length tail <= 1
              /\ Forall (fun saved => snapshotOf item saved) tail) as Ha.
  { intros l. exists []. rewrite saves_app, !app_nil_r.
    split; [reflexivity|]. split; [cbn; lia | constructor]. }
  destruct (String.eqb (apiKey env) ""); [apply Hk|].
  destruct (file item) as [f|] eqn:Ef; [|apply Ha].
  assert (forall asked : list Effect,
            saves asked = [] ->
            saves (effects w ++ asked) = saves (effects w)) as Hasked
    by (intros asked E; now rewrite saves_app, E, app_nil_r).
  destruct (resolveVersion env item isResuming _)
    as [[| base full iv q1] asked] eqn:Er.
  - assert (saves asked = []) as E.
    { unfold resolveVersion in Er.
      destruct (isResuming && (0 <? length (versions item)));
        [destruct (findRaw (versions item)); discriminate|].
      destruct (0 <? processedChunks item);
        destruct (confirm env); cbn in Er;
        try destruct (processedChunks item =? 0);
        inversion Er; reflexivity. }
    destruct (Hself (mkRun
                       (updateItem (id item)
                          (fun it => i_totalChunks 0 (i_processedChunks 0 it))
                          (updateItem (id item)
                             (fun it => i_error None (i_status processing it))
                             (queue w)))
                       (effects w ++ asked)))
      as (tail & Ht & Hlen & Hall).
    exists tail. cbn [effects] in Ht. rewrite Ht, (Hasked _ E).
    split; [reflexivity|]. split; [exact Hlen|].
    eapply Forall_impl; [|exact Hall]. cbv beta. intros saved.
    now rewrite ?Ef.
  - assert (saves asked = []) as E.
    { unfold resolveVersion in Er.
      destruct (isResuming && (0 <? length (versions item)));
        [destruct (findRaw (versions item)); inversion Er; reflexivity|].
      destruct (0 <? processedChunks item);
        destruct (confirm env); cbn in Er;
        try destruct (processedChunks item =? 0);
        inversion Er; reflexivity. }
    destruct (tryCatch_saves item f (processedChunks item) base full iv
                (mkRun q1 (effects w ++ asked)))
      as (tail & Ht & Hlen & Hall).
    exists tail. cbn [effects] in Ht. rewrite Ht, (Hasked _ E).
    split; [reflexivity|]. split; [exact Hlen|].
    eapply Forall_impl; [|exact Hall]. cbv beta. intros saved.
    now rewrite ?Ef.
Qed.

(** X26. Whatever happens during it, a transcription run sends at most
    one copy of the item to the store, and that copy is marked
    completed with progress 100, has its two chunk counters equal, has
    a current version that is one of its versions, and carries the
    identifier and the file of the item the run was started on -- and
    the error text that item had at the start, which for a resumed item
    is the message of the failure that paused it. *)
Theorem completion_snapshot_keeps_start_error
  (item : MediaItem) (isResuming : bool) (w : Run) :
  exists tail,
    saves (effects (startTranscription env item isResuming w))
    = saves (effects w) ++ tail
    /\ length tail <= 1
    /\ Forall (fun saved =>
                 id saved = id item
                 /\ file saved = file item
                 /\ lastError saved = lastError item
                 /\ status saved = completed
                 /\ progress saved = 100%Z
                 /\ processedChunks saved = totalChunks saved
                 /\ currentVersion saved <> None)
         tail.
Proof.
  unfold startTranscription. apply step_saves. intros w'.
  unfold startTranscription_restarted.
  destruct (step_saves (fun _ _ w0 => w0) (i_processedChunks 0 item) false w')
    as (tail & Ht & Hlen & Hall).
  - intros w0. exists []. rewrite app_nil_r.
    split; [reflexivity|]. split; [cbn; lia | constructor].
  - exists tail. split; [exact Ht|]. split; [exact Hlen | exact Hall].
Qed.

End SavedCopies.

(** The resumed sample item completes, and the copy saved still holds
    the message of the failure that had paused it. *)
Example completion_snapshot_keeps_start_error_witness :
  map lastError
    (App.saves
       (App.effects
          (App.startTranscription Sample.healthy Sample.checkpointed true
             (App.mkRun [Sample.checkpointed] []))))
  = [Some "network down"].
Proof.
  destruct (completion_snapshot_keeps_start_error Sample.healthy
              Sample.checkpointed true (App.mkRun [Sample.checkpointed] []))
    as (tail & Ht & _ & Hall).
  rewrite Ht. cbn [App.saves App.effects app].
  destruct tail as [|saved [|more rest]].
  - vm_compute in Ht. discriminate Ht.
  - inversion Hall as [|? ? (_ & _ & He & _) _]; subst. cbn. now rewrite He.
  - vm_compute in Ht. discriminate Ht.
Defined.

(** * The media player: the time display and the playback rate *)

Section TimeDisplay.

Import JsString MediaPlayer.

Lemma readInt_decimal (z : Z) : readInt (decimal z) = Some z.
Proof.
  unfold readInt, decimal.
  rewrite DecimalString.NilZero.isi.
  - cbn. now rewrite DecimalZ.of_to.
  - destruct z; cbn; try discriminate.
    intros [= H]. exact (DecimalPos.Unsigned.to_uint_nonnil _ H).
  - destruct z; cbn; try discriminate.
    intros [= H]. exact (DecimalPos.Unsigned.to_uint_nonnil _ H).
Qed.

Lemma decimal_nonempty (z : Z) : decimal z <> "".
Proof.
  intros H. pose proof (readInt_decimal z) as R. now rewrite H in R.
Qed.

Lemma toString_decimal (z : Z) :
  (Z.abs z < 10 ^ 21)%Z -> Number_toString z = Some (decimal z).
Proof.
  intros H. unfold Number_toString.
  now rewrite (proj2 (Z.ltb_lt _ _) H).
Qed.

(** Padding does not change the number a numeral of a non-negative
    integer denotes. *)
Lemma readInt_padStart2 (z : Z) :
  (0 <= z)%Z -> readInt (padStart2 (decimal z)) = Some z.
Proof.
  intros Hz. pose proof (readInt_decimal z) as R.
  pose proof (decimal_nonempty z) as N.
  destruct (decimal z) as [|c [|c' r]] eqn:E; [congruence | | exact R].
  unfold padStart2. cbn [String.length append].
  destruct z as [|p|p]; [| |lia].
  - injection E as <-. reflexivity.
  - revert R. clear.
    destruct c as [[] [] [] [] [] [] [] []]; vm_compute; congruence.
Qed.

Lemma length_padStart2 (s : string) : 2 <= String.length (padStart2 s).
Proof.
  unfold padStart2. destruct s as [|c [|c' r]]; cbn; lia.
Qed.

(** A number below sixty is shown with exactly two digits. *)
Lemma two_digits (z : Z) :
  (0 <= z < 60)%Z -> String.length (padStart2 (decimal z)) = 2.
Proof.
  intros Hz. rewrite <- (Z2Nat.id z) by lia.
  assert (Z.to_nat z < 60) as H by lia. revert H.
  generalize (Z.to_nat z). clear. intros n H.
  do 60 (destruct n as [|n]; [reflexivity|]). lia.
Qed.

Lemma Qfloor_unique (x : Q) (z : Z) :
  (inject_Z z <= x)%Q -> (x < inject_Z (z + 1))%Q -> Qfloor x = z.
Proof.
  intros L U. apply Z.le_antisymm.
  - pose proof (Qfloor_le x) as F.
    assert (inject_Z (Qfloor x) < inject_Z (z + 1))%Q as H by lra.
    rewrite <- Zlt_Qlt in H. lia.
  - rewrite <- (Qfloor_Z z). now apply Qfloor_resp_le.
Qed.

(** X27. For a position that is not negative and below 2^53 seconds
    the display reads [mm:ss]: the seconds take exactly two digits and
    are below sixty, the minutes take two digits or more, and sixty
    times the minutes plus the seconds is the position rounded down to
    a whole second. *)
Theorem format_time_reads_back (seconds : Q) :
  (0 <= seconds)%Q -> (seconds < inject_Z (2 ^ 53))%Q ->
  exists mm ss m s,
    formatTime (Finite seconds) = Some (mm ++ ":" ++ ss)%string
    /\ String.length ss = 2
    /\ 2 <= String.length mm
    /\ readInt mm = Some m
    /\ readInt ss = Some s
    /\ (0 <= m)%Z /\ (0 <= s < 60)%Z
    /\ (60 * m + s)%Z = Qfloor seconds.
Proof.
  intros Hpos Hbound. unfold formatTime.
  destruct (Qeq_bool seconds 0) eqn:E.
  - apply Qeq_bool_iff in E. exists "00", "00", 0%Z, 0%Z.
    repeat split; try reflexivity; try lia.
    now rewrite (Qfloor_comp _ _ E).
  - assert (seconds == seconds / 60 * 60)%Q as Hdiv by field.
    assert (0 <= seconds / 60)%Q as Hq by (apply Qle_shift_div_l; lra).
    set (m := Qfloor (seconds / 60)).
    set (s := Qfloor (remainder seconds 60)).
    pose proof (Qfloor_le (seconds / 60)) as Lm.
    pose proof (Qlt_floor (seconds / 60)) as Um.
    fold m in Lm, Um. rewrite inject_Z_plus in Um.
    change (inject_Z 1) with 1%Q in Um.
    assert (0 <= m)%Z as Hm.
    { unfold m. change 0%Z with (Qfloor 0). now apply Qfloor_resp_le. }
    assert (remainder seconds 60 == seconds - 60 * inject_Z m)%Q as Hr.
    { unfold remainder. now rewrite (truncate_floor (seconds / 60) Hq). }
    assert (inject_Z m * 60 <= seconds)%Q as L60.
    { rewrite Hdiv. generalize dependent (seconds / 60)%Q. intros. lra. }
    assert (seconds < (inject_Z m + 1) * 60)%Q as U60.
    { rewrite Hdiv. generalize dependent (seconds / 60)%Q. intros. lra. }
    pose proof (Qfloor_le (remainder seconds 60)) as Ls.
    pose proof (Qlt_floor (remainder seconds 60)) as Us.
    fold s in Ls, Us. rewrite inject_Z_plus in Us.
    change (inject_Z 1) with 1%Q in Us. rewrite Hr in Ls, Us.
    assert (0 <= s < 60)%Z as Hs.
    { split.
      - unfold s. change 0%Z with (Qfloor 0). apply Qfloor_resp_le.
        rewrite Hr. lra.
      - assert (inject_Z s < inject_Z 60)%Q as H
          by (change (inject_Z 60) with 60%Q; lra).
        now rewrite <- Zlt_Qlt in H. }
    assert (m < 2 ^ 53)%Z as Hsmall.
    { assert (inject_Z m < inject_Z (2 ^ 53))%Q as H by lra.
      now rewrite <- Zlt_Qlt in H. }
    rewrite (toString_decimal m), (toString_decimal s) by lia.
    exists (padStart2 (decimal m)), (padStart2 (decimal s)), m, s.
    split; [reflexivity|]. split; [exact (two_digits s Hs)|].
    split; [apply length_padStart2|].
    split; [exact (readInt_padStart2 m Hm)|].
    split; [apply readInt_padStart2; lia|].
    split; [exact Hm|]. split; [exact Hs|].
    symmetry. apply Qfloor_unique.
    + rewrite inject_Z_plus, inject_Z_mult.
      change (inject_Z 60) with 60%Q. lra.
    + rewrite !inject_Z_plus, inject_Z_mult.
      change (inject_Z 60) with 60%Q. change (inject_Z 1) with 1%Q. lra.
Qed.

End TimeDisplay.

Section PlaybackRate.

Import MediaPlayer.

Lemma changeRate_next (k : nat) :
  k < 6 -> changeRate (nth k rates 1%Q) = nth ((k + 1) mod 6) rates 1%Q.
Proof.
  intros H. do 6 (destruct k as [|k]; [reflexivity|]). lia.
Qed.

(** X28. The rate button walks through the six rates in a circle: from
    the rate at place [k] of the table, [n] clicks lead to the rate at
    place [(k + n) mod 6], so six clicks lead back; the rate it sets is
    always one of the table, and a rate that is not in the table is
    followed by 1. *)
Theorem change_rate_cycles (rate : Q) (k n : nat) :
  In (changeRate rate) rates
  /\ (indexOf rate rates = None -> changeRate rate = 1%Q)
  /\ (k < 6 ->
      Nat.iter n changeRate (nth k rates 1%Q)
      = nth ((k + n) mod 6) rates 1%Q).
Proof.
  split; [|split].
  - unfold changeRate. apply nth_In.
    destruct (indexOf rate rates); [apply Nat.mod_upper_bound|];
      cbn; lia.
  - unfold changeRate. now intros ->.
  - intros Hk. induction n as [|n IH].
    + cbn [Nat.iter]. now rewrite Nat.add_0_r, Nat.mod_small.
    + rewrite Nat.iter_succ, IH.
      rewrite changeRate_next by (apply Nat.mod_upper_bound; lia).
      f_equal. rewrite Nat.Div0.add_mod_idemp_l. f_equal. lia.
Qed.

End PlaybackRate.

(** Twelve and a half minutes into a recording. *)
Example format_time_reads_back_witness :
  exists mm ss m s,
    MediaPlayer.formatTime (JsString.Finite (7505 # 10))
    = Some (mm ++ ":" ++ ss)%string
    /\ JsString.readInt mm = Some m
    /\ JsString.readInt ss = Some s
    /\ (60 * m + s)%Z = 750%Z.
Proof.
  destruct (format_time_reads_back (7505 # 10) ltac:(unfold Qle; cbn; lia)
              ltac:(reflexivity))
    as (mm & ss & m & s & H & _ & _ & Hm & Hs & _ & _ & Hsum).
  exists mm, ss, m, s. repeat split; assumption.
Defined.

(** * The stage panel *)

Section StagePanel.

Import StageManager.

(** What every request of the panel satisfies. *)
Local Abbreviation wellFormed :=
  (fun r : RunRequest =>
     r_stage r <> RAW
     /\ Gemini.hasPrompt (r_stage r) = true
     /\ r_parent r <> ""
     /\ (r_stage r = CUSTOM -> r_prompt r <> None)
     /\ (r_stage r <> CUSTOM -> r_prompt r = None)).

Lemma stage_eqb_eq (a b : ProcessingStage) : stage_eqb a b = true <-> a = b.
Proof. destruct a, b; cbn; split; congruence. Qed.

Lemma dispatch_keeps_raw_closed (item : MediaItem) (e : Event) (st : State) :
  expandedStage st <> Some RAW ->
  expandedStage (fst (dispatch item e st)) <> Some RAW
  /\ forall r, snd (dispatch item e st) = Some r -> wellFormed r.
Proof.
  intros Hst. unfold dispatch.
  destruct (available item st e) eqn:Av; [|split; [exact Hst | discriminate]].
  destruct e as [s | s | v | p]; cbn [fst snd].
  - split; [|discriminate]. unfold handleRunClick.
    destruct (stage_eqb s RAW) eqn:E; [exact Hst|]. cbn [expandedStage].
    destruct (expandedStage st) as [e|];
      [destruct (stage_eqb e s)|]; try discriminate;
      intros [= ->]; discriminate.
  - cbn [available] in Av.
    destruct (expandedStage st) as [e|] eqn:Ee; [|discriminate].
    apply andb_prop in Av as [Es Ep]. apply stage_eqb_eq in Es. subst e.
    unfold executeRun.
    destruct (String.eqb (selectedParentId st) "") eqn:Esel; [discriminate|].
    cbn [fst snd expandedStage]. split; [discriminate|].
    intros r [= <-]. cbn [r_stage r_parent r_prompt].
    apply String.eqb_neq in Esel.
    repeat split.
    + congruence.
    + destruct s; try reflexivity. congruence.
    + exact Esel.
    + intros ->. discriminate.
    + intros Hs. destruct s; try reflexivity. congruence.
  - split; [exact Hst | discriminate].
  - split; [exact Hst | discriminate].
Qed.

(** X29. Whatever the user does on the stage panel, and whichever item
    it shows meanwhile, every stage run it requests is for a stage
    other than RAW -- one for which [processTextStage] has a prompt --
    names a non-empty source version, and carries the typed prompt
    exactly when the stage is CUSTOM. *)
Theorem stage_panel_never_requests_raw
  (first : MediaItem) (events : list (MediaItem * Event)) :
  Forall (fun r =>
            r_stage r <> RAW
            /\ Gemini.hasPrompt (r_stage r) = true
            /\ r_parent r <> ""
            /\ (r_stage r = CUSTOM -> r_prompt r <> None)
            /\ (r_stage r <> CUSTOM -> r_prompt r = None))
    (snd (session events (init first))).
Proof.
  assert (expandedStage (init first) <> Some RAW) as Hst by discriminate.
  revert Hst. generalize (init first) as st.
  induction events as [|[item e] rest IH]; intros st Hst; cbn [session].
  - constructor.
  - destruct (dispatch_keeps_raw_closed item e st Hst) as [H1 Hreq].
    destruct (dispatch item e st) as [st1 req]. cbn [fst snd] in H1, Hreq.
    specialize (IH st1 H1).
    destruct (session rest st1) as [st2 reqs]. cbn [snd] in IH |- *.
    destruct req as [r|]; [constructor; [now apply Hreq | exact IH] | exact IH].
Qed.

Lemma groups_cons (v : Version) (vs : list Version) :
  Permutation
    (flat_map (fun s => filter (fun u => stage_eqb (stage u) s) (v :: vs))
       stages)
    (v :: flat_map (fun s => filter (fun u => stage_eqb (stage u) s) vs)
            stages).
Proof.
  unfold stages. cbn [flat_map filter]. rewrite !app_nil_r.
  generalize (filter (fun u => stage_eqb (stage u) RAW) vs) as a.
  generalize (filter (fun u => stage_eqb (stage u) ARABIC) vs) as b.
  generalize (filter (fun u => stage_eqb (stage u) TITLES) vs) as c.
  generalize (filter (fun u => stage_eqb (stage u) FORMAL) vs) as d.
  generalize (filter (fun u => stage_eqb (stage u) CUSTOM) vs) as e.
  intros e d c b a. symmetry.
  destruct (stage v); cbn [stage_eqb app].
  - reflexivity.
  - apply Permutation_middle.
  - replace (a ++ b ++ v :: c ++ d ++ e) with ((a ++ b) ++ v :: c ++ d ++ e)
      by now rewrite <- app_assoc.
    replace (a ++ b ++ c ++ d ++ e) with ((a ++ b) ++ c ++ d ++ e)
      by now rewrite <- app_assoc.
    apply Permutation_middle.
  - replace (a ++ b ++ c ++ v :: d ++ e) with ((a ++ b ++ c) ++ v :: d ++ e)
      by now rewrite <- !app_assoc.
    replace (a ++ b ++ c ++ d ++ e) with ((a ++ b ++ c) ++ d ++ e)
      by now rewrite <- !app_assoc.
    apply Permutation_middle.
  - replace (a ++ b ++ c ++ d ++ v :: e) with ((a ++ b ++ c ++ d) ++ v :: e)
      by now rewrite <- !app_assoc.
    replace (a ++ b ++ c ++ d ++ e) with ((a ++ b ++ c ++ d) ++ e)
      by now rewrite <- !app_assoc.
    apply Permutation_middle.
Qed.

(** X30. The five stage groups of the panel show every version of the
    item exactly once, each in the group of its own stage. *)
Theorem stage_groups_partition_versions (item : MediaItem) :
  Permutation (flat_map (getVersionsByStage item) stages) (versions item)
  /\ forall s v, In v (getVersionsByStage item s) -> stage v = s.
Proof.
  split.
  - unfold getVersionsByStage.
    induction (versions item) as [|v vs IH].
    + reflexivity.
    + rewrite (groups_cons v vs). now constructor.
  - intros s v H. apply filter_In in H as [_ H].
    now apply stage_eqb_eq in H.
Qed.

End StagePanel.
